(** * Vehicle Tracker front-end script: a shallow embedding of [static/js/app.js]

    The script attaches listeners to a server-rendered page.  This file
    embeds the parts of it that carry logic:

    - [initializeFormValidation] and [initializeAutoSave], over a page of
      forms and the origin's [localStorage];
    - [initializeSearch], [performSearch] and [updateSearchResultCount],
      over search inputs, their containers and the timer queue;
    - [sortTable] and [exportTableToCSV], over tables.

    Conventions of the embedding.
    - A JavaScript string is a [string] of 8-bit code units (Latin-1).
    - A function that may throw returns a [Completion]; one that throws
      after it has changed the page returns the page with it.
    - The DOM is explicit state: records for elements, lists for node
      lists, and listener lists in registration order.
    - What the platform decides for a form control (what its value
      setter keeps, its constraint validation, whether it takes the
      focus) is a component of the control.
    - [localStorage] is a [gmap] from keys to values with a quota. *)

From Stdlib Require Import Ascii Floats.
From stdpp Require Import gmap strings list fin_maps sorting.
From Stdlib Require DecimalString.

Open Scope string_scope.

(** ** Completions: normal return or a thrown exception *)

Inductive Exception : Type :=
  | TypeError
  | QuotaExceededError
  | InvalidStateError.

Inductive Completion (A : Type) : Type :=
  | Normal (a : A)
  | Throw (e : Exception).

Arguments Normal {A} a.
Arguments Throw {A} e.

(** Sequencing uses stdpp's monad notation [x ← c; k]: a thrown
    exception skips the rest. *)
#[global] Instance completion_ret : MRet Completion := @Normal.
#[global] Instance completion_bind : MBind Completion := λ A B k c,
  match c with
  | Normal a => k a
  | Throw e => Throw e
  end.

(** ** JavaScript string primitives used by the script *)

Module JsString.

(** [String.prototype.toLowerCase] on Latin-1 code units: A-Z and
    the accented capitals U+00C0..U+00DE (but not the multiplication
    sign U+00D7) move up by 32. *)
Definition lower_char (c : ascii) : ascii :=
  let n := N_of_ascii c in
  if ((65 <=? n) && (n <=? 90)
      || (192 <=? n) && (n <=? 222) && negb (n =? 215))%N
  then ascii_of_N (n + 32) else c.

Fixpoint toLowerCase (s : string) : string :=
  match s with
  | EmptyString => EmptyString
  | String c s' => String (lower_char c) (toLowerCase s')
  end.

(** White space and line terminators removed by [trim]: TAB, LF, VT,
    FF, CR, SPACE and NBSP. *)
Definition is_space (c : ascii) : bool :=
  let n := N_of_ascii c in
  ((9 <=? n) && (n <=? 13) || (n =? 32) || (n =? 160))%N.

Fixpoint trimStart (s : string) : string :=
  match s with
  | EmptyString => EmptyString
  | String c s' => if is_space c then trimStart s' else s
  end.

Fixpoint trimEnd (s : string) : string :=
  match s with
  | EmptyString => EmptyString
  | String c s' =>
      match trimEnd s' with
      | EmptyString => if is_space c then EmptyString else String c EmptyString
      | r => String c r
      end
  end.

Definition trim (s : string) : string := trimEnd (trimStart s).

(** [t] is a prefix of [s]. *)
Fixpoint startsWith (s t : string) {struct t} : bool :=
  match t, s with
  | EmptyString, _ => true
  | String _ _, EmptyString => false
  | String b t', String a s' => if decide (a = b) then startsWith s' t' else false
  end.

(** [s.includes(t)]: [t] occurs in [s] at some position. *)
Fixpoint includes (s t : string) : bool :=
  startsWith s t ||
  match s with
  | EmptyString => false
  | String _ s' => includes s' t
  end.

(** [s.replace(/c/g, r)] for a one-character pattern. *)
Fixpoint replaceAll (s : string) (c : ascii) (r : string) : string :=
  match s with
  | EmptyString => EmptyString
  | String a s' =>
      if decide (a = c) then r +:+ replaceAll s' c r
      else String a (replaceAll s' c r)
  end.

(** [s.replace(/[^...]/g, '')]: drop every character outside a class. *)
Fixpoint keepOnly (keep : ascii → bool) (s : string) : string :=
  match s with
  | EmptyString => EmptyString
  | String a s' =>
      if keep a then String a (keepOnly keep s') else keepOnly keep s'
  end.

(** [Array.prototype.join] on an array of strings. *)
Fixpoint join (sep : string) (l : list string) : string :=
  match l with
  | [] => EmptyString
  | [x] => x
  | x :: l' => x +:+ sep +:+ join sep l'
  end.

(** The double quote character, and the one-character string. *)
Definition dquote_char : ascii := "034"%char.
Definition dquote : string := String dquote_char EmptyString.

(** A string is truthy when it is not empty. *)
Definition truthy (s : string) : bool :=
  match s with EmptyString => false | _ => true end.

(** Number to string, as a template literal interpolates it. *)
Definition of_nat (n : nat) : string :=
  DecimalString.NilZero.string_of_uint (Nat.to_uint n).

(** [t] occurs in [s]: the meaning of [includes]. *)
Definition is_substring (t s : string) : Prop :=
  ∃ pre post, s = pre +:+ t +:+ post.

(** The text without LF and CR, as the value setter of a text input
    keeps it. *)
Definition is_newline (c : ascii) : bool :=
  let n := N_of_ascii c in ((n =? 10) || (n =? 13))%N.

Definition strip_newlines (s : string) : string :=
  keepOnly (λ c, negb (is_newline c)) s.

(** A valid floating-point number of HTML, which the value setter of
    a number input keeps: an optional minus sign, then digits with an
    optional fraction or a fraction alone, then an optional exponent. *)
Definition is_digit (c : ascii) : bool :=
  let n := N_of_ascii c in ((48 <=? n) && (n <=? 57))%N.

(** The number of digits at the front, and the text after them. *)
Fixpoint skip_digits (s : string) : nat * string :=
  match s with
  | EmptyString => (0, s)
  | String c s' =>
      if is_digit c then let r := skip_digits s' in (S r.1, r.2) else (0, s)
  end.

Definition valid_exponent (s : string) : bool :=
  let unsigned :=
    match s with
    | String c s' => if decide (c = "-"%char ∨ c = "+"%char) then s' else s
    | EmptyString => s
    end in
  let r := skip_digits unsigned in
  (0 <? r.1)%nat && negb (truthy r.2).

Definition valid_after_mantissa (s : string) : bool :=
  match s with
  | EmptyString => true
  | String c s' =>
      if decide (c = "e"%char ∨ c = "E"%char) then valid_exponent s' else false
  end.

Definition valid_floating_point_number (s : string) : bool :=
  let unsigned :=
    match s with
    | String c s' => if decide (c = "-"%char) then s' else s
    | EmptyString => s
    end in
  let r := skip_digits unsigned in
  match r.2 with
  | String c s1 =>
      if decide (c = "."%char)
      then let q := skip_digits s1 in (0 <? q.1)%nat && valid_after_mantissa q.2
      else (0 <? r.1)%nat && valid_after_mantissa r.2
  | EmptyString => (0 <? r.1)%nat
  end.

Fixpoint all_space (s : string) : bool :=
  match s with
  | EmptyString => true
  | String c s' => is_space c && all_space s'
  end.

End JsString.

(** ** The durable key-value store ([window.localStorage]) *)

Module Storage.

(** The stored items, and the number of code units the origin may
    store in total (keys plus values). *)
Record t : Type := mk {
  items : gmap string string;
  quota : nat;
}.

Definition used (m : gmap string string) : nat :=
  map_fold (λ k v n, String.length k + String.length v + n) 0 m.

Definition getItem (st : t) (key : string) : option string :=
  items st !! key.

(** [setItem] throws [QuotaExceededError] and stores nothing when the
    new contents would exceed the quota. *)
Definition setItem (st : t) (key value : string) : Completion t :=
  let m := <[key := value]> (items st) in
  if decide (used m ≤ quota st)%nat
  then Normal {| items := m; quota := quota st |}
  else Throw QuotaExceededError.

(** The store has room for [value] under [key]. *)
Definition accepts (st : t) (key value : string) : Prop :=
  (used (<[key := value]> (items st)) ≤ quota st)%nat.

Definition removeItem (st : t) (key : string) : t :=
  {| items := delete key (items st); quota := quota st |}.

End Storage.

(** ** The page: forms, fields, listeners and the window *)

Module Page.

(** Listeners the script registers, named by what they do.  A list of
    them is kept in registration order, which is dispatch order. *)
Inductive InputListener : Type :=
  | ValidateOnInput     (* initializeFormValidation, 'input' *)
  | AutosavePersist.    (* initializeAutoSave, 'input' *)

Inductive BlurListener : Type :=
  | ValidateOnBlur.     (* initializeFormValidation, 'blur' *)

Inductive SubmitListener : Type :=
  | ValidateOnSubmit    (* initializeFormValidation, 'submit' *)
  | AutosaveClear.      (* initializeAutoSave, 'submit' *)

#[global] Instance InputListener_eq_dec : EqDecision InputListener.
Proof. solve_decision. Defined.

#[global] Instance SubmitListener_eq_dec : EqDecision SubmitListener.
Proof. solve_decision. Defined.

(** What the platform gives an input, select or textarea, and the
    script cannot change.

    [assign s] is the assignment [input.value = s] as the script sees
    it: the value the control holds afterwards, or the exception of the
    setter.  The setter sanitises by the kind of control: a text input
    drops line breaks, a number input keeps a valid number only, a
    select takes the option that has the value or none, and a file
    input throws unless [s] is empty.

    [constraint] is the constraint validation of the control as a
    predicate on its value.  [focusable] tells whether [focus()] moves
    the focus to the control (a control that is not rendered does not
    take it).  [fieldset] is the outermost [fieldset] of the form
    around the control, as an index into [fieldsets] of the form. *)
Record Control : Type := mkControl {
  assign : string → Completion string;
  constraint : string → bool;
  focusable : bool;
  fieldset : option nat;
}.

(** Four kinds of control, outside any fieldset. *)
Definition text_input (constraint : string → bool) : Control :=
  mkControl (λ s, Normal (JsString.strip_newlines s)) constraint true None.

Definition number_input (constraint : string → bool) : Control :=
  mkControl (λ s, Normal (if JsString.valid_floating_point_number s then s
                          else ""))
            constraint true None.

Definition select_one (options : list string) (constraint : string → bool)
  : Control :=
  mkControl (λ s, Normal (if bool_decide (s ∈ options) then s else ""))
            constraint true None.

Definition file_input (constraint : string → bool) : Control :=
  mkControl (λ s, if JsString.truthy s then Throw InvalidStateError
                  else Normal "")
            constraint true None.

(** The same control inside the fieldset [k] of its form. *)
Definition in_fieldset (k : nat) (c : Control) : Control :=
  mkControl (assign c) (constraint c) (focusable c) (Some k).

(** An input, select or textarea.  [name] is the empty string when
    the element has no name attribute.  [validity_class] is [Some true]
    for class is-valid, [Some false] for is-invalid. *)
Record Field : Type := mkField {
  name : string;
  value : string;
  control : Control;
  validity_class : option bool;
  blur_listeners : list BlurListener;
  input_listeners : list InputListener;
}.

Record Button : Type := mkButton {
  loading : bool;
  disabled : bool;
  innerHTML : string;
}.

(** [inputs] is [form.querySelectorAll('input, select, textarea')],
    which are also the controls that [form.checkValidity()] checks;
    [submit_button] is [form.querySelector('button[type="submit"]')].
    [fieldsets] are the outermost fieldsets of the form: for each,
    whether [focus()] moves the focus to it (it has a tabindex). *)
Record Form : Type := mkForm {
  data_autosave : bool;
  fieldsets : list bool;
  inputs : list Field;
  submit_button : option Button;
  was_validated : bool;
  submit_listeners : list SubmitListener;
}.

Record Event : Type := mkEvent {
  defaultPrevented : bool;
  propagationStopped : bool;
  immediatePropagationStopped : bool;
}.

Record Notification : Type := mkNotification {
  message : string;
  type : string;
}.

(** Work handed to [setTimeout], with its delay. *)
Inductive Task : Type :=
  | RestoreButton (form : nat) (originalText : string)
  | DismissNotification (index : nat).

(** An element that [focus()] is called on: input [j] or fieldset [k]
    of form [i]. *)
Inductive Node : Type :=
  | FieldNode (i j : nat)
  | FieldsetNode (i k : nat).

#[global] Instance Node_eq_dec : EqDecision Node.
Proof. solve_decision. Defined.

(** [forms] is [document.querySelectorAll('form')]; [activeElement]
    is the focused field or fieldset, [None] when the focus is on an
    element the script has no listener on (the body, a button, a link). *)
Record Window : Type := mkWindow {
  forms : list Form;
  localStorage : Storage.t;
  activeElement : option Node;
  notifications : list Notification;
  timeouts : list (nat * Task);
}.

(** *** Field, form and window updates *)

Definition set_value (v : string) (f : Field) : Field :=
  mkField (name f) v (control f) (validity_class f) (blur_listeners f)
          (input_listeners f).

Definition set_validity_class (c : option bool) (f : Field) : Field :=
  mkField (name f) (value f) (control f) c (blur_listeners f)
          (input_listeners f).

Definition add_blur_listener (l : BlurListener) (f : Field) : Field :=
  mkField (name f) (value f) (control f) (validity_class f)
          (blur_listeners f ++ [l]) (input_listeners f).

Definition add_input_listener (l : InputListener) (f : Field) : Field :=
  mkField (name f) (value f) (control f) (validity_class f) (blur_listeners f)
          (input_listeners f ++ [l]).

Definition set_inputs (fs : list Field) (fm : Form) : Form :=
  mkForm (data_autosave fm) (fieldsets fm) fs (submit_button fm)
         (was_validated fm) (submit_listeners fm).

Definition set_submit_button (b : option Button) (fm : Form) : Form :=
  mkForm (data_autosave fm) (fieldsets fm) (inputs fm) b (was_validated fm)
         (submit_listeners fm).

Definition set_was_validated (fm : Form) : Form :=
  mkForm (data_autosave fm) (fieldsets fm) (inputs fm) (submit_button fm) true
         (submit_listeners fm).

Definition add_submit_listener (l : SubmitListener) (fm : Form) : Form :=
  mkForm (data_autosave fm) (fieldsets fm) (inputs fm) (submit_button fm)
         (was_validated fm) (submit_listeners fm ++ [l]).

Definition set_forms (fms : list Form) (w : Window) : Window :=
  mkWindow fms (localStorage w) (activeElement w) (notifications w)
           (timeouts w).

Definition set_localStorage (st : Storage.t) (w : Window) : Window :=
  mkWindow (forms w) st (activeElement w) (notifications w) (timeouts w).

Definition set_activeElement (a : option Node) (w : Window) : Window :=
  mkWindow (forms w) (localStorage w) a (notifications w) (timeouts w).

Definition get_field (w : Window) (i j : nat) : option Field :=
  fm ← forms w !! i; inputs fm !! j.

Definition update_form (i : nat) (g : Form → Form) (w : Window) : Window :=
  set_forms (alter g i (forms w)) w.

Definition update_field (i j : nat) (g : Field → Field) (w : Window) : Window :=
  update_form i (λ fm, set_inputs (alter g j (inputs fm)) fm) w.

(** *** Utilities of the script *)

(** [showNotification(message, type)]: append the alert to the body
    and schedule its removal after 5 seconds. *)
Definition showNotification (msg ty : string) (w : Window) : Window :=
  mkWindow (forms w) (localStorage w) (activeElement w)
           (notifications w ++ [mkNotification msg ty])
           (timeouts w ++ [(5000, DismissNotification (length (notifications w)))]).

(** The window's 'error' listener: an exception that escapes a
    listener is reported to it.  It logs to the console (not modelled)
    and shows the notification. *)
Definition on_error (e : Exception) (w : Window) : Window :=
  showNotification
    "An unexpected error occurred. Please refresh the page and try again."
    "danger" w.

(** [validateField(field)]; the feedback text is not modelled. *)
Definition validateField (f : Field) : Field :=
  if constraint (control f) (value f)
  then set_validity_class (Some true) f
  else set_validity_class (Some false) f.

(** [field.checkValidity()] and [form.checkValidity()]. *)
Definition field_valid (f : Field) : bool := constraint (control f) (value f).

Definition checkValidity (fm : Form) : bool := forallb field_valid (inputs fm).

(** The first control of the form that fails its constraint. *)
Fixpoint first_invalid (fs : list Field) : option nat :=
  match fs with
  | [] => None
  | f :: fs' => if field_valid f then S <$> first_invalid fs' else Some 0
  end.

(** [form.querySelector(':invalid')], for form [i]: the first element
    in document order that matches.  A fieldset matches when a control
    inside it fails, and it stands before its controls: the match is
    the outermost fieldset around the first failing control, or that
    control when no fieldset is around it. *)
Definition querySelector_invalid (i : nat) (fm : Form) : option Node :=
  j ← first_invalid (inputs fm);
  f ← inputs fm !! j;
  mret (match fieldset (control f) with
        | Some k => FieldsetNode i k
        | None => FieldNode i j
        end).

(** *** Focus *)

(** The bodies of the 'blur' and the 'input' listener of
    [initializeFormValidation]. *)
Definition validate_on_blur (i j : nat) (w : Window) : Window :=
  match forms w !! i with
  | Some fm => if was_validated fm then update_field i j validateField w else w
  | None => w
  end.

Definition validate_on_input (i j : nat) (w : Window) : Window :=
  match forms w !! i with
  | Some fm => if was_validated fm then update_field i j validateField w else w
  | None => w
  end.

Definition run_blur_listener (l : BlurListener) (i j : nat) (w : Window)
  : Window :=
  match l with
  | ValidateOnBlur => validate_on_blur i j w
  end.

(** The browser fires 'blur' at the element that loses the focus. *)
Definition dispatch_blur (n : option Node) (w : Window) : Window :=
  match n with
  | Some (FieldNode i j) =>
      match get_field w i j with
      | Some f => foldl (λ w' l, run_blur_listener l i j w') w (blur_listeners f)
      | None => w
      end
  | _ => w
  end.

Definition can_focus (n : Node) (w : Window) : bool :=
  match n with
  | FieldNode i j => from_option (λ f, focusable (control f)) false (get_field w i j)
  | FieldsetNode i k => default false (fm ← forms w !! i; fieldsets fm !! k)
  end.

(** [element.focus()]: nothing happens when the element cannot take
    the focus or has it; otherwise the element that had it gets 'blur'
    and the focus moves. *)
Definition focus (n : Node) (w : Window) : Window :=
  if can_focus n w && negb (bool_decide (activeElement w = Some n))
  then set_activeElement (Some n) (dispatch_blur (activeElement w) w)
  else w.

(** The focus leaves for an element without listeners of the script. *)
Definition blur (w : Window) : Window :=
  set_activeElement None (dispatch_blur (activeElement w) w).

(** *** initializeFormValidation *)

Definition initializeFormValidation (w : Window) : Window :=
  set_forms
    (map (λ fm,
       add_submit_listener ValidateOnSubmit
         (set_inputs
            (map (λ f, add_input_listener ValidateOnInput
                         (add_blur_listener ValidateOnBlur f))
                 (inputs fm))
            fm))
       (forms w))
    w.

(** The markup shown in the submit button while saving. *)
Definition spinner : string :=
  "<span class=" +:+ JsString.dquote
    +:+ "spinner-border spinner-border-sm me-2" +:+ JsString.dquote
    +:+ "></span>Saving...".

(** The body of the 'submit' listener of [initializeFormValidation],
    for form [i]. *)
Definition validate_on_submit (i : nat) (ev : Event) (w : Window)
  : Event * Window :=
  match forms w !! i with
  | None => (ev, w)
  | Some fm =>
      let '(ev1, w1) :=
        if negb (checkValidity fm) then
          (mkEvent true true (immediatePropagationStopped ev),
           match querySelector_invalid i fm with
           | Some firstInvalidField => focus firstInvalidField w
           | None => w
           end)
        else
          (ev,
           match submit_button fm with
           | Some b =>
               let w' :=
                 update_form i
                   (set_submit_button
                      (Some (mkButton true true spinner)))
                   w in
               mkWindow (forms w') (localStorage w') (activeElement w')
                        (notifications w')
                        (timeouts w' ++ [(3000, RestoreButton i (innerHTML b))])
           | None => w
           end)
      in
      (ev1, update_form i set_was_validated w1)
  end.

(** *** initializeAutoSave *)

(** The template literal [`autosave_${input.name}`]. *)
Definition autosave_key (f : Field) : string := "autosave_" +:+ name f.

(** Load saved data: [if (savedValue && !input.value)
    input.value = savedValue], through the setter of the control. *)
Definition restore (st : Storage.t) (f : Field) : Completion Field :=
  match Storage.getItem st (autosave_key f) with
  | Some savedValue =>
      if JsString.truthy savedValue && negb (JsString.truthy (value f))
      then v ← assign (control f) savedValue; mret (set_value v f)
      else mret f
  | None => mret f
  end.

(** [list.forEach(callback)] over elements that the callback updates:
    when the callback throws, the elements after are not visited. *)
Fixpoint forEach {A : Type} (callback : A → A * Completion unit) (l : list A)
  : list A * Completion unit :=
  match l with
  | [] => ([], Normal ())
  | x :: l' =>
      match callback x with
      | (x', Normal _) =>
          let r := forEach callback l' in (x' :: r.1, r.2)
      | (x', Throw e) => (x' :: l', Throw e)
      end
  end.

(** The callback of [inputs.forEach]: restore, then register the
    persisting listener.  A setter that throws leaves the field as it
    was, without the listener. *)
Definition autosave_input (st : Storage.t) (f : Field)
  : Field * Completion unit :=
  match restore st f with
  | Normal f' => (add_input_listener AutosavePersist f', Normal ())
  | Throw e => (f, Throw e)
  end.

(** The callback of [forms.forEach]; a form without [data-autosave] is
    not among the forms selected. *)
Definition autosave_form (st : Storage.t) (fm : Form)
  : Form * Completion unit :=
  if data_autosave fm then
    match forEach (autosave_input st) (inputs fm) with
    | (fs, Normal _) =>
        (add_submit_listener AutosaveClear (set_inputs fs fm), Normal ())
    | (fs, Throw e) => (set_inputs fs fm, Throw e)
    end
  else (fm, Normal ()).

(** [initializeAutoSave]: the page afterwards, and how the call
    completed. *)
Definition initializeAutoSave (w : Window) : Window * Completion unit :=
  let r := forEach (autosave_form (localStorage w)) (forms w) in
  (set_forms r.1 w, r.2).

(** Save on input: the body of the 'input' listener. *)
Definition autosave_persist (i j : nat) (w : Window) : Completion Window :=
  match get_field w i j with
  | Some f =>
      st ← Storage.setItem (localStorage w) (autosave_key f) (value f);
      mret (set_localStorage st w)
  | None => mret w
  end.

(** Clear auto-save: the body of the 'submit' listener. *)
Definition autosave_clear (i : nat) (w : Window) : Window :=
  match forms w !! i with
  | Some fm =>
      set_localStorage
        (foldl (λ st f, Storage.removeItem st (autosave_key f))
               (localStorage w) (inputs fm))
        w
  | None => w
  end.

(** *** Event dispatch *)

Definition run_input_listener (l : InputListener) (i j : nat) (w : Window)
  : Completion Window :=
  match l with
  | ValidateOnInput => mret (validate_on_input i j w)
  | AutosavePersist => autosave_persist i j w
  end.

(** Listeners of the target run in order; an exception thrown by one
    is reported and the next one still runs. *)
Fixpoint dispatch_input (ls : list InputListener) (i j : nat) (w : Window)
  : Window :=
  match ls with
  | [] => w
  | l :: ls' =>
      dispatch_input ls' i j
        match run_input_listener l i j w with
        | Normal w' => w'
        | Throw e => on_error e w
        end
  end.

(** The user edits field [j] of form [i]: the browser sets the value
    and fires 'input' at the field. *)
Definition user_input (i j : nat) (v : string) (w : Window) : Window :=
  match get_field w i j with
  | Some f => dispatch_input (input_listeners f) i j (update_field i j (set_value v) w)
  | None => w
  end.

Definition run_submit_listener (l : SubmitListener) (i : nat)
    (ev : Event) (w : Window) : Event * Window :=
  match l with
  | ValidateOnSubmit => validate_on_submit i ev w
  | AutosaveClear => (ev, autosave_clear i w)
  end.

(** [stopPropagation] keeps the event from other nodes of its path;
    only [stopImmediatePropagation] keeps it from the remaining
    listeners of the same node. *)
Fixpoint dispatch_submit (ls : list SubmitListener) (i : nat)
    (ev : Event) (w : Window) : Event * Window :=
  match ls with
  | [] => (ev, w)
  | l :: ls' =>
      let '(ev', w') := run_submit_listener l i ev w in
      if immediatePropagationStopped ev' then (ev', w')
      else dispatch_submit ls' i ev' w'
  end.

(** The browser fires 'submit' at form [i]. *)
Definition fire_submit (i : nat) (w : Window) : Event * Window :=
  match forms w !! i with
  | Some fm => dispatch_submit (submit_listeners fm) i (mkEvent false false false) w
  | None => (mkEvent false false false, w)
  end.

(** *** Page load *)

(** [initializeApp], as far as forms are concerned: the page
    afterwards, and how the call completed. *)
Definition initializeApp (w : Window) : Window * Completion unit :=
  initializeAutoSave (initializeFormValidation w).

(** The document the server sends, before any script has run. *)
Record FieldMarkup : Type := mkFieldMarkup {
  m_name : string;
  m_value : string;
  m_control : Control;
}.

Record FormMarkup : Type := mkFormMarkup {
  m_autosave : bool;
  m_fieldsets : list bool;
  m_inputs : list FieldMarkup;
  m_submit_button : option string;
}.

Definition render_field (m : FieldMarkup) : Field :=
  mkField (m_name m) (m_value m) (m_control m) None [] [].

Definition render_form (m : FormMarkup) : Form :=
  mkForm (m_autosave m) (m_fieldsets m) (map render_field (m_inputs m))
         (mkButton false false <$> m_submit_button m) false [].

Definition render (document : list FormMarkup) (st : Storage.t) : Window :=
  mkWindow (map render_form document) st None [] [].

(** Loading a document in a browser whose store holds [st]:
    DOMContentLoaded runs [initializeApp].  An exception that ends it
    early is reported to the window's 'error' listener; what was
    registered before stays registered. *)
Definition load (document : list FormMarkup) (st : Storage.t) : Window :=
  let r := initializeApp (render document st) in
  match r.2 with
  | Normal _ => r.1
  | Throw e => on_error e r.1
  end.

(** [initializeApp] ran to its end. *)
Definition initialized (document : list FormMarkup) (st : Storage.t) : Prop :=
  (initializeApp (render document st)).2 = Normal ().

(** *** What happens on a loaded page *)

Inductive PageEvent : Type :=
  | UserInput (i j : nat) (v : string)   (* the user edits a field *)
  | Submit (i : nat)                     (* 'submit' fires at a form *)
  | Focus (n : Node)                     (* the user moves the focus to [n] *)
  | Blur.                                (* ... or away from the forms *)

Definition page_step (w : Window) (e : PageEvent) : Window :=
  match e with
  | UserInput i j v => user_input i j v w
  | Submit i => snd (fire_submit i w)
  | Focus n => focus n w
  | Blur => blur w
  end.

Definition page_run (w : Window) (es : list PageEvent) : Window :=
  foldl page_step w es.

(** What no event changes: the autosave mark of a form, the names of
    its fields, and the registered listeners. *)
Definition field_shape (f : Field)
  : string * list BlurListener * list InputListener :=
  (name f, blur_listeners f, input_listeners f).

Definition form_shape (fm : Form)
  : bool * list (string * list BlurListener * list InputListener)
    * list SubmitListener :=
  (data_autosave fm, map field_shape (inputs fm), submit_listeners fm).

Definition shape (w : Window)
  : list (bool * list (string * list BlurListener * list InputListener)
          * list SubmitListener) :=
  map form_shape (forms w).

(** The state in which the persisting listener of field [j] of form [i]
    runs after the user has entered [v]. *)
Definition before_persist (i j : nat) (v : string) (w : Window) : Window :=
  validate_on_input i j (update_field i j (set_value v) w).

(** The field as the change and the validation listener leave it. *)
Definition changed_field (validated : bool) (v : string) (f : Field) : Field :=
  if validated then validateField (set_value v f) else set_value v f.

(** A form is unstyled: not marked validated, no field marked. *)
Definition unstyled (fm : Form) : Prop :=
  was_validated fm = false
  ∧ ∀ j f, inputs fm !! j = Some f → validity_class f = None.

(** The removals of notifications that are scheduled: delay and
    notification. *)
Definition dismissals (ts : list (nat * Task)) : list (nat * nat) :=
  omap (λ p, match p.2 with
             | DismissNotification k => Some (p.1, k)
             | RestoreButton _ _ => None
             end) ts.

(** Every notification has its removal scheduled after 5000, in the
    order the notifications were shown, and nothing else is scheduled
    for removal. *)
Definition all_dismissals_scheduled (w : Window) : Prop :=
  dismissals (timeouts w)
  = map (λ k, (5000, k)) (seq 0 (length (notifications w))).

(** The shape of a document whose initialisation ran to its end. *)
Definition loaded_shape (m : FormMarkup)
  : bool * list (string * list BlurListener * list InputListener)
    * list SubmitListener :=
  (m_autosave m,
   map (λ fm, (m_name fm, [ValidateOnBlur],
               if m_autosave m then [ValidateOnInput; AutosavePersist]
               else [ValidateOnInput]))
       (m_inputs m),
   if m_autosave m then [ValidateOnSubmit; AutosaveClear]
   else [ValidateOnSubmit]).

(** The listeners a form can carry after a load, whether or not the
    initialisation ran to its end: the validation listeners always, and
    those of the autosave only on a form marked for it. *)
Definition wired (fm : Form) : Prop :=
  (submit_listeners fm = [ValidateOnSubmit]
   ∨ (data_autosave fm = true
      ∧ submit_listeners fm = [ValidateOnSubmit; AutosaveClear]))
  ∧ ∀ j f, inputs fm !! j = Some f →
      blur_listeners f = [ValidateOnBlur]
      ∧ (input_listeners f = [ValidateOnInput]
         ∨ (data_autosave fm = true
            ∧ input_listeners f = [ValidateOnInput; AutosavePersist])).

End Page.

(** ** Search: the filter pass and its debounce timer *)

Module Search.

(** An element of the search container, with its inline
    [style.display].  Its text is what [textContent] gives when the
    pass reads it. *)
Record Element : Type := mkElement {
  data_searchable : bool;
  textContent : string;
  style_display : string;
}.

(** The status line, [small.search-count]. *)
Record CountElement : Type := mkCountElement {
  count_text : string;
  count_display : string;
}.

(** A search input.  [container] is [input.closest('.card, .container')]
    given by the elements below it in document order, [None] when the
    input has no such ancestor; [search_count] is
    [input.parentNode.querySelector('.search-count')]. *)
Record SearchInput : Type := mkSearchInput {
  value : string;
  container : option (list Element);
  search_count : option CountElement;
}.

Definition set_display (d : string) (e : Element) : Element :=
  mkElement (data_searchable e) (textContent e) d.

(** [el.style.display !== 'none'] *)
Definition shown (e : Element) : bool :=
  negb (String.eqb (style_display e) "none").

Definition updateSearchResultCount (inp : SearchInput) (visible total : nat)
  : SearchInput :=
  let countElement :=
    match search_count inp with
    | Some c => c
    | None => mkCountElement "" ""
    end in
  mkSearchInput (value inp) (container inp)
    (Some
       (if JsString.truthy (JsString.trim (value inp))
        then mkCountElement
               ("Showing " +:+ JsString.of_nat visible +:+ " of "
                 +:+ JsString.of_nat total +:+ " results")
               "block"
        else mkCountElement (count_text countElement) "none")).

Definition performSearch (inp : SearchInput) : Completion SearchInput :=
  let searchTerm := JsString.trim (JsString.toLowerCase (value inp)) in
  match container inp with
  | None => Throw TypeError
  | Some elements =>
      let searchableElements := List.filter data_searchable elements in
      if (length searchableElements =? 0)%nat then mret inp
      else
        let elements' :=
          map (λ element,
            if data_searchable element then
              let text := JsString.toLowerCase (textContent element) in
              let isVisible :=
                negb (JsString.truthy searchTerm)
                || JsString.includes text searchTerm in
              set_display (if isVisible then "" else "none") element
            else element)
            elements in
        let visibleCount :=
          length (List.filter shown (List.filter data_searchable elements')) in
        mret (updateSearchResultCount
                (mkSearchInput (value inp) (Some elements') (search_count inp))
                visibleCount (length searchableElements))
  end.

(** The normalised search term of an input, the text of the status
    line, and the searchable elements of a container. *)
Definition term_of (inp : SearchInput) : string :=
  JsString.trim (JsString.toLowerCase (value inp)).

Definition status_text (visible total : nat) : string :=
  "Showing " +:+ JsString.of_nat visible +:+ " of "
    +:+ JsString.of_nat total +:+ " results".

Definition searchable_of (elements : list Element) : list Element :=
  List.filter data_searchable elements.

(** The elements after a pass with the normalised term [term]: the
    loop of [performSearch] on its own. *)
Definition filter_elements (term : string) (elements : list Element)
  : list Element :=
  map (λ element,
    if data_searchable element then
      set_display
        (if negb (JsString.truthy term)
            || JsString.includes (JsString.toLowerCase (textContent element)) term
         then "" else "none")
        element
    else element)
    elements.

(** *** The event loop around one page's search inputs *)

(** A pending [setTimeout]: its handle, the time it is due, and the
    search input whose closure it belongs to. *)
Record Timer : Type := mkTimer {
  timer_id : nat;
  due : nat;
  owner : nat;
}.

(** A search input with the [searchTimeout] variable of its closure
    ([None] is [undefined]). *)
Record Box : Type := mkBox {
  input : SearchInput;
  searchTimeout : option nat;
}.

(** [passes] records every call of [performSearch]: which input, and
    the text it read. *)
Record Loop : Type := mkLoop {
  now : nat;
  next_id : nat;
  pending : list Timer;
  boxes : list Box;
  passes : list (nat * string);
  errors : list Exception;
}.

Definition delay : nat := 300.

(** [clearTimeout(h)]: no effect for [undefined] or a handle that is
    no longer pending. *)
Definition clearTimeout (h : option nat) (q : list Timer) : list Timer :=
  match h with
  | None => q
  | Some id => List.filter (λ t, negb (timer_id t =? id)%nat) q
  end.

(** [initializeSearch]: one closure per search input. *)
Definition initializeSearch (inputs : list SearchInput) : Loop :=
  mkLoop 0 1 [] (map (λ inp, mkBox inp None) inputs) [] [].

(** The 'input' listener of search input [i]. *)
Definition on_input (i : nat) (s : Loop) : Loop :=
  match boxes s !! i with
  | None => s
  | Some b =>
      let q := clearTimeout (searchTimeout b) (pending s) in
      let id := next_id s in
      mkLoop (now s) (S id)
             (q ++ [mkTimer id (now s + delay) i])
             (<[i := mkBox (input b) (Some id)]> (boxes s))
             (passes s) (errors s)
  end.

(** The timer callback [() => performSearch(input)]. *)
Definition fire (t : Timer) (s : Loop) : Loop :=
  match boxes s !! owner t with
  | None => s
  | Some b =>
      let log := (passes s ++ [(owner t, value (input b))])%list in
      match performSearch (input b) with
      | Normal inp' =>
          mkLoop (now s) (next_id s) (pending s)
                 (<[owner t := mkBox inp' (searchTimeout b)]> (boxes s))
                 log (errors s)
      | Throw e =>
          mkLoop (now s) (next_id s) (pending s) (boxes s) log
                 (errors s ++ [e])
      end
  end.

Definition is_due (time : nat) (t : Timer) : bool := (due t <=? time)%nat.

(** [Input i v] is typing, and also the clear button and the Escape
    shortcut, which set the value to the empty string and dispatch
    'input'. *)
Inductive SearchEvent : Type :=
  | Input (i : nat) (v : string)   (* the value becomes [v], 'input' fires *)
  | Elapse (d : nat).              (* [d] time units pass *)

(** Every timer has the same delay, so [pending], kept in creation
    order, is in order of due time: due timers fire front to back. *)
Definition step (s : Loop) (e : SearchEvent) : Loop :=
  match e with
  | Input i v =>
      match boxes s !! i with
      | None => s
      | Some b =>
          on_input i
            (mkLoop (now s) (next_id s) (pending s)
               (<[i := mkBox (mkSearchInput v (container (input b))
                                (search_count (input b)))
                             (searchTimeout b)]> (boxes s))
               (passes s) (errors s))
      end
  | Elapse d =>
      let time := now s + d in
      foldl (λ s' t, fire t s')
        (mkLoop time (next_id s)
           (List.filter (λ t, negb (is_due time t)) (pending s))
           (boxes s) (passes s) (errors s))
        (List.filter (is_due time) (pending s))
  end.

Definition run (s : Loop) (es : list SearchEvent) : Loop := foldl step s es.

(** The calls of [performSearch] for input [i]. *)
Definition passes_of (i : nat) (s : Loop) : list string :=
  map snd (List.filter (λ p, (fst p =? i)%nat) (passes s)).

Definition pending_of (i : nat) (s : Loop) : list Timer :=
  List.filter (λ t, (owner t =? i)%nat) (pending s).

(** The input after its timer callback. *)
Definition after_pass (inp : SearchInput) : SearchInput :=
  match performSearch inp with
  | Normal inp' => inp'
  | Throw _ => inp
  end.

(** The number of changes of input [i] among the events. *)
Definition count_changes (i : nat) (es : list SearchEvent) : nat :=
  length (List.filter (λ e, match e with
                            | Input k _ => (k =? i)%nat
                            | Elapse _ => false
                            end) es).

(** The handle each closure holds, and the text of each input. *)
Definition held (s : Loop) : list (option nat) := map searchTimeout (boxes s).

Definition values (s : Loop) : list string :=
  map (λ b, value (input b)) (boxes s).

(** What [initializeSearch] establishes and every event keeps: handles
    of pending timers are below [next_id] and pairwise distinct, the
    handle of a pending timer is held by its owner and by no other
    closure, and every held handle is below [next_id]. *)
Definition Inv (s : Loop) : Prop :=
  (∀ t, t ∈ pending s → timer_id t < next_id s)
  ∧ (∀ t k, t ∈ pending s →
       held s !! k = Some (Some (timer_id t)) ↔ k = owner t)
  ∧ NoDup (map timer_id (pending s))
  ∧ (∀ k id, held s !! k = Some (Some id) → id < next_id s).

(** Input [i] shows [v] and was last changed [since] time units ago,
    less than the delay; its one timer is pending and due at the end of
    the delay. *)
Definition Armed (i : nat) (v : string) (since : nat) (s : Loop) : Prop :=
  Inv s
  ∧ values s !! i = Some v
  ∧ (∃ t, pending_of i s = [t] ∧ due t + since = now s + delay)
  ∧ since < delay.


End Search.

(** ** Table utilities: [sortTable] and [exportTableToCSV] *)

Module Table.

(** A [tr] node: its identity and the [textContent] of its cells.
    Tables are flat: no table is nested in a cell. *)
Record Row : Type := mkRow {
  row_id : nat;
  cells : list string;
}.

(** A table: the rows of its head, and the rows of its [tbody] when
    it has one, in document order. *)
Record t : Type := mk {
  thead : list Row;
  tbody : option (list Row);
}.

(** The class [[0-9.-]] of the numeric comparator. *)
Definition numeric_char (c : ascii) : bool :=
  let n := N_of_ascii c in
  ((48 <=? n) && (n <=? 57) || (n =? 46) || (n =? 45))%N.

(** [parentNode.appendChild(row)]: a node that is already in the tree
    is moved, so it leaves its old position. *)
Definition appendChild (children : list Row) (row : Row) : list Row :=
  List.filter (λ r, negb (row_id r =? row_id row)%nat) children ++ [row].

Section Sort.

(** The two built-ins of the comparator; a JavaScript number is a
    binary64 [float]. *)
Variable parseFloat : string → float.
Variable localeCompare : string → string → float.

(** The comparator of [sortTable]; reading [textContent] of a
    missing cell throws. *)
Definition compare (columnIndex : nat) (isNumeric : bool) (a b : Row)
  : Completion float :=
  ca ← from_option Normal (Throw TypeError) (cells a !! columnIndex);
  let aVal := JsString.trim ca in
  cb ← from_option Normal (Throw TypeError) (cells b !! columnIndex);
  let bVal := JsString.trim cb in
  mret (if isNumeric
        then PrimFloat.sub
               (parseFloat (JsString.keepOnly numeric_char aVal))
               (parseFloat (JsString.keepOnly numeric_char bVal))
        else localeCompare aVal bVal).

(** [Array.prototype.sort(comparefn)]: a stable sort, here by
    insertion.  [x] goes after [y] only when [comparefn(x, y) > 0];
    NaN counts as 0.  An exception of the comparator ends the sort. *)
Fixpoint insert (comparefn : Row → Row → Completion float)
    (x : Row) (sorted : list Row) : Completion (list Row) :=
  match sorted with
  | [] => mret [x]
  | y :: sorted' =>
      v ← comparefn x y;
      if PrimFloat.ltb 0 v
      then r ← insert comparefn x sorted'; mret (y :: r)
      else mret (x :: y :: sorted')
  end.

Fixpoint array_sort (comparefn : Row → Row → Completion float)
    (l : list Row) : Completion (list Row) :=
  match l with
  | [] => mret []
  | x :: l' => s ← array_sort comparefn l'; insert comparefn x s
  end.

(** [sortTable]: the table afterwards, and how the call completed. *)
Definition sortTable (table : t) (columnIndex : nat) (isNumeric : bool)
  : t * Completion unit :=
  match tbody table with
  | None => (table, Throw TypeError)
  | Some body =>
      match array_sort (compare columnIndex isNumeric) body with
      | Throw e => (table, Throw e)
      | Normal rows =>
          (mk (thead table) (Some (foldl appendChild body rows)), Normal ())
      end
  end.

End Sort.

(** [comparefn] asks for [x] to go after [y]: it returns a number
    above zero. *)
Definition goes_after (comparefn : Row → Row → Completion float) (x y : Row)
  : bool :=
  match comparefn x y with
  | Normal v => PrimFloat.ltb 0 v
  | Throw _ => false
  end.

(** [x] may stand before [y]. *)
Definition in_order (comparefn : Row → Row → Completion float) (x y : Row)
  : Prop :=
  goes_after comparefn x y = false.

(** A consistent comparator on the rows [l], as ECMAScript asks of the
    argument of [sort]: it returns on every pair, never puts two rows
    after each other, and standing before is transitive. *)
Definition consistent (comparefn : Row → Row → Completion float) (l : list Row)
  : Prop :=
  (∀ x y, x ∈ l → y ∈ l → ∃ v, comparefn x y = Normal v)
  ∧ (∀ x y, x ∈ l → y ∈ l →
       goes_after comparefn x y = true → goes_after comparefn y x = false)
  ∧ (∀ x y z, x ∈ l → y ∈ l → z ∈ l →
       in_order comparefn x y → in_order comparefn y z →
       in_order comparefn x z).

(** The comparator treats [x] and [r] as equal. *)
Definition ties (comparefn : Row → Row → Completion float) (r x : Row) : bool :=
  negb (goes_after comparefn r x) && negb (goes_after comparefn x r).

(** A comparator for examples, shorter text first, and a body of three
    rows to sort with it. *)
Definition by_length (a b : string) : float :=
  if (String.length b <? String.length a)%nat then 1%float
  else if (String.length a <? String.length b)%nat then (-1)%float
  else 0%float.

Definition example_body : list Row :=
  [mkRow 0 ["bb"]; mkRow 1 ["a"]; mkRow 2 ["cc"]].

(** *** CSV export *)

Definition newline : string := String "010"%char EmptyString.

(** One cell of the export: escape quotes and wrap in quotes. *)
Definition csv_field (cell : string) : string :=
  let text := JsString.trim cell in
  if JsString.includes text "," || JsString.includes text JsString.dquote
  then JsString.dquote
         +:+ JsString.replaceAll text JsString.dquote_char
               (JsString.dquote +:+ JsString.dquote)
         +:+ JsString.dquote
  else text.

Definition csv_line (row_cells : list string) : string :=
  JsString.join "," (map csv_field row_cells).

(** [table.querySelectorAll('tr')] *)
Definition all_rows (table : t) : list Row :=
  thead table ++ default [] (tbody table).

Definition csvContent (table : t) : string :=
  JsString.join newline (map (λ row, csv_line (cells row)) (all_rows table)).

(** [exportTableToCSV]: the text handed to the download, [None] when
    the page has no table.  [by_id] is [document.getElementById(tableId)]
    and [first] is [document.querySelector('table')]. *)
Definition exportTableToCSV (by_id first : option t) : option string :=
  match by_id with
  | Some table => Some (csvContent table)
  | None =>
      match first with
      | Some table => Some (csvContent table)
      | None => None
      end
  end.

End Table.

(** ** A reference CSV reader

    Not part of the script: the reader of RFC 4180 that the export is
    meant for.  It reads one record from the front of its input and
    returns the fields with the rest of the input after the line
    break. *)

Module Rfc4180.

Inductive State : Type :=
  | FieldStart
  | Unquoted
  | Quoted
  | QuoteInQuoted.

Definition is_line_break (c : ascii) : bool :=
  let n := N_of_ascii c in ((n =? 10) || (n =? 13))%N.

(** The input after a line break: CR LF is one line break. *)
Definition after_line_break (c : ascii) (s : string) : string :=
  match s with
  | String c' s' =>
      if ((N_of_ascii c =? 13) && (N_of_ascii c' =? 10))%N then s' else s
  | EmptyString => s
  end.

Definition snoc (s : string) (c : ascii) : string := s +:+ String c EmptyString.

(** [None]: the input is not well formed (a quoted field is left
    open, or text follows its closing quote). *)
Fixpoint scan (st : State) (cur : string) (row : list string) (s : string)
  : option (list string * string) :=
  match s with
  | EmptyString =>
      match st with
      | Quoted => None
      | _ => Some ((row ++ [cur])%list, EmptyString)
      end
  | String c s' =>
      match st with
      | FieldStart =>
          if decide (c = JsString.dquote_char) then scan Quoted EmptyString row s'
          else if decide (c = ","%char) then scan FieldStart EmptyString (row ++ [cur])%list s'
          else if is_line_break c then Some ((row ++ [cur])%list, after_line_break c s')
          else scan Unquoted (snoc cur c) row s'
      | Unquoted =>
          if decide (c = ","%char) then scan FieldStart EmptyString (row ++ [cur])%list s'
          else if is_line_break c then Some ((row ++ [cur])%list, after_line_break c s')
          else scan Unquoted (snoc cur c) row s'
      | Quoted =>
          if decide (c = JsString.dquote_char) then scan QuoteInQuoted cur row s'
          else scan Quoted (snoc cur c) row s'
      | QuoteInQuoted =>
          if decide (c = JsString.dquote_char) then scan Quoted (snoc cur c) row s'
          else if decide (c = ","%char) then scan FieldStart EmptyString (row ++ [cur])%list s'
          else if is_line_break c then Some ((row ++ [cur])%list, after_line_break c s')
          else None
      end
  end.

Definition read_record (s : string) : option (list string * string) :=
  scan FieldStart EmptyString [] s.

(** A cell's text survives the export when it is quoted or has no
    line break. *)
Fixpoint has_line_break (s : string) : bool :=
  match s with
  | EmptyString => false
  | String c s' => is_line_break c || has_line_break s'
  end.

(** Reading record after record to the end of the text; [fuel] bounds
    the number of records. *)
Fixpoint read_records (fuel : nat) (s : string) : option (list (list string)) :=
  match fuel with
  | 0 => None
  | S n =>
      match read_record s with
      | None => None
      | Some (fields, EmptyString) => Some [fields]
      | Some (fields, rest) =>
          match read_records n rest with
          | Some records => Some (fields :: records)
          | None => None
          end
      end
  end.

(** A text of [n] characters has at most [n + 1] records. *)
Definition read_all (s : string) : option (list (list string)) :=
  read_records (S (String.length s)) s.

(** What the reader does at the end of a field: at the end of the
    input, at a comma, or at a line feed. *)
Definition finish (cur : string) (row : list string) (rest : string)
  : option (list string * string) :=
  match rest with
  | EmptyString => Some ((row ++ [cur])%list, EmptyString)
  | String c r =>
      if decide (c = ","%char) then scan FieldStart EmptyString (row ++ [cur])%list r
      else Some ((row ++ [cur])%list, r)
  end.

(** A field ends here: nothing is left, or a comma or a line feed
    comes next. *)
Definition delimited (rest : string) : Prop :=
  rest = EmptyString
  ∨ (∃ r, rest = String ","%char r)
  ∨ (∃ r, rest = String "010"%char r).

(** The cell text is exported in a form the reader takes back: it is
    quoted, or it has no line break. *)
Definition csv_safe (text : string) : bool :=
  JsString.includes text ","
  || JsString.includes text JsString.dquote
  || negb (has_line_break text).

(** A row that the export writes as a line the reader takes back: the
    line is not empty (the row has a cell, and is not one cell whose
    trimmed text is empty) and its cells are safe. *)
Definition row_ok (row_cells : list string) : Prop :=
  Table.csv_line row_cells ≠ EmptyString
  ∧ Forall (λ c, csv_safe (JsString.trim c) = true) row_cells.

(** The cell of the example: the word say, then hi in double quotes. *)
Definition say_hi : string :=
  "say " +:+ JsString.dquote +:+ "hi" +:+ JsString.dquote.

End Rfc4180.

(** * Properties *)

(** ** Strings *)

Section StringFacts.
Import JsString.

Lemma string_app_cons (c : ascii) (a b : string) :
  String c a +:+ b = String c (a +:+ b).
Proof. reflexivity. Qed.

Lemma string_app_nil_l (a : string) : "" +:+ a = a.
Proof. reflexivity. Qed.

Lemma string_app_assoc (a b c : string) : (a +:+ b) +:+ c = a +:+ (b +:+ c).
Proof.
  induction a as [|x a IH]; [done|].
  by rewrite !string_app_cons, IH.
Qed.

Lemma string_app_nil_r (a : string) : a +:+ "" = a.
Proof.
  induction a as [|x a IH]; [done|].
  by rewrite string_app_cons, IH.
Qed.

Lemma startsWith_spec (s t : string) :
  startsWith s t = true ↔ ∃ post, s = t +:+ post.
Proof.
  revert s. induction t as [|b t IH]; intros s; simpl.
  - split; [intros _; by exists s | done].
  - destruct s as [|a s].
    + split; [done | intros [post H]; discriminate].
    + case_decide as Hab.
      * subst b. rewrite IH. split; intros [post H]; exists post.
        -- by rewrite string_app_cons, H.
        -- rewrite string_app_cons in H. by injection H.
      * split; [done|].
        intros [post H]. rewrite string_app_cons in H. injection H. congruence.
Qed.

Lemma includes_spec (s t : string) :
  includes s t = true ↔ is_substring t s.
Proof.
  unfold is_substring. induction s as [|a s IH]; simpl.
  - rewrite orb_false_r, startsWith_spec. split.
    + intros [post H]. by exists "", post.
    + intros ([|x pre] & post & H); [by exists post | discriminate].
  - rewrite orb_true_iff, startsWith_spec, IH. split.
    + intros [[post H] | (pre & post & H)].
      * by exists "", post.
      * exists (String a pre), post. by rewrite string_app_cons, H.
    + intros ([|x pre] & post & H).
      * left. by exists post.
      * right. exists pre, post. rewrite string_app_cons in H. by injection H.
Qed.

Lemma is_space_lower_char (c : ascii) : is_space (lower_char c) = is_space c.
Proof.
  destruct c as [b0 b1 b2 b3 b4 b5 b6 b7].
  destruct b0, b1, b2, b3, b4, b5, b6, b7; reflexivity.
Qed.

Lemma all_space_toLowerCase (s : string) :
  all_space (toLowerCase s) = all_space s.
Proof.
  induction s as [|c s IH]; simpl; [done|].
  by rewrite is_space_lower_char, IH.
Qed.

Lemma trimStart_all_space (s : string) :
  all_space (trimStart s) = all_space s.
Proof.
  induction s as [|c s IH]; simpl; [done|].
  destruct (is_space c) eqn:Hc; simpl; [done | by rewrite Hc].
Qed.

Lemma trimEnd_empty (s : string) : trimEnd s = "" ↔ all_space s = true.
Proof.
  induction s as [|c s IH]; simpl; [done|].
  destruct (trimEnd s) eqn:Hs.
  - destruct (is_space c); simpl; [tauto|].
    split; [discriminate | done].
  - split; [discriminate|].
    intros [_ H]%andb_true_iff. apply IH in H. discriminate.
Qed.

Lemma trim_empty (s : string) : trim s = "" ↔ all_space s = true.
Proof. unfold trim. by rewrite trimEnd_empty, trimStart_all_space. Qed.

Lemma truthy_false (s : string) : truthy s = false ↔ s = "".
Proof. destruct s; simpl; split; (done || discriminate). Qed.

Lemma truthy_true (s : string) : truthy s = true ↔ s ≠ "".
Proof. destruct s; simpl; split; (done || discriminate). Qed.

(** Case folding does not change whether the trimmed text is empty. *)
Lemma trim_toLowerCase_empty (s : string) :
  trim (toLowerCase s) = "" ↔ trim s = "".
Proof. by rewrite !trim_empty, all_space_toLowerCase. Qed.

End StringFacts.

(** ** The filter pass *)

Section FilterPass.
Import JsString Search.

Lemma searchable_nonempty (elements : list Element) (k : nat) (e : Element) :
  elements !! k = Some e → data_searchable e = true →
  (length (searchable_of elements) =? 0)%nat = false.
Proof.
  intros Hk He. apply Nat.eqb_neq. intros Hlen.
  apply length_zero_iff_nil in Hlen.
  assert (In e (searchable_of elements)) as Hin.
  { apply filter_In. split; [|done].
    apply list_elem_of_In, list_elem_of_lookup. by exists k. }
  rewrite Hlen in Hin. destruct Hin.
Qed.

Lemma visible_iff (term text : string) :
  negb (truthy term) || includes text term = true
  ↔ term = "" ∨ is_substring term text.
Proof.
  rewrite orb_true_iff, negb_true_iff, truthy_false, includes_spec. tauto.
Qed.

(** C3. A filter pass over an input with a container.  For every
    searchable element of the container: afterwards the element is
    visible exactly when the trimmed, lower-cased term is empty or occurs
    in the element's lower-cased text; and the status line is hidden when
    the term is empty, and otherwise shows the number of visible
    searchable elements out of their total.  Elements that are not
    searchable are left alone. *)
Theorem filter_pass_correct (inp : SearchInput) (elements : list Element) :
  container inp = Some elements →
  ∃ inp' elements',
    performSearch inp = Normal inp'
    ∧ value inp' = value inp
    ∧ container inp' = Some elements'
    ∧ length elements' = length elements
    ∧ (∀ k e, elements !! k = Some e → data_searchable e = true →
         (∃ e', elements' !! k = Some e'
            ∧ data_searchable e' = true
            ∧ textContent e' = textContent e
            ∧ (shown e' = true ↔
                 term_of inp = ""
                 ∨ is_substring (term_of inp) (toLowerCase (textContent e))))
         ∧ (∃ c, search_count inp' = Some c
              ∧ (term_of inp = "" → count_display c = "none")
              ∧ (term_of inp ≠ "" →
                   count_display c = "block"
                   ∧ count_text c =
                       status_text
                         (length (List.filter shown (searchable_of elements')))
                         (length (searchable_of elements)))))
    ∧ (∀ k e, elements !! k = Some e → data_searchable e = false →
         elements' !! k = Some e).
Proof.
  intros Hc. unfold performSearch. rewrite Hc.
  fold (searchable_of elements) (term_of inp).
  destruct (length (searchable_of elements) =? 0)%nat eqn:Hlen.
  - exists inp, elements. repeat split; try done;
      by rewrite (searchable_nonempty elements k e) in Hlen.
  - eexists _, _. split; [reflexivity|]. simpl.
    split; [done|]. split; [done|]. split; [by rewrite length_map|].
    split.
    + intros k e Hk He. split.
      * rewrite list_lookup_fmap, Hk. simpl. rewrite He.
        eexists. split; [reflexivity|]. repeat split; try done.
        -- intros Hs. apply visible_iff.
           destruct (negb (truthy (term_of inp))
                     || includes (toLowerCase (textContent e)) (term_of inp));
             [done | discriminate Hs].
        -- intros Hv. apply visible_iff in Hv. by rewrite Hv.
      * eexists. split; [reflexivity|]. split.
        -- intros Ht. unfold term_of in Ht.
           apply (proj1 (trim_toLowerCase_empty _)) in Ht. by rewrite Ht.
        -- intros Ht.
           assert (truthy (trim (value inp)) = true) as ->.
           { apply truthy_true. intros Hv. apply Ht.
             unfold term_of. by apply (proj2 (trim_toLowerCase_empty _)). }
           done.
    + intros k e Hk He. rewrite list_lookup_fmap, Hk. simpl. by rewrite He.
Qed.

(** C3, applied to a page with three elements. *)
Lemma filter_pass_correct_witness :
  ∃ inp' elements',
    performSearch
      (mkSearchInput " Ab "
         (Some [mkElement true "xxABcd" ""; mkElement false "zz" "";
                mkElement true "nope" ""]) None) = Normal inp'
    ∧ container inp' = Some elements'
    ∧ search_count inp'
      = Some (mkCountElement "Showing 1 of 2 results" "block").
Proof.
  destruct (filter_pass_correct
              (mkSearchInput " Ab "
                 (Some [mkElement true "xxABcd" ""; mkElement false "zz" "";
                        mkElement true "nope" ""]) None)
              [mkElement true "xxABcd" ""; mkElement false "zz" "";
               mkElement true "nope" ""] eq_refl)
    as (inp' & elements' & Hrun & _ & Hcont & _).
  exists inp', elements'. split; [exact Hrun|]. split; [exact Hcont|].
  vm_compute in Hrun. injection Hrun as <-. reflexivity.
Defined.

End FilterPass.

(** ** forEach with a callback that may throw *)

Section ForEachFacts.
Import Page.

Context {A : Type} (callback : A → A * Completion unit).

Lemma forEach_length (l : list A) :
  length (forEach callback l).1 = length l.
Proof.
  induction l as [|x l IH]; simpl; [done|].
  destruct (callback x) as [x' [u|e]]; simpl; by rewrite ?IH.
Qed.

(** When [forEach] returns, the callback has returned on every
    element, and every element is as the callback leaves it. *)
Lemma forEach_Normal (l : list A) :
  (forEach callback l).2 = Normal () →
  (forEach callback l).1 = map (λ x, (callback x).1) l
  ∧ Forall (λ x, (callback x).2 = Normal ()) l.
Proof.
  induction l as [|x l IH]; simpl; [done|].
  destruct (callback x) as [x' [u|e]] eqn:Hx; simpl; [|done].
  intros Hr. destruct (IH Hr) as [Heq Hall]. rewrite Heq. split; [done|].
  constructor; [rewrite Hx; by destruct u | done].
Qed.


(** Whether or not it returns, [forEach] leaves each element as it
    was or as the callback leaves it. *)
Lemma forEach_lookup (l : list A) (k : nat) (x : A) :
  l !! k = Some x →
  (forEach callback l).1 !! k = Some x
  ∨ (forEach callback l).1 !! k = Some (callback x).1.
Proof.
  revert k. induction l as [|y l IH]; intros k; [done|]. simpl.
  destruct (callback y) as [y' [u|e]] eqn:Hy; simpl.
  - destruct k as [|k]; simpl.
    + intros [= ->]. right. by rewrite Hy.
    + apply IH.
  - destruct k as [|k]; simpl.
    + intros [= ->]. right. by rewrite Hy.
    + intros Hx. by left.
Qed.

End ForEachFacts.

(** ** Autosave: restore on load *)

Section RestoreFacts.
Import JsString Page.

(** What the four kinds of control make of a value they are assigned. *)
Lemma assign_by_kind_of_control (constraint : string → bool) :
  assign (text_input constraint) ("AB" +:+ String "010"%char "-123")
  = Normal "AB-123"
  ∧ assign (number_input constraint) "12.5" = Normal "12.5"
  ∧ assign (number_input constraint) "-.5e+3" = Normal "-.5e+3"
  ∧ assign (number_input constraint) "abc" = Normal ""
  ∧ assign (number_input constraint) "12." = Normal ""
  ∧ assign (select_one ["audi"; "bmw"] constraint) "bmw" = Normal "bmw"
  ∧ assign (select_one ["audi"; "bmw"] constraint) "opel" = Normal ""
  ∧ assign (file_input constraint) "C:\fakepath\scan.pdf"
    = Throw InvalidStateError
  ∧ assign (file_input constraint) "" = Normal "".
Proof. repeat split. Qed.

(** What the restore of a field leaves alone. *)
Lemma restore_frame (st : Storage.t) (f f' : Field) :
  restore st f = Normal f' →
  name f' = name f ∧ control f' = control f
  ∧ validity_class f' = validity_class f
  ∧ blur_listeners f' = blur_listeners f
  ∧ input_listeners f' = input_listeners f.
Proof.
  unfold restore. destruct (Storage.getItem st (autosave_key f)) as [saved|].
  - destruct (truthy saved && negb (truthy (value f))).
    + destruct (assign (control f) saved) as [v|e]; simpl; [|done].
      by intros [= <-].
    + by intros [= <-].
  - by intros [= <-].
Qed.

(** The guard [savedValue && !input.value]: the setter of the control
    is called exactly when a non-empty value is stored and the field is
    empty, and the field then holds what the setter returns. *)
Lemma restore_value (st : Storage.t) (f f' : Field) :
  restore st f = Normal f' →
  match Storage.getItem st (autosave_key f) with
  | Some saved =>
      if decide (value f = "" ∧ saved ≠ "")
      then assign (control f) saved = Normal (value f')
      else value f' = value f
  | None => value f' = value f
  end.
Proof.
  unfold restore. destruct (Storage.getItem st (autosave_key f)) as [saved|].
  - case_decide as Hg.
    + destruct Hg as [Hv Hs]. apply truthy_true in Hs. apply truthy_false in Hv.
      rewrite Hs, Hv. simpl.
      destruct (assign (control f) saved) as [v|e]; simpl; [|done].
      by intros [= <-].
    + assert (truthy saved && negb (truthy (value f)) = false) as ->.
      { apply andb_false_iff.
        destruct (decide (saved = "")) as [->|Hs]; [by left|]. right.
        apply negb_false_iff, truthy_true. intros Hv. by apply Hg. }
      by intros [= <-].
  - by intros [= <-].
Qed.

(** A field that is not empty is returned as it is. *)
Lemma restore_nonempty (st : Storage.t) (f : Field) :
  value f ≠ "" → restore st f = Normal f.
Proof.
  intros Hv%truthy_true. unfold restore.
  destruct (Storage.getItem st (autosave_key f)) as [saved|]; [|done].
  by rewrite Hv, andb_false_r.
Qed.


(** The field after the callback of [inputs.forEach]. *)
Lemma autosave_input_frame (st : Storage.t) (f : Field) :
  name (autosave_input st f).1 = name f
  ∧ control (autosave_input st f).1 = control f
  ∧ validity_class (autosave_input st f).1 = validity_class f
  ∧ blur_listeners (autosave_input st f).1 = blur_listeners f
  ∧ (value f ≠ "" → value (autosave_input st f).1 = value f).
Proof.
  unfold autosave_input. destruct (restore st f) as [f'|e] eqn:Hr; simpl.
  - destruct (restore_frame st f f' Hr) as (Hn & Hc & Hv & Hb & _).
    repeat split; try done.
    intros Hne. rewrite (restore_nonempty st f Hne) in Hr. by injection Hr as <-.
  - done.
Qed.

Lemma autosave_input_Normal (st : Storage.t) (f : Field) :
  (autosave_input st f).2 = Normal () →
  ∃ f', restore st f = Normal f'
    ∧ (autosave_input st f).1 = add_input_listener AutosavePersist f'.
Proof.
  unfold autosave_input. destruct (restore st f) as [f'|e]; simpl; [|done].
  intros _. by exists f'.
Qed.

Lemma autosave_form_inputs (st : Storage.t) (fm : Form) :
  data_autosave fm = true →
  inputs (autosave_form st fm).1 = (forEach (autosave_input st) (inputs fm)).1.
Proof.
  intros Ha. unfold autosave_form. rewrite Ha.
  by destruct (forEach (autosave_input st) (inputs fm)) as [fs [u|e]].
Qed.

Lemma autosave_form_Normal (st : Storage.t) (fm : Form) :
  data_autosave fm = true →
  (autosave_form st fm).2 = Normal () →
  (forEach (autosave_input st) (inputs fm)).2 = Normal ()
  ∧ (autosave_form st fm).1
    = add_submit_listener AutosaveClear
        (set_inputs (forEach (autosave_input st) (inputs fm)).1 fm).
Proof.
  intros Ha. unfold autosave_form. rewrite Ha.
  destruct (forEach (autosave_input st) (inputs fm)) as [fs [u|e]]; simpl;
    [|done].
  by destruct u.
Qed.

(** A field of an autosave form after [initializeAutoSave], whether or
    not it ran to its end: the field as it was, or as the callback left
    it. *)
Lemma initializeAutoSave_field (w : Window) (i j : nat) (fm : Form) (f : Field) :
  forms w !! i = Some fm → data_autosave fm = true → inputs fm !! j = Some f →
  get_field (initializeAutoSave w).1 i j = Some f
  ∨ get_field (initializeAutoSave w).1 i j
    = Some (autosave_input (localStorage w) f).1.
Proof.
  intros Hfm Ha Hf. unfold get_field, initializeAutoSave. simpl.
  destruct (forEach_lookup (autosave_form (localStorage w)) (forms w) i fm Hfm)
    as [-> | ->]; simpl.
  - by left.
  - rewrite (autosave_form_inputs _ fm Ha).
    apply (forEach_lookup (autosave_input (localStorage w))). done.
Qed.

(** When it ran to its end, every field of an autosave form has been
    restored and carries the persisting listener. *)
Lemma initializeAutoSave_field_Normal (w : Window) (i j : nat) (fm : Form)
    (f : Field) :
  (initializeAutoSave w).2 = Normal () →
  forms w !! i = Some fm → data_autosave fm = true → inputs fm !! j = Some f →
  ∃ f', restore (localStorage w) f = Normal f'
    ∧ get_field (initializeAutoSave w).1 i j
      = Some (add_input_listener AutosavePersist f').
Proof.
  intros Hr Hfm Ha Hf. unfold initializeAutoSave in *. simpl in *.
  destruct (forEach_Normal _ _ Hr) as [Hforms Hall].
  assert ((autosave_form (localStorage w) fm).2 = Normal ()) as Hfmr.
  { rewrite Forall_forall in Hall. apply Hall. by eapply list_elem_of_lookup_2. }
  destruct (autosave_form_Normal _ fm Ha Hfmr) as [Hir Hfm1].
  destruct (forEach_Normal _ _ Hir) as [Hinputs Hiall].
  assert ((autosave_input (localStorage w) f).2 = Normal ()) as Hfr.
  { rewrite Forall_forall in Hiall. apply Hiall. by eapply list_elem_of_lookup_2. }
  destruct (autosave_input_Normal _ f Hfr) as (f' & Hres & Hf1).
  exists f'. split; [done|].
  unfold get_field. simpl. rewrite Hforms, list_lookup_fmap, Hfm. simpl.
  rewrite Hfm1. simpl. rewrite Hinputs, list_lookup_fmap, Hf. simpl.
  by rewrite Hf1.
Qed.

(** C1 as stated fails.  A select that has no option with the stored
    value holds the empty string after the restore, not the stored
    value; and a file input with a stored value makes the restore
    throw, so that the empty field after it is not restored at all. *)
Lemma restore_on_load_counterexample :
  (∃ f',
     get_field
       (initializeAutoSave
          (mkWindow
             [mkForm true []
                [mkField "make" "" (select_one ["audi"; "bmw"] (λ _, true))
                   None [] []]
                None false []]
             (Storage.mk {["autosave_make" := "opel"]} 100) None [] [])).1
       0 0 = Some f'
     ∧ value f' = "")
  ∧ (∃ f',
       get_field
         (initializeAutoSave
            (mkWindow
               [mkForm true []
                  [mkField "scan" "" (file_input (λ _, true)) None [] [];
                   mkField "email" "" (text_input (λ _, true)) None [] []]
                  None false []]
               (Storage.mk
                  (<["autosave_scan" := "C:\fakepath\scan.pdf"]>
                     {["autosave_email" := "a@b"]}) 100) None [] [])).1
         0 1 = Some f'
       ∧ value f' = "").
Proof.
  split; eexists; (split; [vm_compute; reflexivity | reflexivity]).
Qed.

(** C1, amended.  After the restore step of [initializeAutoSave], a
    field of an autosave form that was not empty has its value, whether
    or not the step ran to its end.  When it ran to its end, a field
    that was empty and has a non-empty value stored under
    [autosave_<name>] has been assigned that value and holds what the
    setter of its control returned for it; every other field has its
    own value. *)
Theorem restore_on_load (w : Window) (i j : nat) (fm : Form) (f : Field) :
  forms w !! i = Some fm → data_autosave fm = true → inputs fm !! j = Some f →
  ∃ f', get_field (initializeAutoSave w).1 i j = Some f'
    ∧ name f' = name f
    ∧ (value f ≠ "" → value f' = value f)
    ∧ ((initializeAutoSave w).2 = Normal () →
       match Storage.getItem (localStorage w) ("autosave_" +:+ name f) with
       | Some saved =>
           if decide (value f = "" ∧ saved ≠ "")
           then assign (control f) saved = Normal (value f')
           else value f' = value f
       | None => value f' = value f
       end).
Proof.
  intros Hfm Ha Hf.
  destruct (autosave_input_frame (localStorage w) f) as (Hn & _ & _ & _ & Hv).
  assert (∀ f', get_field (initializeAutoSave w).1 i j = Some f' →
                (initializeAutoSave w).2 = Normal () →
                match Storage.getItem (localStorage w) ("autosave_" +:+ name f) with
                | Some saved =>
                    if decide (value f = "" ∧ saved ≠ "")
                    then assign (control f) saved = Normal (value f')
                    else value f' = value f
                | None => value f' = value f
                end) as Hdone.
  { intros f' Hget Hr.
    destruct (initializeAutoSave_field_Normal w i j fm f Hr Hfm Ha Hf)
      as (f0 & Hres & Hget0).
    rewrite Hget0 in Hget. injection Hget as <-.
    apply (restore_value (localStorage w) f f0 Hres). }
  destruct (initializeAutoSave_field w i j fm f Hfm Ha Hf) as [Hget | Hget].
  - exists f. repeat split; try done. by apply Hdone.
  - eexists. split; [exact Hget|]. repeat split; try done. by apply Hdone.
Qed.

(** C1 amended, on a page with one autosave form of text inputs: the
    empty field is restored, the stored text is what it holds. *)
Lemma restore_on_load_witness :
  ∃ f', get_field
          (initializeAutoSave
             (mkWindow
                [mkForm true []
                   [mkField "email" "" (text_input (λ _, true)) None [] [];
                    mkField "plate" "AB-123" (text_input (λ _, true)) None [] []]
                   None false []]
                (Storage.mk {["autosave_email" := "a@b"]} 100) None [] [])).1
          0 0 = Some f'
    ∧ value f' = "a@b".
Proof.
  destruct (restore_on_load
              (mkWindow
                 [mkForm true []
                    [mkField "email" "" (text_input (λ _, true)) None [] [];
                     mkField "plate" "AB-123" (text_input (λ _, true)) None [] []]
                    None false []]
                 (Storage.mk {["autosave_email" := "a@b"]} 100) None [] [])
              0 0 _ _ eq_refl eq_refl eq_refl)
    as (f' & Hget & _ & _ & Hval).
  exists f'. split; [exact Hget|].
  assert (Normal "a@b" = Normal (value f')) as Heq
    by (apply Hval; vm_compute; reflexivity).
  by injection Heq.
Defined.

End RestoreFacts.

(** ** What events leave alone: names and listeners *)

Section PageInvariant.
Import Page.

Lemma fmap_alter_same {A B : Type} (h : A → B) (g : A → A) (i : nat) (l : list A) :
  (∀ x, h (g x) = h x) → h <$> alter g i l = h <$> l.
Proof.
  intros Hg. apply list_eq. intros k.
  rewrite !list_lookup_fmap, list_lookup_alter.
  case_decide as Hik; [|done].
  subst k. destruct (l !! i); simpl; [by rewrite Hg | done].
Qed.

Lemma shape_update_form (i : nat) (g : Form → Form) (w : Window) :
  (∀ fm, form_shape (g fm) = form_shape fm) →
  shape (update_form i g w) = shape w.
Proof. intros Hg. unfold shape, update_form. simpl. by apply fmap_alter_same. Qed.

Lemma shape_update_field (i j : nat) (g : Field → Field) (w : Window) :
  (∀ f, field_shape (g f) = field_shape f) →
  shape (update_field i j g w) = shape w.
Proof.
  intros Hg. apply shape_update_form. intros fm. unfold form_shape. simpl.
  f_equal. f_equal. by apply fmap_alter_same.
Qed.

Lemma field_shape_validateField (f : Field) :
  field_shape (validateField f) = field_shape f.
Proof. unfold validateField. by destruct (constraint (control f) (value f)). Qed.

Lemma shape_validate_on_input (i j : nat) (w : Window) :
  shape (validate_on_input i j w) = shape w.
Proof.
  unfold validate_on_input. destruct (forms w !! i) as [fm|]; [|done].
  destruct (was_validated fm); [|done].
  apply shape_update_field, field_shape_validateField.
Qed.

Lemma shape_validate_on_blur (i j : nat) (w : Window) :
  shape (validate_on_blur i j w) = shape w.
Proof.
  unfold validate_on_blur. destruct (forms w !! i) as [fm|]; [|done].
  destruct (was_validated fm); [|done].
  apply shape_update_field, field_shape_validateField.
Qed.

Lemma shape_dispatch_blur (n : option Node) (w : Window) :
  shape (dispatch_blur n w) = shape w.
Proof.
  destruct n as [[i j|i k]|]; simpl; [|done..].
  destruct (get_field w i j) as [f|]; [|done].
  generalize (blur_listeners f). intros ls. revert w.
  induction ls as [|l ls IH]; intros w; simpl; [done|].
  rewrite IH. destruct l. apply shape_validate_on_blur.
Qed.

Lemma shape_focus (n : Node) (w : Window) : shape (focus n w) = shape w.
Proof.
  unfold focus.
  destruct (can_focus n w && negb (bool_decide (activeElement w = Some n)));
    [|done].
  apply (shape_dispatch_blur (activeElement w) w).
Qed.

Lemma shape_blur (w : Window) : shape (blur w) = shape w.
Proof. apply (shape_dispatch_blur (activeElement w) w). Qed.

Lemma shape_run_input_listener (l : InputListener) (i j : nat) (w w' : Window) :
  run_input_listener l i j w = Normal w' → shape w' = shape w.
Proof.
  destruct l; simpl.
  - intros [= <-]. apply shape_validate_on_input.
  - unfold autosave_persist. destruct (get_field w i j) as [f|].
    + destruct (Storage.setItem (localStorage w) (autosave_key f) (value f));
        simpl; [by intros [= <-] | done].
    + by intros [= <-].
Qed.

Lemma shape_dispatch_input (ls : list InputListener) (i j : nat) (w : Window) :
  shape (dispatch_input ls i j w) = shape w.
Proof.
  revert w. induction ls as [|l ls IH]; intros w; simpl; [done|].
  rewrite IH. destruct (run_input_listener l i j w) eqn:Hrun; [|done].
  by apply shape_run_input_listener in Hrun.
Qed.

Lemma shape_user_input (i j : nat) (v : string) (w : Window) :
  shape (user_input i j v w) = shape w.
Proof.
  unfold user_input. destruct (get_field w i j); [|done].
  rewrite shape_dispatch_input. by apply shape_update_field.
Qed.

Lemma shape_validate_on_submit (i : nat) (ev : Event) (w : Window) :
  shape (validate_on_submit i ev w).2 = shape w.
Proof.
  unfold validate_on_submit. destruct (forms w !! i) as [fm|]; [|done].
  destruct (negb (checkValidity fm)); simpl.
  - rewrite shape_update_form; [|done].
    destruct (querySelector_invalid i fm); [apply shape_focus | done].
  - rewrite shape_update_form; [|done].
    destruct (submit_button fm); [|done].
    unfold shape. simpl. by apply (shape_update_form i _ w).
Qed.

Lemma shape_autosave_clear (i : nat) (w : Window) :
  shape (autosave_clear i w) = shape w.
Proof. unfold autosave_clear. by destruct (forms w !! i). Qed.

Lemma shape_dispatch_submit (ls : list SubmitListener) (i : nat)
    (ev : Event) (w : Window) :
  shape (dispatch_submit ls i ev w).2 = shape w.
Proof.
  revert ev w. induction ls as [|l ls IH]; intros ev w; simpl; [done|].
  destruct (run_submit_listener l i ev w) as [ev' w'] eqn:Hrun.
  assert (shape w' = shape w) as Hw'.
  { destruct l; simpl in Hrun.
    - rewrite <- (shape_validate_on_submit i ev w). by rewrite Hrun.
    - injection Hrun as _ <-. apply shape_autosave_clear. }
  destruct (immediatePropagationStopped ev'); simpl; [done|].
  by rewrite IH.
Qed.

Lemma shape_page_step (w : Window) (e : PageEvent) :
  shape (page_step w e) = shape w.
Proof.
  destruct e as [i j v|i|n|]; simpl.
  - apply shape_user_input.
  - unfold fire_submit. destruct (forms w !! i); [|done].
    apply shape_dispatch_submit.
  - apply shape_focus.
  - apply shape_blur.
Qed.

Lemma shape_page_run (w : Window) (es : list PageEvent) :
  shape (page_run w es) = shape w.
Proof.
  revert w. induction es as [|e es IH]; intros w; simpl; [done|].
  unfold page_run in IH. by rewrite IH, shape_page_step.
Qed.

(** Two forms of the same shape have fields of the same shape. *)
Lemma shape_lookup (w w' : Window) (i : nat) (fm : Form) :
  shape w' = shape w → forms w !! i = Some fm →
  ∃ fm', forms w' !! i = Some fm' ∧ form_shape fm' = form_shape fm.
Proof.
  intros Hs Hfm. apply (f_equal (λ l, l !! i)) in Hs. unfold shape in Hs.
  rewrite !list_lookup_fmap, Hfm in Hs. simpl in Hs.
  destruct (forms w' !! i) as [fm'|]; [|discriminate].
  exists fm'. split; [done|]. simpl in Hs. by apply (inj Some) in Hs.
Qed.

Lemma form_shape_lookup (fm fm' : Form) (j : nat) (f : Field) :
  form_shape fm' = form_shape fm → inputs fm !! j = Some f →
  ∃ f', inputs fm' !! j = Some f' ∧ field_shape f' = field_shape f.
Proof.
  intros Hs Hf. injection Hs as _ Hfields _.
  apply (f_equal (λ l, l !! j)) in Hfields.
  rewrite !list_lookup_fmap, Hf in Hfields. simpl in Hfields.
  destruct (inputs fm' !! j) as [f'|]; [|discriminate].
  exists f'. split; [done|]. simpl in Hfields. by apply (inj Some) in Hfields.
Qed.

Lemma wired_form_shape (fm fm' : Form) :
  form_shape fm' = form_shape fm → wired fm → wired fm'.
Proof.
  intros Hs [Hsub Hfields].
  pose proof Hs as Hs'. injection Hs' as Ha _ Hls.
  split; [by rewrite Ha, Hls|].
  intros j f' Hf'.
  destruct (form_shape_lookup fm' fm j f' (eq_sym Hs) Hf') as (f & Hf & Hfs).
  injection Hfs as _ Hb Hi. destruct (Hfields j f Hf) as [Hbl Hil].
  rewrite Ha. split; congruence.
Qed.

(** *** The forms of a loaded page *)

Lemma forms_load (document : list FormMarkup) (st : Storage.t) :
  forms (load document st) = forms (initializeApp (render document st)).1.
Proof. unfold load. by destruct (initializeApp (render document st)).2. Qed.

Lemma localStorage_load (document : list FormMarkup) (st : Storage.t) :
  localStorage (load document st) = st.
Proof.
  unfold load, initializeApp, initializeAutoSave. simpl.
  by destruct (forEach _ _).2.
Qed.

Lemma load_initialized (document : list FormMarkup) (st : Storage.t) :
  initialized document st →
  load document st = (initializeApp (render document st)).1.
Proof. unfold initialized, load. by intros ->. Qed.

(** The form [i] of the page as [initializeFormValidation] leaves it. *)
Lemma forms_initializeFormValidation (document : list FormMarkup)
    (st : Storage.t) (i : nat) :
  forms (initializeFormValidation (render document st)) !! i
  = (λ m, mkForm (m_autosave m) (m_fieldsets m)
            (map (λ fk, mkField (m_name fk) (m_value fk) (m_control fk) None
                          [ValidateOnBlur] [ValidateOnInput])
                 (m_inputs m))
            (mkButton false false <$> m_submit_button m) false
            [ValidateOnSubmit]) <$> document !! i.
Proof.
  unfold initializeFormValidation, render. simpl.
  rewrite !list_lookup_fmap. destruct (document !! i) as [m|]; [|done].
  simpl. unfold add_submit_listener, set_inputs, render_form. simpl.
  do 2 f_equal. rewrite <- list_fmap_compose. by apply list_fmap_ext.
Qed.

Lemma autosave_input_listeners (st : Storage.t) (f : Field) :
  input_listeners (autosave_input st f).1 = input_listeners f
  ∨ input_listeners (autosave_input st f).1
    = (input_listeners f ++ [AutosavePersist])%list.
Proof.
  unfold autosave_input. destruct (restore st f) as [f'|e] eqn:Hr; simpl.
  - right. by destruct (restore_frame st f f' Hr) as (_ & _ & _ & _ & ->).
  - by left.
Qed.

Lemma autosave_form_frame (st : Storage.t) (fm : Form) :
  data_autosave (autosave_form st fm).1 = data_autosave fm
  ∧ fieldsets (autosave_form st fm).1 = fieldsets fm
  ∧ submit_button (autosave_form st fm).1 = submit_button fm
  ∧ was_validated (autosave_form st fm).1 = was_validated fm
  ∧ (submit_listeners (autosave_form st fm).1 = submit_listeners fm
     ∨ (data_autosave fm = true
        ∧ submit_listeners (autosave_form st fm).1
          = (submit_listeners fm ++ [AutosaveClear])%list)).
Proof.
  unfold autosave_form. destruct (data_autosave fm) eqn:Ha; simpl.
  - destruct (forEach (autosave_input st) (inputs fm)) as [fs [u|e]]; simpl;
      repeat split; auto.
  - repeat split; auto.
Qed.

(** Every form of a loaded page is wired, whether or not the
    initialisation ran to its end. *)
Lemma wired_load (document : list FormMarkup) (st : Storage.t)
    (i : nat) (fm : Form) :
  forms (load document st) !! i = Some fm → wired fm.
Proof.
  rewrite forms_load. unfold initializeApp, initializeAutoSave.
  cbn [fst forms set_forms].
  change (localStorage (initializeFormValidation (render document st))) with st.
  set (w1 := initializeFormValidation (render document st)).
  intros Hfm.
  assert (length (forms w1) = length (forEach (autosave_form st) (forms w1)).1)
    as Hlen by by rewrite forEach_length.
  destruct (forms w1 !! i) as [fm1|] eqn:Hfm1.
  2:{ apply lookup_ge_None in Hfm1. apply lookup_lt_Some in Hfm. lia. }
  pose proof Hfm1 as Hfm1'. unfold w1 in Hfm1'.
  rewrite forms_initializeFormValidation in Hfm1'.
  destruct (document !! i) as [m|]; [|discriminate]. simpl in Hfm1'.
  injection Hfm1' as Hfm1'.
  assert (wired fm1) as Hw1.
  { rewrite <- Hfm1'. split; [by left|]. simpl. intros j f.
    rewrite list_lookup_fmap. destruct (m_inputs m !! j); [|done].
    simpl. intros [= <-]. simpl. auto. }
  destruct (forEach_lookup (autosave_form st) (forms w1) i fm1 Hfm1)
    as [Hsame | Hdone]; rewrite Hfm in *.
  { by injection Hsame as ->. }
  injection Hdone as ->.
  destruct Hw1 as [Hsub Hfields].
  assert (submit_listeners fm1 = [ValidateOnSubmit]) as Hsub1
    by by rewrite <- Hfm1'.
  destruct (autosave_form_frame st fm1) as (Ha & _ & _ & _ & Hls).
  split.
  { rewrite Ha. destruct Hls as [-> | [Ha1 ->]]; [by left|].
    right. by rewrite Hsub1. }
  intros j f Hf. rewrite Ha.
  destruct (data_autosave fm1) eqn:Ha1.
  - rewrite (autosave_form_inputs st fm1 Ha1) in Hf.
    assert (length (inputs fm1)
            = length (forEach (autosave_input st) (inputs fm1)).1) as Hlen1
      by by rewrite forEach_length.
    destruct (inputs fm1 !! j) as [f1|] eqn:Hf1.
    2:{ apply lookup_ge_None in Hf1. apply lookup_lt_Some in Hf. lia. }
    destruct (Hfields j f1 Hf1) as [Hb1 Hi1].
    assert (input_listeners f1 = [ValidateOnInput]) as Hi1'.
    { rewrite <- Hfm1' in Hf1. simpl in Hf1. rewrite list_lookup_fmap in Hf1.
      destruct (m_inputs m !! j); [|done]. by injection Hf1 as <-. }
    destruct (forEach_lookup (autosave_input st) (inputs fm1) j f1 Hf1)
      as [Hsame | Hdone]; rewrite Hf in *.
    + injection Hsame as ->. split; [done|]. by left.
    + injection Hdone as ->.
      destruct (autosave_input_frame st f1) as (_ & _ & _ & -> & _).
      split; [done|].
      destruct (autosave_input_listeners st f1) as [-> | ->]; [by left|].
      right. by rewrite Hi1'.
  - unfold autosave_form in Hf. rewrite Ha1 in Hf. simpl in Hf.
    destruct (Hfields j f Hf) as [Hb Hi]. split; [done|].
    destruct Hi as [Hi | [Hc _]]; [by left | done].
Qed.

(** Every form of a page that has been loaded is wired, whatever has
    happened since. *)
Lemma wired_page_run (document : list FormMarkup) (st : Storage.t)
    (es : list PageEvent) (i : nat) (fm : Form) :
  forms (page_run (load document st) es) !! i = Some fm → wired fm.
Proof.
  intros Hfm.
  destruct (shape_lookup (page_run (load document st) es) (load document st)
              i fm (eq_sym (shape_page_run _ es)) Hfm) as (fm0 & Hfm0 & Hs).
  apply (wired_form_shape fm0 fm); [done|].
  by apply (wired_load document st i).
Qed.

(** When the initialisation ran to its end, every listener is
    registered. *)
Lemma shape_load (document : list FormMarkup) (st : Storage.t) :
  initialized document st →
  shape (load document st) = loaded_shape <$> document.
Proof.
  intros Hinit. rewrite (load_initialized document st Hinit).
  unfold initialized, initializeApp, initializeAutoSave in *.
  cbn [fst snd] in *.
  change (localStorage (initializeFormValidation (render document st)))
    with st in *.
  set (w1 := initializeFormValidation (render document st)) in *.
  destruct (forEach_Normal _ _ Hinit) as [Hforms Hall].
  unfold shape. cbn [forms set_forms]. rewrite Hforms. apply list_eq. intros i.
  rewrite !list_lookup_fmap. unfold w1.
  rewrite forms_initializeFormValidation.
  destruct (document !! i) as [m|] eqn:Hm; [|done]. simpl. f_equal.
  set (fm1 := mkForm _ _ _ _ _ _).
  assert (forms w1 !! i = Some fm1) as Hfm1.
  { unfold w1. by rewrite forms_initializeFormValidation, Hm. }
  assert ((autosave_form st fm1).2 = Normal ()) as Hr.
  { rewrite Forall_forall in Hall. apply Hall. by eapply list_elem_of_lookup_2. }
  unfold loaded_shape. destruct (m_autosave m) eqn:Ha.
  - destruct (autosave_form_Normal st fm1 eq_refl Hr) as [Hir ->].
    destruct (forEach_Normal _ _ Hir) as [-> Hiall].
    unfold form_shape. simpl. rewrite ?Ha. f_equal. f_equal.
    rewrite <- !list_fmap_compose. apply list_eq. intros j.
    rewrite !list_lookup_fmap.
    destruct (m_inputs m !! j) as [fk|] eqn:Hfk; [|done]. simpl. f_equal.
    set (f1 := mkField _ _ _ _ _ _).
    assert ((autosave_input st f1).2 = Normal ()) as Hfr.
    { rewrite Forall_forall in Hiall. apply Hiall.
      apply list_elem_of_fmap. exists fk. split; [done|].
      by eapply list_elem_of_lookup_2. }
    destruct (autosave_input_Normal st f1 Hfr) as (f' & Hres & ->).
    destruct (restore_frame st f1 f' Hres) as (Hn & _ & _ & Hb & Hi).
    unfold field_shape. simpl. by rewrite Hn, Hb, Hi.
  - unfold autosave_form. simpl. rewrite ?Ha. unfold form_shape. simpl.
    rewrite ?Ha. f_equal. f_equal.
    rewrite <- !list_fmap_compose. by apply list_fmap_ext.
Qed.

(** On a page whose initialisation ran to its end, whatever has
    happened since, every form carries the validation listener, and an
    autosave form the clearing listener after it; every field carries
    the validation listeners, and in an autosave form the persisting
    listener after them. *)
Lemma loaded_listeners (document : list FormMarkup) (st : Storage.t)
    (es : list PageEvent) (i : nat) (fm : Form) :
  initialized document st →
  forms (page_run (load document st) es) !! i = Some fm →
  submit_listeners fm
  = (if data_autosave fm then [ValidateOnSubmit; AutosaveClear]
     else [ValidateOnSubmit])
  ∧ ∀ j f, inputs fm !! j = Some f →
      input_listeners f
      = if data_autosave fm then [ValidateOnInput; AutosavePersist]
        else [ValidateOnInput].
Proof.
  intros Hinit Hfm.
  pose proof (shape_page_run (load document st) es) as Hs.
  rewrite shape_load in Hs by done.
  apply (f_equal (λ l, l !! i)) in Hs. unfold shape in Hs.
  rewrite !list_lookup_fmap, Hfm in Hs. simpl in Hs.
  destruct (document !! i) as [m|]; [|discriminate].
  injection Hs as Hauto Hfields Hsub.
  rewrite <- Hauto in Hfields, Hsub. split; [done|].
  intros j f Hf. apply (f_equal (λ l, l !! j)) in Hfields.
  rewrite !list_lookup_fmap, Hf in Hfields. simpl in Hfields.
  destruct (m_inputs m !! j); [|discriminate].
  by injection Hfields.
Qed.

End PageInvariant.

(** ** Focus and blur *)

Section FocusFacts.
Import Page.

(** The blur listeners touch the forms only. *)
Lemma dispatch_blur_frame (n : option Node) (w : Window) :
  localStorage (dispatch_blur n w) = localStorage w
  ∧ activeElement (dispatch_blur n w) = activeElement w
  ∧ notifications (dispatch_blur n w) = notifications w
  ∧ timeouts (dispatch_blur n w) = timeouts w.
Proof.
  destruct n as [[i j|i k]|]; simpl; [|done..].
  destruct (get_field w i j) as [f|]; [|done].
  generalize (blur_listeners f). intros ls. revert w.
  induction ls as [|l ls IH]; intros w; simpl; [done|].
  destruct (IH (run_blur_listener l i j w)) as (-> & -> & -> & ->).
  destruct l. simpl. unfold validate_on_blur.
  destruct (forms w !! i) as [fm|]; [|done]. by destruct (was_validated fm).
Qed.

Lemma focus_frame (n : Node) (w : Window) :
  localStorage (focus n w) = localStorage w
  ∧ notifications (focus n w) = notifications w
  ∧ timeouts (focus n w) = timeouts w.
Proof.
  unfold focus.
  destruct (can_focus n w && negb (bool_decide (activeElement w = Some n)));
    [|done].
  simpl. by destruct (dispatch_blur_frame (activeElement w) w) as (-> & _ & -> & ->).
Qed.

Lemma blur_frame (w : Window) :
  localStorage (blur w) = localStorage w
  ∧ notifications (blur w) = notifications w
  ∧ timeouts (blur w) = timeouts w.
Proof.
  unfold blur. simpl.
  by destruct (dispatch_blur_frame (activeElement w) w) as (-> & _ & -> & ->).
Qed.

(** [focus()] moves the focus exactly when the element can take it. *)
Lemma activeElement_focus (n : Node) (w : Window) :
  activeElement (focus n w) = if can_focus n w then Some n else activeElement w.
Proof.
  unfold focus. destruct (can_focus n w); simpl; [|done].
  case_bool_decide as Hn; simpl; done.
Qed.

End FocusFacts.

(** ** Autosave: clear on submit *)

Section ClearFacts.
Import Page.

Lemma removeItem_all_lookup (fs : list Field) (st : Storage.t) (key : string) :
  Storage.getItem
    (foldl (λ st f, Storage.removeItem st (autosave_key f)) st fs) key
  = if decide (key ∈ autosave_key <$> fs) then None else Storage.getItem st key.
Proof.
  revert st. induction fs as [|f fs IH]; intros st.
  - done.
  - rewrite fmap_cons. cbn [foldl]. rewrite IH.
    unfold Storage.getItem, Storage.removeItem. cbn [Storage.items].
    destruct (decide (key ∈ autosave_key <$> fs)) as [Hin|Hnin].
    + rewrite decide_True; [done|]. by apply list_elem_of_further.
    + destruct (decide (key = autosave_key f)) as [->|Hne].
      * rewrite decide_True by apply list_elem_of_here.
        apply lookup_delete_eq.
      * rewrite decide_False.
        -- by apply lookup_delete_ne.
        -- intros [?|?]%elem_of_cons; done.
Qed.

Lemma autosave_keys_shape (fs fs' : list Field) :
  field_shape <$> fs = field_shape <$> fs' →
  autosave_key <$> fs = autosave_key <$> fs'.
Proof.
  intros H.
  assert (∀ l : list Field,
            autosave_key <$> l = (λ p, "autosave_" +:+ p.1.1) <$> (field_shape <$> l))
    as Hk.
  { intros l. rewrite <- list_fmap_compose. by apply list_fmap_ext. }
  by rewrite !Hk, H.
Qed.

(** The validation listener never asks for the remaining listeners of
    the form to be skipped. *)
Lemma validate_on_submit_immediate (i : nat) (ev : Event) (w : Window) :
  immediatePropagationStopped (validate_on_submit i ev w).1
  = immediatePropagationStopped ev.
Proof.
  unfold validate_on_submit. destruct (forms w !! i) as [fm|]; [|done].
  by destruct (negb (checkValidity fm)).
Qed.

Lemma validate_on_submit_blocks (i : nat) (ev : Event) (w : Window) (fm : Form) :
  forms w !! i = Some fm → checkValidity fm = false →
  defaultPrevented (validate_on_submit i ev w).1 = true
  ∧ propagationStopped (validate_on_submit i ev w).1 = true.
Proof.
  intros Hfm Hv. unfold validate_on_submit. rewrite Hfm, Hv. done.
Qed.

(** The validation listener touches the forms, the focus and the
    timers only. *)
Lemma validate_on_submit_frame (i : nat) (ev : Event) (w : Window) :
  localStorage (validate_on_submit i ev w).2 = localStorage w
  ∧ notifications (validate_on_submit i ev w).2 = notifications w.
Proof.
  unfold validate_on_submit. destruct (forms w !! i) as [fm|]; [|done].
  destruct (negb (checkValidity fm)); simpl.
  - destruct (querySelector_invalid i fm) as [n|]; [|done].
    by destruct (focus_frame n w) as (-> & -> & _).
  - by destruct (submit_button fm).
Qed.

(** The clearing listener touches the store only. *)
Lemma autosave_clear_frame (i : nat) (w : Window) :
  forms (autosave_clear i w) = forms w
  ∧ activeElement (autosave_clear i w) = activeElement w
  ∧ notifications (autosave_clear i w) = notifications w
  ∧ timeouts (autosave_clear i w) = timeouts w.
Proof. unfold autosave_clear. by destruct (forms w !! i). Qed.

(** A submit event on a wired form runs the validation listener and,
    when the form carries it, the clearing listener after it. *)
Lemma fire_submit_wired (i : nat) (w : Window) (fm : Form) :
  forms w !! i = Some fm → wired fm →
  fire_submit i w
  = let r := validate_on_submit i (mkEvent false false false) w in
    (r.1, if bool_decide (AutosaveClear ∈ submit_listeners fm)
          then autosave_clear i r.2 else r.2).
Proof.
  intros Hfm [Hls _]. unfold fire_submit. rewrite Hfm.
  pose proof (validate_on_submit_immediate i (mkEvent false false false) w) as Himm.
  destruct Hls as [-> | [_ ->]]; simpl;
    destruct (validate_on_submit i _ w) as [ev1 w1]; simpl in *;
    by rewrite Himm.
Qed.

(** The store after a submit event on a wired form. *)
Lemma getItem_fire_submit (i : nat) (w : Window) (fm : Form) (key : string) :
  forms w !! i = Some fm → wired fm →
  Storage.getItem (localStorage (fire_submit i w).2) key
  = if bool_decide (AutosaveClear ∈ submit_listeners fm)
       && bool_decide (key ∈ autosave_key <$> inputs fm)
    then None
    else Storage.getItem (localStorage w) key.
Proof.
  intros Hfm Hw. rewrite (fire_submit_wired i w fm Hfm Hw).
  cbn zeta. cbn [snd].
  set (ev0 := mkEvent false false false).
  destruct (validate_on_submit_frame i ev0 w) as [Hst _].
  destruct (bool_decide (AutosaveClear ∈ submit_listeners fm)); simpl;
    [|by rewrite Hst].
  unfold autosave_clear.
  destruct (shape_lookup w (validate_on_submit i ev0 w).2 i fm
              (shape_validate_on_submit i ev0 w) Hfm) as (fm1 & -> & Hs).
  simpl. rewrite removeItem_all_lookup, Hst.
  injection Hs as _ Hfields _.
  rewrite (autosave_keys_shape _ _ Hfields).
  destruct (decide (key ∈ autosave_key <$> inputs fm)) as [Hin|Hnin];
    [by rewrite bool_decide_eq_true_2 | by rewrite bool_decide_eq_false_2].
Qed.




End ClearFacts.

(** ** Autosave: persist on change *)

Section PersistFacts.
Import Page.

Lemma get_field_update_field (i j : nat) (g : Field → Field) (w : Window) :
  get_field (update_field i j g w) i j = g <$> get_field w i j.
Proof.
  unfold get_field, update_field, update_form. simpl.
  rewrite list_lookup_alter_eq. destruct (forms w !! i) as [fm|]; [|done].
  simpl. by rewrite list_lookup_alter_eq.
Qed.

Lemma localStorage_validate_on_input (i j : nat) (w : Window) :
  localStorage (validate_on_input i j w) = localStorage w.
Proof.
  unfold validate_on_input. destruct (forms w !! i) as [fm|]; [|done].
  by destruct (was_validated fm).
Qed.

Lemma notifications_validate_on_input (i j : nat) (w : Window) :
  notifications (validate_on_input i j w) = notifications w.
Proof.
  unfold validate_on_input. destruct (forms w !! i) as [fm|]; [|done].
  by destruct (was_validated fm).
Qed.

Lemma get_field_validate_on_input (i j : nat) (w : Window) (f : Field) :
  get_field w i j = Some f →
  ∃ f', get_field (validate_on_input i j w) i j = Some f'
    ∧ name f' = name f ∧ value f' = value f.
Proof.
  intros Hf. unfold validate_on_input.
  destruct (forms w !! i) as [fm|]; [|by exists f].
  destruct (was_validated fm); [|by exists f].
  rewrite get_field_update_field, Hf. simpl. eexists. split; [done|].
  unfold validateField. by destruct (constraint (control f) (value f)).
Qed.

Lemma localStorage_before_persist (i j : nat) (v : string) (w : Window) :
  localStorage (before_persist i j v w) = localStorage w.
Proof. unfold before_persist. by rewrite localStorage_validate_on_input. Qed.

Lemma notifications_before_persist (i j : nat) (v : string) (w : Window) :
  notifications (before_persist i j v w) = notifications w.
Proof. unfold before_persist. by rewrite notifications_validate_on_input. Qed.

(** A change of a field that carries the validation listener only. *)
Lemma user_input_plain (i j : nat) (v : string) (w : Window) (f : Field) :
  get_field w i j = Some f →
  input_listeners f = [ValidateOnInput] →
  user_input i j v w = before_persist i j v w.
Proof. intros Hf Hls. unfold user_input. by rewrite Hf, Hls. Qed.

(** A change of a field that carries the persisting listener too. *)
Lemma user_input_unfold (i j : nat) (v : string) (w : Window) (f : Field) :
  get_field w i j = Some f →
  input_listeners f = [ValidateOnInput; AutosavePersist] →
  user_input i j v w =
    match autosave_persist i j (before_persist i j v w) with
    | Normal w' => w'
    | Throw e => on_error e (before_persist i j v w)
    end.
Proof. intros Hf Hls. unfold user_input. by rewrite Hf, Hls. Qed.

Lemma autosave_persist_unfold (i j : nat) (v : string) (w : Window) (f : Field) :
  get_field w i j = Some f →
  autosave_persist i j (before_persist i j v w) =
    st ← Storage.setItem (localStorage w) (autosave_key f) v;
    mret (set_localStorage st (before_persist i j v w)).
Proof.
  intros Hf. unfold autosave_persist.
  destruct (get_field_validate_on_input i j (update_field i j (set_value v) w)
              (set_value v f)) as (f' & Hf' & Hn & Hv).
  { by rewrite get_field_update_field, Hf. }
  fold (before_persist i j v w) in Hf'.
  rewrite Hf', localStorage_before_persist.
  unfold autosave_key. by rewrite Hn, Hv.
Qed.

Lemma setItem_accepted (st : Storage.t) (key v : string) :
  Storage.accepts st key v →
  Storage.setItem st key v
  = Normal (Storage.mk (<[key := v]> (Storage.items st)) (Storage.quota st)).
Proof. intros H. unfold Storage.setItem. by rewrite decide_True. Qed.

Lemma setItem_rejected (st : Storage.t) (key v : string) :
  ¬ Storage.accepts st key v →
  Storage.setItem st key v = Throw QuotaExceededError.
Proof. intros H. unfold Storage.setItem. by rewrite decide_False. Qed.

(** A write the store accepts lands under the field's key. *)
Lemma user_input_accepted (i j : nat) (v : string) (w : Window) (f : Field) :
  get_field w i j = Some f →
  input_listeners f = [ValidateOnInput; AutosavePersist] →
  Storage.accepts (localStorage w) (autosave_key f) v →
  localStorage (user_input i j v w)
  = Storage.mk (<[autosave_key f := v]> (Storage.items (localStorage w)))
               (Storage.quota (localStorage w))
  ∧ notifications (user_input i j v w) = notifications w.
Proof.
  intros Hf Hls Hacc.
  rewrite (user_input_unfold i j v w f Hf Hls).
  rewrite (autosave_persist_unfold i j v w f Hf).
  rewrite (setItem_accepted _ _ _ Hacc). simpl. split; [done|].
  apply notifications_before_persist.
Qed.

(** A write the store rejects throws out of the listener, is reported
    to the window's error listener, and changes nothing in the store. *)
Lemma user_input_rejected (i j : nat) (v : string) (w : Window) (f : Field) :
  get_field w i j = Some f →
  input_listeners f = [ValidateOnInput; AutosavePersist] →
  ¬ Storage.accepts (localStorage w) (autosave_key f) v →
  autosave_persist i j (before_persist i j v w) = Throw QuotaExceededError
  ∧ localStorage (user_input i j v w) = localStorage w
  ∧ notifications (user_input i j v w)
    = (notifications w
        ++ [mkNotification
              "An unexpected error occurred. Please refresh the page and try again."
              "danger"])%list.
Proof.
  intros Hf Hls Hrej.
  rewrite (user_input_unfold i j v w f Hf Hls).
  rewrite (autosave_persist_unfold i j v w f Hf).
  rewrite (setItem_rejected _ _ _ Hrej). simpl. split; [done|].
  by rewrite localStorage_before_persist, notifications_before_persist.
Qed.

Lemma get_field_Some (w : Window) (i j : nat) (fm : Form) (f : Field) :
  forms w !! i = Some fm → inputs fm !! j = Some f → get_field w i j = Some f.
Proof. intros Hfm Hf. unfold get_field. by rewrite Hfm. Qed.

(** The field after the callback of [inputs.forEach] has its own
    value, or the value the setter of its control has returned for the
    stored one. *)
Lemma autosave_input_value (st : Storage.t) (f : Field) :
  value (autosave_input st f).1 = value f
  ∨ ∃ saved, Storage.getItem st (autosave_key f) = Some saved
      ∧ saved ≠ "" ∧ value f = ""
      ∧ assign (control f) saved = Normal (value (autosave_input st f).1).
Proof.
  unfold autosave_input. destruct (restore st f) as [f'|e] eqn:Hr; simpl;
    [|by left].
  pose proof (restore_value st f f' Hr) as Hv.
  destruct (Storage.getItem st (autosave_key f)) as [saved|]; [|by left].
  case_decide as Hg; [|by left].
  destruct Hg as [Hempty Hs]. right. by exists saved.
Qed.

(** A field of a freshly loaded document, whether or not the
    initialisation ran to its end: it has the name and the control of
    its markup, and the value of its markup or what the setter has
    returned for the stored value. *)
Lemma load_field_any (document : list FormMarkup) (st : Storage.t) (i j : nat)
    (m : FormMarkup) (fk : FieldMarkup) :
  document !! i = Some m → m_inputs m !! j = Some fk →
  ∃ f, get_field (load document st) i j = Some f
    ∧ name f = m_name fk ∧ control f = m_control fk
    ∧ (value f = m_value fk
       ∨ ∃ saved, Storage.getItem st ("autosave_" +:+ m_name fk) = Some saved
           ∧ saved ≠ "" ∧ m_value fk = ""
           ∧ assign (m_control fk) saved = Normal (value f)).
Proof.
  intros Hm Hfk. unfold get_field. rewrite forms_load.
  unfold initializeApp, initializeAutoSave. cbn [fst forms set_forms].
  change (localStorage (initializeFormValidation (render document st))) with st.
  set (w1 := initializeFormValidation (render document st)).
  set (f1 := mkField (m_name fk) (m_value fk) (m_control fk) None
               [ValidateOnBlur] [ValidateOnInput]).
  assert (∃ fm1, forms w1 !! i = Some fm1 ∧ inputs fm1 !! j = Some f1
                 ∧ data_autosave fm1 = m_autosave m) as (fm1 & Hfm1 & Hf1 & Ha1).
  { unfold w1. rewrite forms_initializeFormValidation, Hm. simpl.
    eexists. split; [done|]. simpl. by rewrite list_lookup_fmap, Hfk. }
  assert (∀ f, f = f1 ∨ f = (autosave_input st f1).1 →
            name f = m_name fk ∧ control f = m_control fk
            ∧ (value f = m_value fk
               ∨ ∃ saved, Storage.getItem st ("autosave_" +:+ m_name fk) = Some saved
                   ∧ saved ≠ "" ∧ m_value fk = ""
                   ∧ assign (m_control fk) saved = Normal (value f))) as Hcases.
  { intros f [-> | ->]; [by auto|].
    destruct (autosave_input_frame st f1) as (Hn & Hc & _).
    split; [done|]. split; [done|].
    apply (autosave_input_value st f1). }
  destruct (forEach_lookup (autosave_form st) (forms w1) i fm1 Hfm1)
    as [-> | ->]; simpl.
  { exists f1. split; [done|]. apply Hcases. by left. }
  destruct (data_autosave fm1) eqn:Ha.
  - rewrite (autosave_form_inputs st fm1 Ha).
    destruct (forEach_lookup (autosave_input st) (inputs fm1) j f1 Hf1)
      as [-> | ->]; eexists; (split; [done|]); apply Hcases; auto.
  - unfold autosave_form. rewrite Ha. simpl.
    exists f1. split; [done|]. apply Hcases. by left.
Qed.

(** The field of an autosave form of a document whose initialisation
    ran to its end. *)
Lemma load_field (document : list FormMarkup) (st : Storage.t) (i j : nat)
    (m : FormMarkup) (fk : FieldMarkup) :
  initialized document st →
  document !! i = Some m → m_autosave m = true → m_inputs m !! j = Some fk →
  ∃ f, get_field (load document st) i j = Some f
    ∧ name f = m_name fk
    ∧ match Storage.getItem st ("autosave_" +:+ m_name fk) with
      | Some saved =>
          if decide (m_value fk = "" ∧ saved ≠ "")
          then assign (m_control fk) saved = Normal (value f)
          else value f = m_value fk
      | None => value f = m_value fk
      end.
Proof.
  intros Hinit Hm Ha Hfk. rewrite (load_initialized document st Hinit).
  unfold initialized, initializeApp in *.
  set (w1 := initializeFormValidation (render document st)) in *.
  set (f1 := mkField (m_name fk) (m_value fk) (m_control fk) None
               [ValidateOnBlur] [ValidateOnInput]).
  assert (∃ fm1, forms w1 !! i = Some fm1 ∧ inputs fm1 !! j = Some f1
                 ∧ data_autosave fm1 = true) as (fm1 & Hfm1 & Hf1 & Ha1).
  { unfold w1. rewrite forms_initializeFormValidation, Hm. simpl.
    eexists. split; [done|]. simpl. by rewrite list_lookup_fmap, Hfk. }
  destruct (initializeAutoSave_field_Normal w1 i j fm1 f1 Hinit Hfm1 Ha1 Hf1)
    as (f' & Hres & Hget).
  eexists. split; [exact Hget|]. simpl.
  destruct (restore_frame _ f1 f' Hres) as (-> & _).
  split; [done|]. apply (restore_value _ f1 f' Hres).
Qed.

(** Writing [v] into a field and then loading a document that has an
    empty autosave field of the same name, whose control keeps [v] when
    it is assigned, puts [v] into that field. *)
Lemma persist_then_load (w : Window) (i j : nat) (f : Field) (v : string)
    (document' : list FormMarkup) (i' j' : nat) (m' : FormMarkup)
    (fk' : FieldMarkup) :
  get_field w i j = Some f →
  input_listeners f = [ValidateOnInput; AutosavePersist] →
  Storage.accepts (localStorage w) (autosave_key f) v →
  initialized document' (localStorage (user_input i j v w)) →
  document' !! i' = Some m' → m_autosave m' = true →
  m_inputs m' !! j' = Some fk' →
  m_name fk' = name f → m_value fk' = "" →
  (v ≠ "" → assign (m_control fk') v = Normal v) →
  ∃ f', get_field (load document' (localStorage (user_input i j v w))) i' j'
        = Some f'
    ∧ name f' = name f ∧ value f' = v.
Proof.
  intros Hf Hls Hacc Hinit' Hm' Ha' Hfk' Hname Hempty Hkeeps.
  destruct (user_input_accepted i j v w f Hf Hls Hacc) as [Hst _].
  destruct (load_field document' (localStorage (user_input i j v w)) i' j' m' fk'
              Hinit' Hm' Ha' Hfk') as (f' & Hget & Hn & Hv).
  exists f'. split; [done|]. split; [congruence|].
  rewrite Hst, Hname, Hempty in Hv. unfold Storage.getItem in Hv. simpl in Hv.
  fold (autosave_key f) in Hv. rewrite lookup_insert_eq in Hv.
  case_decide as Hg.
  - rewrite Hkeeps in Hv by tauto. by injection Hv.
  - destruct (decide (v = "")) as [->|Hne]; [done|]. exfalso. by apply Hg.
Qed.

End PersistFacts.

(** ** Autosave: what the page guarantees *)

Section AutoSaveClaims.
Import Page.

(** A field that carries the persisting listener carries it after the
    validation listener. *)
Lemma persisting_field (document : list FormMarkup) (st : Storage.t)
    (es : list PageEvent) (i j : nat) (fm : Form) (f : Field) :
  forms (page_run (load document st) es) !! i = Some fm →
  inputs fm !! j = Some f →
  AutosavePersist ∈ input_listeners f →
  get_field (page_run (load document st) es) i j = Some f
  ∧ input_listeners f = [ValidateOnInput; AutosavePersist].
Proof.
  intros Hfm Hf Hin. split; [by apply (get_field_Some _ _ _ fm)|].
  destruct (wired_page_run document st es i fm Hfm) as [_ Hfields].
  destruct (Hfields j f Hf) as [_ [Hls | [_ Hls]]]; [|done].
  rewrite Hls in Hin. apply elem_of_cons in Hin as [? | ?%elem_of_nil]; done.
Qed.




(** C6 as stated fails: with a store of 20 code units, a write that
    does not fit throws out of the listener and is shown to the user,
    and a later, shorter, value is written again. *)
Lemma persist_failure_counterexample :
  autosave_persist 0 0
    (before_persist 0 0 "abcdefghij"
       (load [mkFormMarkup true []
                [mkFieldMarkup "email" "" (text_input (λ _, true))] None]
             (Storage.mk ∅ 20)))
  = Throw QuotaExceededError
  ∧ length
      (notifications
         (user_input 0 0 "abcdefghij"
            (load [mkFormMarkup true []
                     [mkFieldMarkup "email" "" (text_input (λ _, true))] None]
                  (Storage.mk ∅ 20)))) = 1
  ∧ Storage.getItem
      (localStorage
         (user_input 0 0 "ab"
            (user_input 0 0 "abcdefghij"
               (load [mkFormMarkup true []
                        [mkFieldMarkup "email" "" (text_input (λ _, true))]
                        None]
                     (Storage.mk ∅ 20)))))
      "autosave_email" = Some "ab".
Proof. repeat split; vm_compute; reflexivity. Qed.

(** C6, amended. When the store rejects the write of a change, the
    exception leaves the change listener uncaught and is reported to the
    window's error listener, which shows the generic notification; the
    store is unchanged, the listeners stay registered, and the next
    change that the store has room for is written. *)
Theorem persist_failure_is_reported (document : list FormMarkup)
    (st : Storage.t) (es : list PageEvent) (i j : nat) (fm : Form)
    (f : Field) (v v' : string) :
  forms (page_run (load document st) es) !! i = Some fm →
  inputs fm !! j = Some f →
  AutosavePersist ∈ input_listeners f →
  ¬ Storage.accepts (localStorage (page_run (load document st) es))
      (autosave_key f) v →
  autosave_persist i j
    (before_persist i j v (page_run (load document st) es))
  = Throw QuotaExceededError
  ∧ localStorage (user_input i j v (page_run (load document st) es))
    = localStorage (page_run (load document st) es)
  ∧ notifications (user_input i j v (page_run (load document st) es))
    = (notifications (page_run (load document st) es)
        ++ [mkNotification
              "An unexpected error occurred. Please refresh the page and try again."
              "danger"])%list
  ∧ shape (user_input i j v (page_run (load document st) es))
    = shape (page_run (load document st) es)
  ∧ (Storage.accepts (localStorage (page_run (load document st) es))
       (autosave_key f) v' →
     Storage.getItem
       (localStorage
          (user_input i j v'
             (user_input i j v (page_run (load document st) es))))
       (autosave_key f) = Some v').
Proof.
  intros Hfm Hf Hin Hrej.
  destruct (persisting_field document st es i j fm f Hfm Hf Hin) as [Hget Hls].
  set (w := page_run (load document st) es) in *.
  destruct (user_input_rejected i j v w f Hget Hls Hrej) as (Hthrow & Hst & Hnote).
  repeat split; try done.
  - apply shape_user_input.
  - intros Hacc.
    destruct (shape_lookup w (user_input i j v w) i fm
                (shape_user_input i j v w) Hfm) as (fm1 & Hfm1 & Hs).
    destruct (form_shape_lookup fm fm1 j f Hs Hf) as (f1 & Hf1 & Hshape1).
    pose proof (get_field_Some _ i j fm1 f1 Hfm1 Hf1) as Hget1.
    injection Hshape1 as Hn1 _ Hls1.
    assert (autosave_key f1 = autosave_key f) as Hkey.
    { unfold autosave_key. by rewrite Hn1. }
    rewrite Hls in Hls1. rewrite <- Hst, <- Hkey in Hacc.
    destruct (user_input_accepted i j v' _ f1 Hget1 Hls1 Hacc) as [Hst' _].
    rewrite Hst', Hkey. unfold Storage.getItem. simpl.
    by rewrite lookup_insert_eq.
Qed.

(** C6 amended, on a store of 20 code units. *)
Lemma persist_failure_is_reported_witness :
  localStorage
    (user_input 0 0 "abcdefghij"
       (page_run
          (load [mkFormMarkup true []
                   [mkFieldMarkup "email" "" (text_input (λ _, true))] None]
                (Storage.mk ∅ 20)) []))
  = localStorage
      (page_run
         (load [mkFormMarkup true []
                  [mkFieldMarkup "email" "" (text_input (λ _, true))] None]
               (Storage.mk ∅ 20)) []).
Proof.
  edestruct (λ fm f,
               persist_failure_is_reported
                 [mkFormMarkup true []
                    [mkFieldMarkup "email" "" (text_input (λ _, true))] None]
                 (Storage.mk ∅ 20) [] 0 0 fm f "abcdefghij" "ab")
    as (_ & Hst & _);
    [(vm_compute; reflexivity) | reflexivity
    | apply list_elem_of_further, list_elem_of_here | | exact Hst].
  unfold Storage.accepts. vm_compute. lia.
Defined.

End AutoSaveClaims.

(** ** Autosave: round trip and key collision *)

Section RoundTrip.
Import Page.

(** C7 as stated fails.  A value that the store has no room for is not
    written, so that the reload has nothing to restore; and the value of
    a file input is written, but the reload throws when it assigns it,
    and the field stays empty. *)
Lemma persist_restore_round_trip_counterexample :
  (∃ f', get_field
           (load [mkFormMarkup true []
                    [mkFieldMarkup "email" "" (text_input (λ _, true))] None]
              (localStorage
                 (user_input 0 0 "abcdefghij"
                    (load [mkFormMarkup true []
                             [mkFieldMarkup "email" "" (text_input (λ _, true))]
                             None]
                          (Storage.mk ∅ 20)))))
           0 0 = Some f'
     ∧ value f' = "")
  ∧ (∃ f', get_field
             (load [mkFormMarkup true []
                      [mkFieldMarkup "scan" "" (file_input (λ _, true))] None]
                (localStorage
                   (user_input 0 0 "C:\fakepath\scan.pdf"
                      (load [mkFormMarkup true []
                               [mkFieldMarkup "scan" "" (file_input (λ _, true))]
                               None]
                            (Storage.mk ∅ 100)))))
             0 0 = Some f'
       ∧ value f' = "").
Proof.
  split; eexists; (split; [vm_compute; reflexivity | reflexivity]).
Qed.

(** C7, amended.  A change of a field that carries the persisting
    listener, when the store accepts it, followed by loading a document
    in which the same field is empty, restores the written value into
    the field, provided the initialisation of that load runs to its end
    and the control of the field keeps the value when it is assigned.
    The name of the field need not be non-empty for this. *)
Theorem persist_restore_round_trip (document : list FormMarkup)
    (st : Storage.t) (es : list PageEvent) (i j : nat) (fm : Form)
    (f : Field) (v : string)
    (document' : list FormMarkup) (m' : FormMarkup) (fk' : FieldMarkup) :
  forms (page_run (load document st) es) !! i = Some fm →
  inputs fm !! j = Some f →
  AutosavePersist ∈ input_listeners f →
  Storage.accepts (localStorage (page_run (load document st) es))
    (autosave_key f) v →
  initialized document'
    (localStorage (user_input i j v (page_run (load document st) es))) →
  document' !! i = Some m' → m_autosave m' = true →
  m_inputs m' !! j = Some fk' →
  m_name fk' = name f → m_value fk' = "" →
  (v ≠ "" → assign (m_control fk') v = Normal v) →
  ∃ f', get_field
          (load document'
             (localStorage (user_input i j v (page_run (load document st) es))))
          i j = Some f'
    ∧ name f' = name f
    ∧ value f' = v.
Proof.
  intros Hfm Hf Hin Hacc Hinit' Hm' Ha' Hfk' Hname Hempty Hkeeps.
  destruct (persisting_field document st es i j fm f Hfm Hf Hin) as [Hget Hls].
  by apply (persist_then_load _ i j f v document' i j m' fk').
Qed.

(** C7 amended, on a form with one text input: type, reload, and the
    text is back. *)
Lemma persist_restore_round_trip_witness :
  ∃ f', get_field
          (load [mkFormMarkup true []
                   [mkFieldMarkup "email" "" (text_input (λ _, true))] None]
             (localStorage
                (user_input 0 0 "a@b"
                   (page_run
                      (load [mkFormMarkup true []
                               [mkFieldMarkup "email" "" (text_input (λ _, true))]
                               None]
                            (Storage.mk ∅ 100)) []))))
          0 0 = Some f'
    ∧ value f' = "a@b".
Proof.
  edestruct (λ fm f,
               persist_restore_round_trip
                 [mkFormMarkup true []
                    [mkFieldMarkup "email" "" (text_input (λ _, true))] None]
                 (Storage.mk ∅ 100) [] 0 0 fm f "a@b"
                 [mkFormMarkup true []
                    [mkFieldMarkup "email" "" (text_input (λ _, true))] None])
    as (f' & Hget & _ & Hv);
    [(vm_compute; reflexivity) | reflexivity
    | apply list_elem_of_further, list_elem_of_here
    | (unfold Storage.accepts; vm_compute; lia)
    | (vm_compute; reflexivity)
    | reflexivity .. |].
  exists f'. split; [exact Hget | exact Hv].
Defined.

(** C8 as stated fails.  A value that the store has no room for is not
    written; and a value written through a text input is not kept by a
    select of the same name in the other form that has no such option. *)
Lemma key_collision_across_forms_counterexample :
  (∃ f', get_field
           (load [mkFormMarkup true []
                    [mkFieldMarkup "email" "" (text_input (λ _, true))] None;
                  mkFormMarkup true []
                    [mkFieldMarkup "email" "" (text_input (λ _, true))] None]
              (localStorage
                 (user_input 0 0 "abcdefghij"
                    (load [mkFormMarkup true []
                             [mkFieldMarkup "email" "" (text_input (λ _, true))]
                             None;
                           mkFormMarkup true []
                             [mkFieldMarkup "email" "" (text_input (λ _, true))]
                             None]
                          (Storage.mk ∅ 20)))))
           1 0 = Some f'
     ∧ value f' = "")
  ∧ (∃ f', get_field
             (load [mkFormMarkup true []
                      [mkFieldMarkup "make" "" (text_input (λ _, true))] None;
                    mkFormMarkup true []
                      [mkFieldMarkup "make" ""
                         (select_one [""; "audi"; "bmw"] (λ _, true))] None]
                (localStorage
                   (user_input 0 0 "opel"
                      (load [mkFormMarkup true []
                               [mkFieldMarkup "make" "" (text_input (λ _, true))]
                               None;
                             mkFormMarkup true []
                               [mkFieldMarkup "make" ""
                                  (select_one [""; "audi"; "bmw"] (λ _, true))]
                               None]
                            (Storage.mk ∅ 100)))))
             1 0 = Some f'
       ∧ value f' = "").
Proof.
  split; eexists; (split; [vm_compute; reflexivity | reflexivity]).
Qed.

(** C8, amended.  Two autosave forms of one page with a field of the
    same name share the store key: a change written through the field of
    one form, when the store accepts it, is restored on the next load
    into the empty field of the other, provided the initialisation of
    that load runs to its end and the control of the other field keeps
    the value when it is assigned. *)
Theorem key_collision_across_forms (document : list FormMarkup)
    (st : Storage.t) (es : list PageEvent)
    (iA jA iB jB : nat) (fmA fmB : Form) (fA fB : Field) (v : string)
    (document' : list FormMarkup) (mB : FormMarkup) (fkB : FieldMarkup) :
  iA ≠ iB →
  forms (page_run (load document st) es) !! iA = Some fmA →
  inputs fmA !! jA = Some fA →
  AutosavePersist ∈ input_listeners fA →
  forms (page_run (load document st) es) !! iB = Some fmB →
  data_autosave fmB = true → inputs fmB !! jB = Some fB →
  name fA = name fB →
  Storage.accepts (localStorage (page_run (load document st) es))
    (autosave_key fA) v →
  initialized document'
    (localStorage (user_input iA jA v (page_run (load document st) es))) →
  document' !! iB = Some mB → m_autosave mB = true →
  m_inputs mB !! jB = Some fkB →
  m_name fkB = name fB → m_value fkB = "" →
  (v ≠ "" → assign (m_control fkB) v = Normal v) →
  autosave_key fA = autosave_key fB
  ∧ ∃ f', get_field
            (load document'
               (localStorage
                  (user_input iA jA v (page_run (load document st) es))))
            iB jB = Some f'
      ∧ name f' = name fB
      ∧ value f' = v.
Proof.
  intros _ HfmA HfA Hin _ _ _ Hsame Hacc Hinit' HmB HaB HfkB Hname Hempty Hkeeps.
  split; [unfold autosave_key; by rewrite Hsame|].
  destruct (persisting_field document st es iA jA fmA fA HfmA HfA Hin)
    as [Hget Hls].
  rewrite <- Hsame. rewrite <- Hsame in Hname.
  by apply (persist_then_load _ iA jA fA v document' iB jB mB fkB).
Qed.

(** C8 amended, on a page with two forms that both have a text input
    named email. *)
Lemma key_collision_across_forms_witness :
  ∃ f', get_field
          (load [mkFormMarkup true []
                   [mkFieldMarkup "email" "" (text_input (λ _, true))] None;
                 mkFormMarkup true []
                   [mkFieldMarkup "email" "" (text_input (λ _, true))] None]
             (localStorage
                (user_input 0 0 "a@b"
                   (page_run
                      (load [mkFormMarkup true []
                               [mkFieldMarkup "email" "" (text_input (λ _, true))]
                               None;
                             mkFormMarkup true []
                               [mkFieldMarkup "email" "" (text_input (λ _, true))]
                               None]
                            (Storage.mk ∅ 100)) []))))
          1 0 = Some f'
    ∧ value f' = "a@b".
Proof.
  edestruct (λ fmA fmB fA fB,
               key_collision_across_forms
                 [mkFormMarkup true []
                    [mkFieldMarkup "email" "" (text_input (λ _, true))] None;
                  mkFormMarkup true []
                    [mkFieldMarkup "email" "" (text_input (λ _, true))] None]
                 (Storage.mk ∅ 100) [] 0 0 1 0 fmA fmB fA fB "a@b"
                 [mkFormMarkup true []
                    [mkFieldMarkup "email" "" (text_input (λ _, true))] None;
                  mkFormMarkup true []
                    [mkFieldMarkup "email" "" (text_input (λ _, true))] None])
    as (_ & f' & Hget & _ & Hv);
    [lia | (vm_compute; reflexivity) | reflexivity
    | apply list_elem_of_further, list_elem_of_here
    | (vm_compute; reflexivity) | reflexivity | reflexivity | reflexivity
    | (unfold Storage.accepts; vm_compute; lia)
    | (vm_compute; reflexivity)
    | reflexivity .. |].
  exists f'. split; [exact Hget | exact Hv].
Defined.

End RoundTrip.

(** ** Search: the debounce timer *)

Section Debounce.
Import Search.

Lemma elem_of_filter_bool {A : Type} (p : A → bool) (l : list A) (x : A) :
  x ∈ List.filter p l ↔ x ∈ l ∧ p x = true.
Proof. rewrite !list_elem_of_In. apply filter_In. Qed.

Lemma filter_bool_comm {A : Type} (p q : A → bool) (l : list A) :
  List.filter p (List.filter q l) = List.filter q (List.filter p l).
Proof.
  induction l as [|x l IH]; [done|]. simpl.
  destruct (q x) eqn:Hq, (p x) eqn:Hp; simpl; rewrite ?Hq, ?Hp, IH; done.
Qed.

Lemma NoDup_map_filter {A B : Type} (f : A → B) (p : A → bool) (l : list A) :
  NoDup (map f l) → NoDup (map f (List.filter p l)).
Proof.
  induction l as [|x l IH]; [done|]. simpl.
  intros [Hx Hl]%NoDup_cons. destruct (p x); [|by apply IH].
  simpl. apply NoDup_cons. split; [|by apply IH].
  intros (y & Hy & Hin)%list_elem_of_fmap. apply Hx.
  apply list_elem_of_fmap. exists y. split; [done|].
  apply elem_of_filter_bool in Hin. tauto.
Qed.

Lemma elem_of_clearTimeout (h : option nat) (q : list Timer) (t : Timer) :
  t ∈ clearTimeout h q ↔ t ∈ q ∧ h ≠ Some (timer_id t).
Proof.
  destruct h as [id|]; simpl.
  - rewrite elem_of_filter_bool, negb_true_iff, Nat.eqb_neq.
    split; intros [Ht Hne]; (split; [done | congruence]).
  - split; [by intros Ht | by intros [Ht _]].
Qed.

Lemma NoDup_clearTimeout (h : option nat) (q : list Timer) :
  NoDup (map timer_id q) → NoDup (map timer_id (clearTimeout h q)).
Proof. destruct h; simpl; [apply NoDup_map_filter | done]. Qed.

Lemma performSearch_value (inp inp' : SearchInput) :
  performSearch inp = Normal inp' → value inp' = value inp.
Proof.
  unfold performSearch. destruct (container inp) as [els|]; [|done].
  destruct (length (List.filter data_searchable els) =? 0)%nat;
    by intros [= <-].
Qed.

(** *** Firing a timer touches only the input it belongs to *)

Lemma fire_frame (t : Timer) (s : Loop) :
  now (fire t s) = now s ∧ next_id (fire t s) = next_id s
  ∧ pending (fire t s) = pending s ∧ held (fire t s) = held s
  ∧ values (fire t s) = values s.
Proof.
  unfold fire. destruct (boxes s !! owner t) as [b|] eqn:Hb; [|done].
  destruct (performSearch (input b)) as [inp'|e] eqn:Hp; simpl; [|done].
  repeat split; unfold held, values; simpl.
  - rewrite list_fmap_insert. simpl. apply list_insert_id.
    by rewrite list_lookup_fmap, Hb.
  - rewrite list_fmap_insert. simpl. apply list_insert_id.
    rewrite list_lookup_fmap, Hb. simpl. f_equal.
    symmetry. by apply performSearch_value.
Qed.

Lemma passes_fire (t : Timer) (s : Loop) :
  passes (fire t s)
  = (passes s ++ from_option (λ v, [(owner t, v)]) [] (values s !! owner t))%list.
Proof.
  unfold fire, values. rewrite list_lookup_fmap.
  destruct (boxes s !! owner t) as [b|]; simpl; [|by rewrite app_nil_r].
  by destruct (performSearch (input b)).
Qed.

Lemma passes_of_app (i : nat) (s : Loop) (l : list (nat * string)) :
  map snd (List.filter (λ p, (p.1 =? i)%nat) (passes s ++ l))
  = (passes_of i s ++ map snd (List.filter (λ p, (p.1 =? i)%nat) l))%list.
Proof. unfold passes_of. by rewrite List.filter_app, map_app. Qed.

Lemma passes_of_fire (i : nat) (t : Timer) (s : Loop) (v : string) :
  values s !! i = Some v →
  passes_of i (fire t s)
  = (passes_of i s ++ if (owner t =? i)%nat then [v] else [])%list.
Proof.
  intros Hv. unfold passes_of at 1. rewrite passes_fire, passes_of_app.
  f_equal. destruct (owner t =? i)%nat eqn:Ho.
  - apply Nat.eqb_eq in Ho. rewrite Ho, Hv. simpl. by rewrite Nat.eqb_refl.
  - destruct (values s !! owner t); simpl; [by rewrite Ho | done].
Qed.

Lemma fold_fire_frame (l : list Timer) (s : Loop) :
  now (foldl (λ s' t, fire t s') s l) = now s
  ∧ next_id (foldl (λ s' t, fire t s') s l) = next_id s
  ∧ pending (foldl (λ s' t, fire t s') s l) = pending s
  ∧ held (foldl (λ s' t, fire t s') s l) = held s
  ∧ values (foldl (λ s' t, fire t s') s l) = values s.
Proof.
  revert s. induction l as [|t l IH]; intros s; simpl; [done|].
  destruct (IH (fire t s)) as (-> & -> & -> & -> & ->). apply fire_frame.
Qed.

Lemma passes_of_fold_fire (i : nat) (l : list Timer) (s : Loop) (v : string) :
  values s !! i = Some v →
  passes_of i (foldl (λ s' t, fire t s') s l)
  = (passes_of i s
      ++ replicate (length (List.filter (λ t, (owner t =? i)%nat) l)) v)%list.
Proof.
  revert s. induction l as [|t l IH]; intros s Hv; simpl.
  - by rewrite app_nil_r.
  - rewrite IH.
    + rewrite (passes_of_fire i t s v Hv).
      destruct (owner t =? i)%nat; simpl; [|by rewrite app_nil_r].
      by rewrite <- app_assoc.
    + destruct (fire_frame t s) as (_ & _ & _ & _ & ->). done.
Qed.

(** *** The invariant *)

Lemma Inv_initializeSearch (inputs : list SearchInput) :
  Inv (initializeSearch inputs).
Proof.
  unfold Inv, initializeSearch, held. simpl. split; [|split; [|split]].
  - intros t Ht. by apply elem_of_nil in Ht.
  - intros t k Ht. by apply elem_of_nil in Ht.
  - constructor.
  - intros k id. rewrite <- list_fmap_compose, list_lookup_fmap.
    by destruct (inputs !! k).
Qed.

(** The invariant depends on the timers, the handles and [next_id]
    only, and survives the removal of timers. *)
Lemma Inv_filter (p : Timer → bool) (s s' : Loop) :
  Inv s → next_id s' = next_id s → held s' = held s →
  pending s' = List.filter p (pending s) → Inv s'.
Proof.
  intros (P1 & P2 & P3 & P4) Hn Hh Hp. unfold Inv.
  rewrite Hn, Hh, Hp. split; [|split; [|split]].
  - intros t [Ht _]%elem_of_filter_bool. by apply P1.
  - intros t k [Ht _]%elem_of_filter_bool. by apply P2.
  - by apply NoDup_map_filter.
  - done.
Qed.

Lemma Inv_ext (s s' : Loop) :
  Inv s → next_id s' = next_id s → held s' = held s →
  pending s' = pending s → Inv s'.
Proof.
  intros HI Hn Hh Hp. apply (Inv_filter (λ _, true) s s' HI Hn Hh).
  rewrite Hp. clear. induction (pending s) as [|t l IH]; simpl; congruence.
Qed.

Lemma Inv_on_input (i : nat) (s : Loop) : Inv s → Inv (on_input i s).
Proof.
  intros (P1 & P2 & P3 & P4). unfold on_input.
  destruct (boxes s !! i) as [b|] eqn:Hb; [|done].
  assert (held s !! i = Some (searchTimeout b)) as Hheld.
  { unfold held. by rewrite list_lookup_fmap, Hb. }
  assert (i < length (held s)) as Hlen by by eapply lookup_lt_Some.
  assert (∀ t, t ∈ clearTimeout (searchTimeout b) (pending s) → owner t ≠ i)
    as Hother.
  { intros t [Ht Hne]%elem_of_clearTimeout Ho. apply Hne.
    assert (held s !! i = Some (Some (timer_id t))) as Hti
      by (by apply P2).
    congruence. }
  unfold Inv, held. simpl. rewrite list_fmap_insert. simpl.
  fold (held s). split; [|split; [|split]].
  - intros t [[Ht _]%elem_of_clearTimeout | ->%list_elem_of_singleton]%elem_of_app.
    + specialize (P1 t Ht). lia.
    + simpl. lia.
  - intros t k [Ht | ->%list_elem_of_singleton]%elem_of_app.
    + pose proof (Hother t Ht) as Hot.
      apply elem_of_clearTimeout in Ht as [Ht _].
      split.
      * intros Hk. destruct (decide (k = i)) as [->|Hki].
        -- rewrite list_lookup_insert_eq in Hk by done.
           specialize (P1 t Ht). injection Hk as Hk. lia.
        -- rewrite list_lookup_insert_ne in Hk by done. by apply P2.
      * intros ->. rewrite list_lookup_insert_ne by done. by apply P2.
    + simpl. split.
      * intros Hk. destruct (decide (k = i)) as [->|Hki]; [done|].
        rewrite list_lookup_insert_ne in Hk by done.
        specialize (P4 k _ Hk). lia.
      * intros ->. by rewrite list_lookup_insert_eq.
  - rewrite map_app. simpl. apply NoDup_app. split; [|split].
    + by apply NoDup_clearTimeout.
    + intros id Hid Hnew.
      apply list_elem_of_fmap in Hid as (t & Heq & Ht).
      apply elem_of_clearTimeout in Ht as [Ht _].
      apply list_elem_of_singleton in Hnew.
      specialize (P1 t Ht). lia.
    + apply NoDup_singleton.
  - intros k id Hk. destruct (decide (k = i)) as [->|Hki].
    + rewrite list_lookup_insert_eq in Hk by done. injection Hk as <-. lia.
    + rewrite list_lookup_insert_ne in Hk by done.
      specialize (P4 k id Hk). lia.
Qed.

Lemma Inv_step (s : Loop) (e : SearchEvent) : Inv s → Inv (step s e).
Proof.
  intros HI. destruct e as [i v|d]; simpl.
  - destruct (boxes s !! i) as [b|] eqn:Hb; [|done].
    apply Inv_on_input. apply (Inv_ext s); try done.
    unfold held. simpl. rewrite list_fmap_insert. simpl.
    apply list_insert_id. by rewrite list_lookup_fmap, Hb.
  - match goal with
    | |- Inv (foldl _ ?s0 ?l) =>
        destruct (fold_fire_frame l s0) as (_ & Hn & Hp & Hh & _)
    end.
    by apply (Inv_filter (λ t, negb (is_due (now s + d) t)) s).
Qed.

Lemma Inv_run (s : Loop) (es : list SearchEvent) : Inv s → Inv (run s es).
Proof.
  revert s. induction es as [|e es IH]; intros s HI; simpl; [done|].
  by apply IH, Inv_step.
Qed.

(** Under the invariant an input has at most one pending timer. *)
Lemma Inv_at_most_one (i : nat) (s : Loop) :
  Inv s → (length (pending_of i s) ≤ 1)%nat.
Proof.
  intros (P1 & P2 & P3 & P4).
  assert (NoDup (map timer_id (pending_of i s))) as Hnd
    by by apply NoDup_map_filter.
  assert (∀ t, t ∈ pending_of i s → held s !! i = Some (Some (timer_id t))) as Hid.
  { intros t [Ht Ho%Nat.eqb_eq]%elem_of_filter_bool. by apply P2. }
  destruct (pending_of i s) as [|t1 [|t2 l]]; simpl; [lia | lia | exfalso].
  pose proof (Hid t1 ltac:(apply list_elem_of_here)) as H1.
  pose proof (Hid t2 ltac:(apply list_elem_of_further, list_elem_of_here)) as H2.
  simpl in Hnd. apply NoDup_cons in Hnd as [Hnd _]. apply Hnd.
  rewrite H1 in H2. injection H2 as ->. apply list_elem_of_here.
Qed.

End Debounce.

(** *** A burst of changes *)

Section Burst.
Import Search.

Lemma run_cons (s : Loop) (e : SearchEvent) (es : list SearchEvent) :
  run s (e :: es) = run (step s e) es.
Proof. reflexivity. Qed.

Lemma run_app (s : Loop) (es es' : list SearchEvent) :
  run s (es ++ es') = run (run s es) es'.
Proof. apply foldl_app. Qed.

Lemma filter_bool_nil {A : Type} (p : A → bool) (l : list A) :
  (∀ x, x ∈ l → p x = false) → List.filter p l = [].
Proof.
  induction l as [|x l IH]; intros H; [done|]. simpl.
  rewrite (H x) by apply list_elem_of_here.
  apply IH. intros y Hy. by apply H, list_elem_of_further.
Qed.

Lemma pending_of_clearTimeout (i : nat) (h : option nat) (q : list Timer) :
  List.filter (λ t, (owner t =? i)%nat) (clearTimeout h q)
  = clearTimeout h (List.filter (λ t, (owner t =? i)%nat) q).
Proof. destruct h; simpl; [apply filter_bool_comm | done]. Qed.


(** A change of input [i] cancels its pending timer, if any, and
    starts the one timer that is then pending for it. *)
Lemma step_Input_arms (s : Loop) (i : nat) (b : Box) (v : string) :
  Inv s → boxes s !! i = Some b →
  Armed i v 0 (step s (Input i v))
  ∧ passes (step s (Input i v)) = passes s.
Proof.
  intros HI Hb. pose proof (Inv_step s (Input i v) HI) as HI'.
  destruct HI as (P1 & P2 & P3 & P4).
  assert (i < length (boxes s)) as Hlen by by eapply lookup_lt_Some.
  simpl in *. rewrite Hb in *. unfold on_input in *. simpl in *.
  rewrite list_lookup_insert_eq in * by done. simpl in *.
  split; [|done]. split; [done|]. split; [|split].
  - unfold values. simpl. rewrite list_lookup_fmap.
    by rewrite list_lookup_insert_eq by (by rewrite length_insert).
  - eexists. unfold pending_of. simpl.
    rewrite List.filter_app. simpl. rewrite Nat.eqb_refl.
    rewrite filter_bool_nil; [split; [reflexivity | simpl; lia]|].
    intros t [Ht Hne]%elem_of_clearTimeout. apply Nat.eqb_neq. intros Ho.
    apply Hne.
    assert (held s !! i = Some (Some (timer_id t))) as Hti by (by apply P2).
    unfold held in Hti. rewrite list_lookup_fmap, Hb in Hti. by injection Hti.
  - unfold delay. lia.
Qed.

(** The passes that time brings to input [i]: one for each of its
    pending timers that falls due. *)
Lemma passes_of_Elapse (s : Loop) (i d : nat) (v : string) :
  values s !! i = Some v →
  passes_of i (step s (Elapse d))
  = (passes_of i s
      ++ replicate (length (List.filter (is_due (now s + d)) (pending_of i s))) v)%list.
Proof.
  intros Hv. simpl. rewrite (passes_of_fold_fire i _ _ v) by done.
  unfold pending_of. by rewrite filter_bool_comm.
Qed.

Lemma pending_of_Elapse (s : Loop) (i d : nat) :
  pending_of i (step s (Elapse d))
  = List.filter (λ t, negb (is_due (now s + d) t)) (pending_of i s).
Proof.
  simpl. unfold pending_of at 1.
  match goal with
  | |- context [foldl _ ?s0 ?l] =>
      destruct (fold_fire_frame l s0) as (_ & _ & -> & _ & _)
  end.
  simpl. unfold pending_of. by rewrite filter_bool_comm.
Qed.







End Burst.

Section DebounceClaim.
Import Search.



End DebounceClaim.

(** ** CSV export *)

Section CsvFacts.
Import JsString Table Rfc4180.

Lemma includes_cons_char (a c : ascii) (t : string) :
  includes (String a t) (String c "") = false
  ↔ a ≠ c ∧ includes t (String c "") = false.
Proof.
  simpl. rewrite orb_false_iff. case_decide as Hac.
  - split; intros [H1 H2]; [discriminate H1 | by destruct H1].
  - split; intros [H1 H2]; by split.
Qed.

Lemma snoc_app (cur : string) (a : ascii) (t : string) :
  snoc cur a +:+ t = cur +:+ String a t.
Proof. unfold snoc. by rewrite string_app_assoc. Qed.

(** An unquoted field is read back character by character. *)
Lemma scan_unquoted (t cur : string) (row : list string) (rest : string) :
  includes t "," = false → includes t dquote = false →
  has_line_break t = false →
  scan Unquoted cur row (t +:+ rest) = scan Unquoted (cur +:+ t) row rest.
Proof.
  revert cur. induction t as [|a t IH]; intros cur Hc Hq Hl.
  - by rewrite string_app_nil_l, string_app_nil_r.
  - apply includes_cons_char in Hc as [Hac Hc].
    apply includes_cons_char in Hq as [Haq Hq].
    simpl in Hl. apply orb_false_iff in Hl as [Hal Hl].
    rewrite string_app_cons. simpl.
    rewrite decide_False by done. rewrite Hal.
    rewrite IH by done. by rewrite snoc_app.
Qed.

(** A quoted field is read back with its doubled quotes undone. *)
Lemma scan_quoted (t cur : string) (row : list string) (rest : string) :
  scan Quoted cur row (replaceAll t dquote_char (dquote +:+ dquote) +:+ rest)
  = scan Quoted (cur +:+ t) row rest.
Proof.
  revert cur. induction t as [|a t IH]; intros cur.
  - by rewrite string_app_nil_r.
  - simpl. case_decide as Ha.
    + subst a. rewrite string_app_assoc. simpl.
      rewrite IH. by rewrite snoc_app.
    + rewrite string_app_cons. simpl. rewrite decide_False by done.
      rewrite IH. by rewrite snoc_app.
Qed.

Lemma scan_at_delimiter (st : State) (cur : string) (row : list string)
    (rest : string) :
  st ≠ Quoted → delimited rest →
  scan st cur row rest = finish cur row rest.
Proof.
  intros Hst [-> | [[r ->] | [r ->]]]; destruct st; simpl; try done;
    by destruct r.
Qed.

(** One exported cell, followed by a delimiter, is read back as the
    trimmed text of the cell. *)
Lemma scan_csv_field (cell : string) (row : list string) (rest : string) :
  csv_safe (trim cell) = true → delimited rest →
  scan FieldStart "" row (csv_field cell +:+ rest)
  = finish (trim cell) row rest.
Proof.
  intros Hsafe Hrest. unfold csv_field, csv_safe in *.
  destruct (includes (trim cell) "," || includes (trim cell) dquote) eqn:Hq.
  - rewrite !string_app_assoc. simpl. rewrite string_app_nil_l.
    rewrite scan_quoted. simpl. rewrite !string_app_nil_l.
    by apply scan_at_delimiter.
  - simpl in Hsafe. apply negb_true_iff in Hsafe.
    apply orb_false_iff in Hq as [Hc Hq].
    destruct (trim cell) as [|a t] eqn:Ht.
    + rewrite string_app_nil_l. by apply scan_at_delimiter.
    + pose proof Hc as Hc'. pose proof Hq as Hq'.
      apply includes_cons_char in Hc' as [Hac Hct].
      apply includes_cons_char in Hq' as [Haq Hqt].
      simpl in Hsafe. apply orb_false_iff in Hsafe as [Hal Hlt].
      rewrite string_app_cons. simpl.
      rewrite !decide_False by done. rewrite Hal.
      rewrite scan_unquoted by done.
      by apply scan_at_delimiter.
Qed.

Lemma join_cons_cons (sep x y : string) (l : list string) :
  join sep (x :: y :: l) = x +:+ sep +:+ join sep (y :: l).
Proof. reflexivity. Qed.

(** A line of the export, at the end of the text or followed by a
    line feed, is read back as one record. *)
Lemma scan_csv_line (cells : list string) (row : list string) (tail : string) :
  cells ≠ [] → Forall (λ c, csv_safe (trim c) = true) cells →
  tail = "" ∨ (∃ r, tail = String "010"%char r) →
  scan FieldStart "" row (csv_line cells +:+ tail)
  = Some ((row ++ map trim cells)%list,
          match tail with String _ r => r | EmptyString => "" end).
Proof.
  intros Hne Hsafe Htail.
  assert (delimited tail) as Hdel by (unfold delimited; tauto).
  revert row. induction cells as [|c cells IH]; intros row; [done|].
  apply Forall_cons in Hsafe as [Hc Hsafe].
  destruct cells as [|c' cells'].
  - unfold csv_line. simpl. rewrite scan_csv_field by done.
    by destruct Htail as [-> | [r ->]].
  - unfold csv_line in *.
    change (map csv_field (c :: c' :: cells'))
      with (csv_field c :: csv_field c' :: map csv_field cells').
    rewrite join_cons_cons, !string_app_assoc, string_app_cons, string_app_nil_l.
    rewrite scan_csv_field; [|done|right; left; by eexists].
    cbn [finish]. rewrite decide_True by done.
    change (csv_field c' :: map csv_field cells')
      with (map csv_field (c' :: cells')).
    rewrite IH by done. by rewrite <- app_assoc.
Qed.

(** Each cell of the export follows the rule of the script. *)
Lemma csv_field_rule (cell : string) :
  (is_substring "," (trim cell) ∨ is_substring dquote (trim cell) →
   csv_field cell
   = dquote +:+ replaceAll (trim cell) dquote_char (dquote +:+ dquote)
       +:+ dquote)
  ∧ (¬ is_substring "," (trim cell) → ¬ is_substring dquote (trim cell) →
     csv_field cell = trim cell).
Proof.
  split.
  - intros H. unfold csv_field.
    assert (includes (trim cell) "," || includes (trim cell) dquote = true) as ->;
      [|done].
    apply orb_true_iff. by rewrite !includes_spec.
  - intros Hc Hq. unfold csv_field.
    assert (includes (trim cell) "," || includes (trim cell) dquote = false) as ->;
      [|done].
    apply orb_false_iff. rewrite <- !not_true_iff_false, !includes_spec. done.
Qed.

(** The table that the export takes: the one with the id, or else the
    first table of the page. *)
Lemma exportTableToCSV_table (by_id first : option t) (table : t) :
  by_id = Some table ∨ (by_id = None ∧ first = Some table) →
  exportTableToCSV by_id first = Some (csvContent table).
Proof. by intros [-> | [-> ->]]. Qed.

(** C9. The text that [exportTableToCSV] builds, for the table with the
    given id or else the first table of the page, is the lines of the
    rows joined by line feeds, and the line of a row is the fields of
    its cells joined by commas.  The field of a cell is its trimmed
    text, unless that text has a comma or a double quote: then every
    double quote is doubled and the whole is wrapped in double quotes.
    The reader of RFC 4180 takes the line of a row back to the trimmed
    cells when no cell has a line break outside quotes.  For the row of
    the two cells [a,b] and [say_hi] the export is the two fields
    quoted, the second with its quotes doubled, and the reader takes it
    back to the two cells. *)
Theorem csv_export_escaping (by_id first : option t) (table : t) :
  by_id = Some table ∨ (by_id = None ∧ first = Some table) →
  (∃ lines,
     exportTableToCSV by_id first = Some (join newline lines)
     ∧ length lines = length (all_rows table)
     ∧ ∀ r row, all_rows table !! r = Some row →
         ∃ fields,
           lines !! r = Some (join "," fields)
           ∧ length fields = length (cells row)
           ∧ (∀ k cell, cells row !! k = Some cell →
                ∃ field, fields !! k = Some field
                  ∧ (is_substring "," (trim cell)
                     ∨ is_substring dquote (trim cell) →
                     field
                     = dquote
                         +:+ replaceAll (trim cell) dquote_char
                               (dquote +:+ dquote)
                         +:+ dquote)
                  ∧ (¬ is_substring "," (trim cell) →
                     ¬ is_substring dquote (trim cell) →
                     field = trim cell))
           ∧ (cells row ≠ [] →
              Forall (λ c, csv_safe (trim c) = true) (cells row) →
              read_record (join "," fields) = Some (map trim (cells row), "")))
  ∧ exportTableToCSV None (Some (mk [] (Some [mkRow 0 ["a,b"; say_hi]])))
    = Some (dquote +:+ "a,b" +:+ dquote +:+ ","
              +:+ dquote +:+ "say " +:+ dquote +:+ dquote +:+ "hi" +:+ dquote
              +:+ dquote +:+ dquote)
  ∧ read_all
      (dquote +:+ "a,b" +:+ dquote +:+ ","
         +:+ dquote +:+ "say " +:+ dquote +:+ dquote +:+ "hi" +:+ dquote
         +:+ dquote +:+ dquote)
    = Some [["a,b"; say_hi]].
Proof.
  intros Htable. split; [|split; vm_compute; reflexivity].
  exists (map (λ row, csv_line (cells row)) (all_rows table)).
  split; [by apply exportTableToCSV_table|].
  split; [by rewrite length_map|].
  intros r row Hrow. exists (map csv_field (cells row)).
  split; [by rewrite list_lookup_fmap, Hrow|].
  split; [by rewrite length_map|]. split.
  - intros k cell Hcell. exists (csv_field cell).
    split; [by rewrite list_lookup_fmap, Hcell|]. apply csv_field_rule.
  - intros Hne Hsafe. fold (csv_line (cells row)). unfold read_record.
    rewrite <- (string_app_nil_r (csv_line (cells row))).
    by rewrite (scan_csv_line (cells row) [] "") by (done || by left).
Qed.

(** C9 on a table with a head and a row of three cells, one of them
    with a comma and quotes. *)
Lemma csv_export_escaping_witness :
  ∃ lines,
    exportTableToCSV None
      (Some (mk [mkRow 0 ["Name"; "Note"; "Kind"]]
                (Some [mkRow 1 [" x, y "; say_hi; "plain"]])))
    = Some (join newline lines)
    ∧ ∃ fields,
        lines !! 1 = Some (join "," fields)
        ∧ read_record (join "," fields) = Some (["x, y"; say_hi; "plain"], "").
Proof.
  destruct (csv_export_escaping None
              (Some (mk [mkRow 0 ["Name"; "Note"; "Kind"]]
                        (Some [mkRow 1 [" x, y "; say_hi; "plain"]])))
              (mk [mkRow 0 ["Name"; "Note"; "Kind"]]
                  (Some [mkRow 1 [" x, y "; say_hi; "plain"]])))
    as [(lines & Hexport & _ & Hrows) _]; [by right|].
  exists lines. split; [exact Hexport|].
  destruct (Hrows 1 (mkRow 1 [" x, y "; say_hi; "plain"]) eq_refl)
    as (fields & Hline & _ & _ & Hread).
  exists fields. split; [exact Hline|].
  apply Hread; [done | repeat constructor].
Defined.

End CsvFacts.

(** ** Table sort *)

Section SortFacts.
Import Table.

Variable parseFloat : string → float.
Variable localeCompare : string → string → float.

Lemma insert_Permutation (comparefn : Row → Row → Completion float)
    (x : Row) (sorted r : list Row) :
  insert comparefn x sorted = Normal r → r ≡ₚ x :: sorted.
Proof.
  revert r. induction sorted as [|y sorted IH]; intros r; simpl.
  - by intros [= <-].
  - destruct (comparefn x y) as [v|e]; simpl; [|done].
    destruct (PrimFloat.ltb 0 v).
    + destruct (insert comparefn x sorted) as [r'|e]; simpl; [|done].
      intros [= <-]. rewrite (IH r' eq_refl). apply perm_swap.
    + by intros [= <-].
Qed.

Lemma array_sort_Permutation (comparefn : Row → Row → Completion float)
    (l r : list Row) :
  array_sort comparefn l = Normal r → r ≡ₚ l.
Proof.
  revert r. induction l as [|x l IH]; intros r; simpl.
  - by intros [= <-].
  - destruct (array_sort comparefn l) as [s|e]; simpl; [|done].
    intros Hins%insert_Permutation. by rewrite Hins, (IH s eq_refl).
Qed.

(** Appending the nodes of [rows] one after the other moves them, in
    this order, behind the children that are not among them. *)
Lemma foldl_appendChild (rows children : list Row) :
  NoDup (map row_id rows) →
  foldl appendChild children rows
  = (List.filter (λ r, bool_decide (row_id r ∉ map row_id rows)) children
      ++ rows)%list.
Proof.
  revert children. induction rows as [|x rows IH]; intros children Hnd.
  - simpl. rewrite app_nil_r.
    induction children as [|c cs IHc]; simpl; [done | by rewrite <- IHc].
  - apply NoDup_cons in Hnd as [Hx Hnd]. simpl. rewrite IH by done.
    unfold appendChild. rewrite List.filter_app. simpl.
    rewrite bool_decide_eq_true_2 by done.
    rewrite <- app_assoc. simpl. f_equal.
    clear. induction children as [|c cs IHc]; [done|]. simpl.
    destruct (row_id c =? row_id x)%nat eqn:Hcx; simpl.
    + apply Nat.eqb_eq in Hcx.
      rewrite bool_decide_eq_false_2; [done|].
      intros Hn. apply Hn. rewrite Hcx. apply list_elem_of_here.
    + apply Nat.eqb_neq in Hcx. rewrite IHc.
      destruct (decide (row_id c ∈ map row_id rows)) as [Hin|Hnin].
      * rewrite !bool_decide_eq_false_2; [done | |].
        -- intros Hn. apply Hn. by apply list_elem_of_further.
        -- by intros Hn.
      * rewrite !bool_decide_eq_true_2; [done | |done].
        intros [?|?]%elem_of_cons; done.
Qed.

Lemma appendChild_sorted (rows body : list Row) :
  NoDup (map row_id body) → rows ≡ₚ body →
  foldl appendChild body rows = rows.
Proof.
  intros Hnd Hperm.
  assert (map row_id rows ≡ₚ map row_id body) as Hids by by rewrite Hperm.
  rewrite foldl_appendChild by by rewrite Hids.
  assert (List.filter (λ r, bool_decide (row_id r ∉ map row_id rows)) body = [])
    as ->; [|done].
  clear Hnd. assert (∀ r, r ∈ body → row_id r ∈ map row_id rows) as Hin.
  { intros r Hr. rewrite Hids. by apply list_elem_of_fmap_2. }
  clear Hperm Hids. induction body as [|c cs IH]; [done|]. simpl.
  rewrite bool_decide_eq_false_2.
  - apply IH. intros r Hr. by apply Hin, list_elem_of_further.
  - intros Hn. apply Hn, Hin, list_elem_of_here.
Qed.

(** C10. [sortTable] only reorders the rows of the table body: whatever
    the column and the mode, and whether the call returns or throws, the
    rows of the body afterwards are a permutation of the rows before, and
    the head is untouched. *)
Theorem sortTable_permutes (table : t) (columnIndex : nat) (isNumeric : bool)
    (body : list Row) :
  tbody table = Some body →
  NoDup (map row_id body) →
  ∃ body',
    tbody (sortTable parseFloat localeCompare table columnIndex isNumeric).1
    = Some body'
    ∧ body' ≡ₚ body
    ∧ thead (sortTable parseFloat localeCompare table columnIndex isNumeric).1
      = thead table.
Proof.
  intros Hbody Hnd. unfold sortTable. rewrite Hbody.
  destruct (array_sort _ body) as [rows|e] eqn:Hsort; simpl.
  - apply array_sort_Permutation in Hsort.
    exists rows. by rewrite (appendChild_sorted rows body Hnd Hsort).
  - by exists body.
Qed.

End SortFacts.

(** C10 on the three rows 10, 2, 1, sorted as numbers. *)
Lemma sortTable_permutes_witness :
  ∃ body',
    Table.tbody
      (Table.sortTable
         (λ s, if String.eqb s "10" then 10%float
               else if String.eqb s "2" then 2%float else 1%float)
         (λ _ _, 0%float)
         (Table.mk []
            (Some [Table.mkRow 0 ["10"]; Table.mkRow 1 ["2"];
                   Table.mkRow 2 ["1"]]))
         0 true).1 = Some body'
    ∧ body' ≡ₚ [Table.mkRow 0 ["10"]; Table.mkRow 1 ["2"]; Table.mkRow 2 ["1"]].
Proof.
  destruct (sortTable_permutes
              (λ s, if String.eqb s "10" then 10%float
                    else if String.eqb s "2" then 2%float else 1%float)
              (λ _ _, 0%float)
              (Table.mk []
                 (Some [Table.mkRow 0 ["10"]; Table.mkRow 1 ["2"];
                        Table.mkRow 2 ["1"]]))
              0 true
              [Table.mkRow 0 ["10"]; Table.mkRow 1 ["2"]; Table.mkRow 2 ["1"]]
              eq_refl)
    as (body' & Hbody & Hperm & _).
  - compute_done.
  - exists body'. split; [exact Hbody | exact Hperm].
Defined.

(** ** Edge cases the script leaves as they are *)

Section EdgeCases.
Import JsString.

(** With no searchable element in the container the filter pass is a
    no-op: no status line is created or updated. *)
Lemma performSearch_no_searchable (inp : Search.SearchInput)
    (elements : list Search.Element) :
  Search.container inp = Some elements →
  Search.searchable_of elements = [] →
  Search.performSearch inp = Normal inp.
Proof.
  intros Hc Hnone. unfold Search.performSearch. rewrite Hc.
  fold (Search.searchable_of elements). by rewrite Hnone.
Qed.

(** Without an enclosing card or container the filter pass throws. *)
Lemma performSearch_no_container (inp : Search.SearchInput) :
  Search.container inp = None →
  Search.performSearch inp = Throw TypeError.
Proof. intros Hc. unfold Search.performSearch. by rewrite Hc. Qed.

(** A cell with a line break but neither comma nor quote is exported
    unquoted, and the reader ends the record at the line break. *)
Lemma csv_line_break_splits_record :
  Rfc4180.read_record (Table.csv_line ["a" +:+ Table.newline +:+ "b"; "c"])
  = Some (["a"], "b,c").
Proof. vm_compute. reflexivity. Qed.

(** A missing cell in the sort column makes the comparator throw; the
    table is left as it was. *)
Lemma sortTable_missing_cell (parseFloat : string → float)
    (localeCompare : string → string → float) :
  Table.sortTable parseFloat localeCompare
    (Table.mk [] (Some [Table.mkRow 0 ["x"; "1"]; Table.mkRow 1 ["y"]]))
    1 true
  = (Table.mk [] (Some [Table.mkRow 0 ["x"; "1"]; Table.mkRow 1 ["y"]]),
     Throw TypeError).
Proof. reflexivity. Qed.

End EdgeCases.

(** * Further properties of the script *)

(** ** The submit listener of the validation *)

Section SubmitFacts.
Import Page.

Lemma alter_as_insert {A : Type} (g : A → A) (i : nat) (l : list A) (x : A) :
  l !! i = Some x → alter g i l = <[i := g x]> l.
Proof.
  intros Hx. apply list_eq. intros k.
  destruct (decide (k = i)) as [->|Hki].
  - rewrite list_lookup_alter_eq, Hx.
    by rewrite list_lookup_insert_eq by by eapply lookup_lt_Some.
  - by rewrite list_lookup_alter_ne, list_lookup_insert_ne by done.
Qed.

Lemma set_inputs_same (fm : Form) : set_inputs (inputs fm) fm = fm.
Proof. by destruct fm. Qed.

Lemma set_submit_button_same (fm : Form) :
  set_submit_button (submit_button fm) fm = fm.
Proof. by destruct fm. Qed.

Lemma set_forms_same (w : Window) : set_forms (forms w) w = w.
Proof. by destruct w. Qed.

(** [first_invalid] finds the least index of an invalid field. *)
Lemma first_invalid_Some (fs : list Field) (j : nat) :
  first_invalid fs = Some j →
  (∃ f, fs !! j = Some f ∧ field_valid f = false)
  ∧ ∀ j' f', j' < j → fs !! j' = Some f' → field_valid f' = true.
Proof.
  revert j. induction fs as [|f fs IH]; intros j; simpl; [done|].
  destruct (field_valid f) eqn:Hf.
  - destruct (first_invalid fs) as [n|]; simpl; [|done].
    intros [= <-]. destruct (IH n eq_refl) as [Hn Hbefore]. split; [done|].
    intros [|j'] f' Hlt Hf'; simpl in Hf'.
    + by injection Hf' as <-.
    + apply (Hbefore j'); [lia | done].
  - intros [= <-]. split; [by exists f|]. intros j' f' Hlt. lia.
Qed.

Lemma first_invalid_is_Some (fs : list Field) :
  forallb field_valid fs = false → is_Some (first_invalid fs).
Proof.
  induction fs as [|f fs IH]; simpl; [done|].
  destruct (field_valid f); simpl; [|by eexists].
  intros H. destruct (IH H) as [n ->]. by eexists.
Qed.

(** On an invalid form the selector finds the outermost fieldset around
    the first invalid control, or that control. *)
Lemma querySelector_invalid_Some (i : nat) (fm : Form) :
  checkValidity fm = false →
  ∃ j f, inputs fm !! j = Some f ∧ field_valid f = false
    ∧ (∀ j' f', j' < j → inputs fm !! j' = Some f' → field_valid f' = true)
    ∧ querySelector_invalid i fm
      = Some (match fieldset (control f) with
              | Some k => FieldsetNode i k
              | None => FieldNode i j
              end).
Proof.
  intros Hinv. destruct (first_invalid_is_Some (inputs fm) Hinv) as [j Hj].
  destruct (first_invalid_Some (inputs fm) j Hj) as [(f & Hf & Hfv) Hbefore].
  exists j, f. repeat split; try done.
  unfold querySelector_invalid. rewrite Hj. simpl. by rewrite Hf.
Qed.

Lemma validateField_idemp (f : Field) :
  validateField (validateField f) = validateField f.
Proof.
  unfold validateField.
  destruct (constraint (control f) (value f)) eqn:Hc; simpl; by rewrite Hc.
Qed.

Lemma validateField_frame (f : Field) :
  name (validateField f) = name f ∧ value (validateField f) = value f
  ∧ control (validateField f) = control f.
Proof. unfold validateField. by destruct (constraint (control f) (value f)). Qed.

Lemma forms_update_field (i j : nat) (g : Field → Field) (w : Window) (fm : Form) :
  forms w !! i = Some fm →
  forms (update_field i j g w)
  = <[i := set_inputs (alter g j (inputs fm)) fm]> (forms w).
Proof.
  intros Hfm. unfold update_field, update_form. simpl.
  by rewrite (alter_as_insert _ i (forms w) fm Hfm).
Qed.

Lemma alter_idemp {A : Type} (g : A → A) (i : nat) (l : list A) :
  (∀ x, g (g x) = g x) → alter g i (alter g i l) = alter g i l.
Proof.
  intros Hg. apply list_eq. intros k.
  destruct (decide (i = k)) as [->|Hne].
  - rewrite !list_lookup_alter_eq. destruct (l !! k) as [x|]; [|done].
    simpl. by rewrite Hg.
  - by rewrite !list_lookup_alter_ne.
Qed.

(** Validating a field twice is validating it once. *)
Lemma update_field_validateField_idemp (i j : nat) (w : Window) :
  update_field i j validateField (update_field i j validateField w)
  = update_field i j validateField w.
Proof.
  unfold update_field, update_form, set_forms. simpl. f_equal.
  apply alter_idemp. intros fm. unfold set_inputs. simpl. f_equal.
  apply alter_idemp, validateField_idemp.
Qed.

(** The blur listeners leave the page as it was, or validate the field
    that lost the focus, in a form marked validated. *)
Lemma dispatch_blur_cases (n : option Node) (w : Window) :
  dispatch_blur n w = w
  ∨ ∃ i j fm, n = Some (FieldNode i j) ∧ forms w !! i = Some fm
      ∧ was_validated fm = true
      ∧ dispatch_blur n w = update_field i j validateField w.
Proof.
  destruct n as [[i j|i k]|]; simpl; [|by left..].
  destruct (get_field w i j) as [f|] eqn:Hf; [|by left].
  unfold get_field in Hf. destruct (forms w !! i) as [fm|] eqn:Hfm; [|done].
  destruct (was_validated fm) eqn:Hv.
  - assert (∀ ls w', w' = w ∨ w' = update_field i j validateField w →
              foldl (λ w'' l, run_blur_listener l i j w'') w' ls = w
              ∨ foldl (λ w'' l, run_blur_listener l i j w'') w' ls
                = update_field i j validateField w) as Hfold.
    { induction ls as [|l ls IH]; intros w' Hw'; simpl; [done|].
      apply IH. right. destruct l. simpl. unfold validate_on_blur.
      destruct Hw' as [-> | ->].
      - by rewrite Hfm, Hv.
      - rewrite (forms_update_field i j _ w fm Hfm).
        rewrite list_lookup_insert_eq by by eapply lookup_lt_Some.
        simpl. rewrite Hv. apply update_field_validateField_idemp. }
    destruct (Hfold (blur_listeners f) w) as [-> | ->]; [by left | by left |].
    right. by exists i, j, fm.
  - left. generalize (blur_listeners f). intros ls.
    induction ls as [|l ls IH]; simpl; [done|].
    destruct l. simpl. unfold validate_on_blur. by rewrite Hfm, Hv.
Qed.

(** A form after the element [n] has lost the focus: as it was, or
    with one field validated if the form was marked validated. *)
Lemma form_after_blur (n : option Node) (w : Window) (i : nat) (fm : Form) :
  forms w !! i = Some fm →
  forms (dispatch_blur n w) !! i = Some fm
  ∨ ∃ j, n = Some (FieldNode i j) ∧ was_validated fm = true
      ∧ forms (dispatch_blur n w) !! i
        = Some (set_inputs (alter validateField j (inputs fm)) fm).
Proof.
  intros Hfm.
  destruct (dispatch_blur_cases n w) as [-> | (i0 & j & fm0 & -> & Hfm0 & Hv & ->)];
    [by left|].
  rewrite (forms_update_field i0 j _ w fm0 Hfm0).
  destruct (decide (i = i0)) as [->|Hne].
  - rewrite list_lookup_insert_eq by by eapply lookup_lt_Some.
    rewrite Hfm in Hfm0. injection Hfm0 as <-. right. by exists j.
  - rewrite list_lookup_insert_ne by done. by left.
Qed.

Lemma form_after_focus (n : Node) (w : Window) (i : nat) (fm : Form) :
  forms w !! i = Some fm →
  forms (focus n w) !! i = Some fm
  ∨ ∃ j, activeElement w = Some (FieldNode i j) ∧ was_validated fm = true
      ∧ forms (focus n w) !! i
        = Some (set_inputs (alter validateField j (inputs fm)) fm).
Proof.
  intros Hfm. unfold focus.
  destruct (can_focus n w && negb (bool_decide (activeElement w = Some n)));
    [|by left].
  simpl. apply (form_after_blur (activeElement w) w i fm Hfm).
Qed.

Lemma form_after_blur_event (w : Window) (i : nat) (fm : Form) :
  forms w !! i = Some fm →
  forms (blur w) !! i = Some fm
  ∨ ∃ j, activeElement w = Some (FieldNode i j) ∧ was_validated fm = true
      ∧ forms (blur w) !! i
        = Some (set_inputs (alter validateField j (inputs fm)) fm).
Proof. intros Hfm. apply (form_after_blur (activeElement w) w i fm Hfm). Qed.

(** A submit event on a wired form: the forms, the focus and the
    timers are as the validation listener leaves them. *)
Lemma fire_submit_frame (i : nat) (w : Window) (fm : Form) :
  forms w !! i = Some fm → wired fm →
  (fire_submit i w).1 = (validate_on_submit i (mkEvent false false false) w).1
  ∧ forms (fire_submit i w).2
    = forms (validate_on_submit i (mkEvent false false false) w).2
  ∧ activeElement (fire_submit i w).2
    = activeElement (validate_on_submit i (mkEvent false false false) w).2
  ∧ notifications (fire_submit i w).2 = notifications w
  ∧ timeouts (fire_submit i w).2
    = timeouts (validate_on_submit i (mkEvent false false false) w).2.
Proof.
  intros Hfm Hw. rewrite (fire_submit_wired i w fm Hfm Hw).
  cbn zeta. cbn [fst snd].
  destruct (validate_on_submit_frame i (mkEvent false false false) w) as [_ Hn].
  destruct (bool_decide (AutosaveClear ∈ submit_listeners fm)); [|done].
  by destruct (autosave_clear_frame i
                 (validate_on_submit i (mkEvent false false false) w).2)
    as (-> & -> & -> & ->).
Qed.

(** The validation listener on a valid form. *)
Lemma validate_on_submit_valid (i : nat) (ev : Event) (w : Window) (fm : Form) :
  forms w !! i = Some fm → checkValidity fm = true →
  (validate_on_submit i ev w).1 = ev
  ∧ forms (validate_on_submit i ev w).2
    = <[i := set_was_validated
               (set_submit_button
                  ((λ _, mkButton true true spinner) <$> submit_button fm) fm)]>
        (forms w)
  ∧ activeElement (validate_on_submit i ev w).2 = activeElement w
  ∧ timeouts (validate_on_submit i ev w).2
    = (timeouts w
        ++ from_option (λ b, [(3000, RestoreButton i (innerHTML b))]) []
             (submit_button fm))%list.
Proof.
  intros Hfm Hval. unfold validate_on_submit. rewrite Hfm, Hval. simpl.
  destruct (submit_button fm) as [b|] eqn:Hb; simpl.
  - repeat split; try done. unfold update_form. simpl.
    rewrite (alter_as_insert _ i (forms w) fm Hfm).
    rewrite (alter_as_insert _ i _
               (set_submit_button (Some (mkButton true true spinner)) fm))
      by (by rewrite list_lookup_insert_eq by by eapply lookup_lt_Some).
    by rewrite list_insert_insert_eq.
  - rewrite app_nil_r. repeat split; try done.
    rewrite (alter_as_insert _ i (forms w) fm Hfm).
    by rewrite <- Hb, set_submit_button_same.
Qed.

(** The validation listener on an invalid form: [focus()] on the first
    match of the selector, then the mark. *)
Lemma validate_on_submit_invalid (i : nat) (ev : Event) (w : Window) (fm : Form)
    (n : Node) :
  forms w !! i = Some fm → checkValidity fm = false →
  querySelector_invalid i fm = Some n →
  (validate_on_submit i ev w).2 = update_form i set_was_validated (focus n w).
Proof.
  intros Hfm Hinv Hn. unfold validate_on_submit. by rewrite Hfm, Hinv, Hn.
Qed.

End SubmitFacts.

Section SubmitOutcome.
Import Page.

(** X1. On a loaded page, a submit event on a form that fails constraint
    validation is prevented and its propagation stopped.  [focus()] is
    called on the first match of [:invalid], which is the outermost
    fieldset around the first invalid control, or that control when it
    is in no fieldset: the focus moves there when that element can take
    it, and stays where it was otherwise.  The form is marked validated;
    its submit button and the values of its fields are as before, and a
    field is as before altogether unless it held the focus in a form
    already marked validated; no timer is added. *)
Theorem invalid_submit_is_blocked (document : list FormMarkup) (st : Storage.t)
    (es : list PageEvent) (i : nat) (fm : Form) :
  forms (page_run (load document st) es) !! i = Some fm →
  checkValidity fm = false →
  defaultPrevented (fire_submit i (page_run (load document st) es)).1 = true
  ∧ propagationStopped (fire_submit i (page_run (load document st) es)).1 = true
  ∧ (∃ j f,
       inputs fm !! j = Some f ∧ field_valid f = false
       ∧ (∀ j' f', j' < j → inputs fm !! j' = Some f' → field_valid f' = true)
       ∧ activeElement (fire_submit i (page_run (load document st) es)).2
         = match fieldset (control f) with
           | None =>
               if focusable (control f) then Some (FieldNode i j)
               else activeElement (page_run (load document st) es)
           | Some k =>
               if default false (fieldsets fm !! k) then Some (FieldsetNode i k)
               else activeElement (page_run (load document st) es)
           end)
  ∧ (∃ fm',
       forms (fire_submit i (page_run (load document st) es)).2 !! i = Some fm'
       ∧ was_validated fm' = true
       ∧ submit_button fm' = submit_button fm
       ∧ ∀ j' f', inputs fm !! j' = Some f' →
           ∃ f'', inputs fm' !! j' = Some f'' ∧ value f'' = value f'
             ∧ (activeElement (page_run (load document st) es)
                  ≠ Some (FieldNode i j')
                ∨ was_validated fm = false → f'' = f'))
  ∧ timeouts (fire_submit i (page_run (load document st) es)).2
    = timeouts (page_run (load document st) es).
Proof.
  intros Hfm Hinv.
  pose proof (wired_page_run document st es i fm Hfm) as Hw.
  set (w := page_run (load document st) es) in *.
  set (ev0 := mkEvent false false false).
  destruct (fire_submit_frame i w fm Hfm Hw) as (Hev & Hforms & Hact & _ & Htime).
  fold ev0 in Hev, Hforms, Hact, Htime.
  rewrite Hev, Hforms, Hact, Htime.
  destruct (validate_on_submit_blocks i ev0 w fm Hfm Hinv) as [Hp Hs].
  split; [done|]. split; [done|].
  destruct (querySelector_invalid_Some i fm Hinv) as (j & f & Hf & Hfv & Hbefore & Hn).
  rewrite (validate_on_submit_invalid i ev0 w fm _ Hfm Hinv Hn).
  assert (i < length (forms w)) as Hlen by by eapply lookup_lt_Some.
  split; [|split].
  - exists j, f. repeat split; try done.
    unfold update_form. simpl. rewrite activeElement_focus.
    destruct (fieldset (control f)) as [k|]; simpl.
    + by rewrite Hfm.
    + unfold get_field. rewrite Hfm. simpl. by rewrite Hf.
  - unfold update_form. simpl. rewrite list_lookup_alter_eq.
    destruct (form_after_focus
                match fieldset (control f) with
                | Some k => FieldsetNode i k
                | None => FieldNode i j
                end w i fm Hfm)
      as [-> | (j0 & Hact0 & Hv0 & ->)]; simpl.
    + eexists. split; [done|]. repeat split; try done.
      intros j' f' Hf'. by exists f'.
    + eexists. split; [done|]. repeat split; try done. simpl.
      intros j' f' Hf'. destruct (decide (j0 = j')) as [->|Hne].
      * rewrite list_lookup_alter_eq, Hf'. simpl. eexists. split; [done|].
        destruct (validateField_frame f') as (_ & Hval & _). split; [done|].
        intros [Hother | Hnv]; [done | congruence].
      * rewrite list_lookup_alter_ne by done. by exists f'.
  - unfold update_form. simpl. by destruct (focus_frame
      match fieldset (control f) with
      | Some k => FieldsetNode i k
      | None => FieldNode i j
      end w) as (_ & _ & ->).
Qed.

(** X1 on a form whose second field is required, empty and inside a
    fieldset: the submission is prevented and the focus does not move. *)
Lemma invalid_submit_is_blocked_witness :
  defaultPrevented
    (fire_submit 0
       (page_run
          (load [mkFormMarkup false [false]
                   [mkFieldMarkup "plate" "AB-123" (text_input JsString.truthy);
                    mkFieldMarkup "owner" ""
                      (in_fieldset 0 (text_input JsString.truthy))]
                   (Some "Save")]
                (Storage.mk ∅ 100)) [Focus (FieldNode 0 0)])).1 = true
  ∧ activeElement
      (fire_submit 0
         (page_run
            (load [mkFormMarkup false [false]
                     [mkFieldMarkup "plate" "AB-123" (text_input JsString.truthy);
                      mkFieldMarkup "owner" ""
                        (in_fieldset 0 (text_input JsString.truthy))]
                     (Some "Save")]
                  (Storage.mk ∅ 100)) [Focus (FieldNode 0 0)])).2
    = Some (FieldNode 0 0).
Proof.
  edestruct (invalid_submit_is_blocked
               [mkFormMarkup false [false]
                  [mkFieldMarkup "plate" "AB-123" (text_input JsString.truthy);
                   mkFieldMarkup "owner" ""
                     (in_fieldset 0 (text_input JsString.truthy))]
                  (Some "Save")]
               (Storage.mk ∅ 100) [Focus (FieldNode 0 0)] 0)
    as (Hprev & _ & (j & f & Hj & Hf & _ & Hact) & _);
    [vm_compute; reflexivity | reflexivity |].
  split; [exact Hprev|]. rewrite Hact.
  destruct j as [|[|j]]; simpl in Hj;
    [injection Hj as <-; vm_compute in Hf; discriminate Hf
    | injection Hj as <-; reflexivity | discriminate Hj].
Defined.

(** X2. On a loaded page, a submit event on a valid form is not
    prevented; the focus stays; the form is marked validated; its submit
    button, when it has one, becomes disabled and loading with the
    spinner markup, and a timer of 3000 is added that carries the label
    the button had. *)
Theorem valid_submit_shows_saving (document : list FormMarkup) (st : Storage.t)
    (es : list PageEvent) (i : nat) (fm : Form) :
  forms (page_run (load document st) es) !! i = Some fm →
  checkValidity fm = true →
  (fire_submit i (page_run (load document st) es)).1 = mkEvent false false false
  ∧ activeElement (fire_submit i (page_run (load document st) es)).2
    = activeElement (page_run (load document st) es)
  ∧ forms (fire_submit i (page_run (load document st) es)).2 !! i
    = Some (set_was_validated
              (set_submit_button
                 ((λ _, mkButton true true spinner) <$> submit_button fm) fm))
  ∧ timeouts (fire_submit i (page_run (load document st) es)).2
    = (timeouts (page_run (load document st) es)
        ++ from_option (λ b, [(3000, RestoreButton i (innerHTML b))]) []
             (submit_button fm))%list.
Proof.
  intros Hfm Hval.
  pose proof (wired_page_run document st es i fm Hfm) as Hw.
  set (w := page_run (load document st) es) in *.
  destruct (fire_submit_frame i w fm Hfm Hw) as (Hev & Hforms & Hact & _ & Htime).
  destruct (validate_on_submit_valid i (mkEvent false false false) w fm Hfm Hval)
    as (Hev' & Hforms' & Hact' & Htime').
  rewrite Hev, Hforms, Hact, Htime, Hev', Hforms', Hact', Htime'.
  repeat split; try done.
  by rewrite list_lookup_insert_eq by by eapply lookup_lt_Some.
Qed.

(** X2 on a valid form with a Save button. *)
Lemma valid_submit_shows_saving_witness :
  timeouts
    (fire_submit 0
       (page_run
          (load [mkFormMarkup true []
                   [mkFieldMarkup "plate" "AB-123" (text_input JsString.truthy)]
                   (Some "Save")]
                (Storage.mk ∅ 100)) [])).2
  = [(3000, RestoreButton 0 "Save")].
Proof.
  edestruct (valid_submit_shows_saving
               [mkFormMarkup true []
                  [mkFieldMarkup "plate" "AB-123" (text_input JsString.truthy)]
                  (Some "Save")]
               (Storage.mk ∅ 100) [] 0)
    as (_ & _ & _ & Htime);
    [vm_compute; reflexivity | reflexivity |].
  exact Htime.
Defined.

End SubmitOutcome.

(** ** Live validation *)

Section LiveValidation.
Import Page.

Lemma page_run_snoc (w : Window) (es : list PageEvent) (e : PageEvent) :
  page_run w (es ++ [e]) = page_step (page_run w es) e.
Proof. unfold page_run. by rewrite foldl_app. Qed.

Lemma page_run_app (w : Window) (es es' : list PageEvent) :
  page_run w (es ++ es') = page_run (page_run w es) es'.
Proof. unfold page_run. by rewrite foldl_app. Qed.

Lemma forms_before_persist (i j : nat) (v : string) (w : Window)
    (fm : Form) (f : Field) :
  forms w !! i = Some fm → inputs fm !! j = Some f →
  forms (before_persist i j v w)
  = <[i := set_inputs
             (<[j := changed_field (was_validated fm) v f]> (inputs fm)) fm]>
      (forms w).
Proof.
  intros Hfm Hf.
  assert (i < length (forms w)) as Hi by by eapply lookup_lt_Some.
  assert (j < length (inputs fm)) as Hj by by eapply lookup_lt_Some.
  unfold before_persist, validate_on_input, update_field, update_form. simpl.
  rewrite (alter_as_insert _ i (forms w) fm Hfm).
  rewrite list_lookup_insert_eq by done. simpl.
  rewrite (alter_as_insert _ j (inputs fm) f Hf).
  unfold changed_field. destruct (was_validated fm); simpl; [|done].
  rewrite (alter_as_insert _ i _
             (set_inputs (<[j:=set_value v f]> (inputs fm)) fm))
    by by rewrite list_lookup_insert_eq.
  rewrite list_insert_insert_eq. simpl.
  rewrite (alter_as_insert _ j _ (set_value v f))
    by by rewrite list_lookup_insert_eq.
  by rewrite list_insert_insert_eq.
Qed.

(** The listeners that follow the validation listener leave the forms
    and the focus alone. *)
Lemma forms_user_input (i j : nat) (v : string) (w : Window)
    (fm : Form) (f : Field) :
  forms w !! i = Some fm → wired fm →
  inputs fm !! j = Some f →
  forms (user_input i j v w)
  = <[i := set_inputs
             (<[j := changed_field (was_validated fm) v f]> (inputs fm)) fm]>
      (forms w).
Proof.
  intros Hfm [_ Hfields] Hf.
  destruct (Hfields j f Hf) as [_ Hls].
  pose proof (get_field_Some w i j fm f Hfm Hf) as Hget.
  rewrite <- (forms_before_persist i j v w fm f Hfm Hf).
  destruct Hls as [Hls | [_ Hls]].
  - by rewrite (user_input_plain i j v w f Hget Hls).
  - rewrite (user_input_unfold i j v w f Hget Hls).
    rewrite (autosave_persist_unfold i j v w f Hget).
    by destruct (Storage.setItem (localStorage w) (autosave_key f) v).
Qed.

Lemma unstyled_blurred (fm : Form) (j : nat) :
  unstyled fm → was_validated fm = true →
  unstyled (set_inputs (alter validateField j (inputs fm)) fm).
Proof. intros [Hv _] Hv'. congruence. Qed.

(** One form over one event of a page whose forms are wired: the mark
    of validation stays once set, a submit event on the form sets it,
    and any other event leaves an unstyled form unstyled. *)
Lemma form_after_step (w : Window) (e : PageEvent) (i : nat) (fm : Form) :
  (∀ k fmk, forms w !! k = Some fmk → wired fmk) →
  forms w !! i = Some fm →
  ∃ fm', forms (page_step w e) !! i = Some fm'
    ∧ (was_validated fm = true → was_validated fm' = true)
    ∧ (e = Submit i → was_validated fm' = true)
    ∧ (e ≠ Submit i → unstyled fm → unstyled fm').
Proof.
  intros Hwired Hfm.
  assert (i < length (forms w)) as Hlen by by eapply lookup_lt_Some.
  assert (∀ j, was_validated
                 (set_inputs (alter validateField j (inputs fm)) fm)
               = was_validated fm) as Hbv by done.
  destruct e as [i0 j0 v|i0|n|]; cbn [page_step].
  - destruct (forms w !! i0) as [fm0|] eqn:Hfm0.
    2:{ unfold user_input, get_field. rewrite Hfm0. simpl. by exists fm. }
    destruct (inputs fm0 !! j0) as [f0|] eqn:Hf0.
    2:{ unfold user_input, get_field. rewrite Hfm0. simpl. rewrite Hf0.
        by exists fm. }
    rewrite (forms_user_input i0 j0 v w fm0 f0 Hfm0 (Hwired _ _ Hfm0) Hf0).
    destruct (decide (i0 = i)) as [->|Hne].
    + rewrite list_lookup_insert_eq by done.
      rewrite Hfm in Hfm0. injection Hfm0 as <-.
      eexists. split; [done|]. split; [done|]. split; [done|].
      intros _ [Hnv Hnone]. split; [done|]. simpl. intros j f.
      destruct (decide (j0 = j)) as [->|Hnj].
      * rewrite list_lookup_insert_eq by by eapply lookup_lt_Some.
        intros [= <-]. rewrite Hnv. simpl. by apply (Hnone j).
      * rewrite list_lookup_insert_ne by done. apply Hnone.
    + rewrite list_lookup_insert_ne by done. by exists fm.
  - destruct (forms w !! i0) as [fm0|] eqn:Hfm0.
    2:{ unfold fire_submit. rewrite Hfm0. simpl. exists fm.
        split; [done|]. split; [done|]. split; [|done].
        intros [= ->]. congruence. }
    destruct (fire_submit_frame i0 w fm0 Hfm0 (Hwired _ _ Hfm0))
      as (_ & -> & _).
    destruct (checkValidity fm0) eqn:Hval.
    + destruct (validate_on_submit_valid i0 (mkEvent false false false) w fm0
                  Hfm0 Hval) as (_ & -> & _).
      destruct (decide (i0 = i)) as [->|Hne].
      * rewrite list_lookup_insert_eq by done.
        eexists. split; [done|]. split; [done|]. split; [done|].
        by intros [].
      * rewrite list_lookup_insert_ne by done. exists fm.
        split; [done|]. split; [done|]. split; [|done].
        intros [= ->]. done.
    + destruct (querySelector_invalid_Some i0 fm0 Hval)
        as (j & f & _ & _ & _ & Hn).
      rewrite (validate_on_submit_invalid i0 _ w fm0 _ Hfm0 Hval Hn).
      unfold update_form. simpl.
      destruct (form_after_focus
                  match fieldset (control f) with
                  | Some k => FieldsetNode i0 k
                  | None => FieldNode i0 j
                  end w i fm Hfm) as [Hsame | (j1 & _ & Hv1 & Hbl)].
      * destruct (decide (i0 = i)) as [->|Hne].
        -- rewrite list_lookup_alter_eq, Hsame. simpl.
           eexists. split; [done|]. split; [done|]. split; [done|].
           by intros [].
        -- rewrite list_lookup_alter_ne, Hsame by done. exists fm.
           split; [done|]. split; [done|]. split; [|done].
           intros [= ->]. done.
      * destruct (decide (i0 = i)) as [->|Hne].
        -- rewrite list_lookup_alter_eq, Hbl. simpl.
           eexists. split; [done|]. split; [done|]. split; [done|].
           by intros [].
        -- rewrite list_lookup_alter_ne, Hbl by done.
           eexists. split; [done|]. split; [done|]. split.
           ++ intros [= ->]. done.
           ++ intros _ Hu. by apply unstyled_blurred.
  - destruct (form_after_focus n w i fm Hfm) as [-> | (j1 & _ & Hv1 & ->)].
    + by exists fm.
    + eexists. split; [done|]. split; [done|]. split; [done|].
      intros _ Hu. by apply unstyled_blurred.
  - destruct (form_after_blur_event w i fm Hfm) as [-> | (j1 & _ & Hv1 & ->)].
    + by exists fm.
    + eexists. split; [done|]. split; [done|]. split; [done|].
      intros _ Hu. by apply unstyled_blurred.
Qed.

(** Every form of a page that has been loaded stays where it is. *)
Lemma form_exists_before (document : list FormMarkup) (st : Storage.t)
    (es es' : list PageEvent) (i : nat) (fm : Form) :
  forms (page_run (load document st) (es ++ es')) !! i = Some fm →
  is_Some (forms (page_run (load document st) es) !! i).
Proof.
  intros Hfm. rewrite page_run_app in Hfm.
  destruct (shape_lookup _ (page_run (load document st) es) i fm
              (eq_sym (shape_page_run _ es')) Hfm) as (fm0 & -> & _).
  by eexists.
Qed.

(** Once a form of a loaded page is marked validated, it stays so. *)
Lemma validated_stays (document : list FormMarkup) (st : Storage.t)
    (es es' : list PageEvent) (i : nat) (fm fm' : Form) :
  forms (page_run (load document st) es) !! i = Some fm →
  was_validated fm = true →
  forms (page_run (load document st) (es ++ es')) !! i = Some fm' →
  was_validated fm' = true.
Proof.
  revert es fm. induction es' as [|e es' IH]; intros es fm Hfm Hv Hfm'.
  - rewrite app_nil_r in Hfm'. congruence.
  - destruct (form_after_step (page_run (load document st) es) e i fm
                (wired_page_run document st es) Hfm) as (fm1 & Hfm1 & Hv1 & _).
    rewrite <- page_run_snoc in Hfm1.
    apply (IH (es ++ [e])%list fm1 Hfm1 (Hv1 Hv)).
    by rewrite <- app_assoc.
Qed.

(** The blur listener on the field that has the focus, in a form
    marked validated. *)
Lemma forms_blur_validated (w : Window) (i j : nat) (fm : Form) (f : Field) :
  forms w !! i = Some fm → wired fm → inputs fm !! j = Some f →
  was_validated fm = true →
  activeElement w = Some (FieldNode i j) →
  forms (blur w) = <[i := set_inputs (<[j := validateField f]> (inputs fm)) fm]>
                     (forms w).
Proof.
  intros Hfm [_ Hfields] Hf Hv Hact. destruct (Hfields j f Hf) as [Hbl _].
  unfold blur. simpl. rewrite Hact. simpl.
  rewrite (get_field_Some w i j fm f Hfm Hf), Hbl. simpl.
  unfold validate_on_blur. rewrite Hfm, Hv.
  rewrite (forms_update_field i j _ w fm Hfm).
  by rewrite (alter_as_insert _ j (inputs fm) f Hf).
Qed.

(** X3. On a loaded page, once a form has received a submit event,
    valid or not, and whatever has happened since, a change of one of
    its fields to [v] marks the field is-valid or is-invalid as its
    constraint holds of [v]; and when the focus leaves one of its
    fields, the field is marked as its constraint holds of its value. *)
Theorem live_validation_after_submit (document : list FormMarkup)
    (st : Storage.t) (es es' : list PageEvent) (i j : nat) (fm : Form)
    (f : Field) (v : string) :
  forms (page_run (load document st) (es ++ Submit i :: es')) !! i = Some fm →
  inputs fm !! j = Some f →
  (∃ f',
     get_field
       (user_input i j v (page_run (load document st) (es ++ Submit i :: es')))
       i j = Some f'
     ∧ name f' = name f
     ∧ value f' = v
     ∧ validity_class f' = Some (constraint (control f) v))
  ∧ (activeElement (page_run (load document st) (es ++ Submit i :: es'))
     = Some (FieldNode i j) →
     ∃ f',
       get_field
         (page_step (page_run (load document st) (es ++ Submit i :: es')) Blur)
         i j = Some f'
       ∧ name f' = name f
       ∧ value f' = value f
       ∧ validity_class f' = Some (constraint (control f) (value f))).
Proof.
  intros Hfm Hf.
  assert (was_validated fm = true) as Hv.
  { destruct (form_exists_before document st es (Submit i :: es') i fm Hfm)
      as [fm0 Hfm0].
    destruct (form_after_step (page_run (load document st) es) (Submit i) i fm0
                (wired_page_run document st es) Hfm0)
      as (fm1 & Hfm1 & _ & Hv1 & _).
    rewrite <- page_run_snoc in Hfm1.
    apply (validated_stays document st (es ++ [Submit i])%list es' i fm1 fm Hfm1);
      [by apply Hv1|].
    by rewrite <- app_assoc. }
  pose proof (wired_page_run document st _ i fm Hfm) as Hw.
  split.
  - unfold get_field.
    rewrite (forms_user_input i j v _ fm f Hfm Hw Hf).
    rewrite list_lookup_insert_eq by by eapply lookup_lt_Some.
    simpl. rewrite list_lookup_insert_eq by by eapply lookup_lt_Some.
    eexists. split; [reflexivity|].
    rewrite Hv. unfold changed_field, validateField. simpl.
    by destruct (constraint (control f) v).
  - intros Hact. unfold get_field. cbn [page_step].
    rewrite (forms_blur_validated _ i j fm f Hfm Hw Hf Hv Hact).
    rewrite list_lookup_insert_eq by by eapply lookup_lt_Some.
    simpl. rewrite list_lookup_insert_eq by by eapply lookup_lt_Some.
    eexists. split; [reflexivity|].
    unfold validateField. by destruct (constraint (control f) (value f)).
Qed.

(** X3 on a required field that the user fills, leaves and then
    empties, after a submit. *)
Lemma live_validation_after_submit_witness :
  ∃ f',
    get_field
      (user_input 0 0 ""
         (page_run
            (load [mkFormMarkup false []
                     [mkFieldMarkup "plate" "AB-123" (text_input JsString.truthy)]
                     None]
                  (Storage.mk ∅ 100))
            ([Focus (FieldNode 0 0)]
               ++ Submit 0 :: [UserInput 0 0 "AB-1234"; Blur])))
      0 0 = Some f'
    ∧ validity_class f' = Some false.
Proof.
  edestruct (live_validation_after_submit
               [mkFormMarkup false []
                  [mkFieldMarkup "plate" "AB-123" (text_input JsString.truthy)]
                  None]
               (Storage.mk ∅ 100)
               [Focus (FieldNode 0 0)] [UserInput 0 0 "AB-1234"; Blur] 0 0)
    as [(f' & Hget & _ & _ & Hclass) _];
    [vm_compute; reflexivity | reflexivity |].
  exists f'. split; [exact Hget | exact Hclass].
Defined.

End LiveValidation.

Section BeforeFirstSubmit.
Import Page.




End BeforeFirstSubmit.

(** ** What the listeners do to the store *)

Section StoreEffects.
Import Page.

(** X5. On a loaded page, a change of a field leaves every entry of the
    store other than the field's own alone, whether the write is
    accepted or rejected; a field of a form that is not marked for
    autosave leaves the whole store alone. *)
Theorem persist_touches_own_key_only (document : list FormMarkup)
    (st : Storage.t) (es : list PageEvent) (i j : nat) (fm : Form)
    (f : Field) (v : string) :
  forms (page_run (load document st) es) !! i = Some fm →
  inputs fm !! j = Some f →
  (∀ key, key ≠ autosave_key f →
     Storage.getItem
       (localStorage (user_input i j v (page_run (load document st) es))) key
     = Storage.getItem (localStorage (page_run (load document st) es)) key)
  ∧ (data_autosave fm = false →
     localStorage (user_input i j v (page_run (load document st) es))
     = localStorage (page_run (load document st) es)).
Proof.
  intros Hfm Hf.
  destruct (wired_page_run document st es i fm Hfm) as [_ Hfields].
  destruct (Hfields j f Hf) as [_ Hls].
  set (w := page_run (load document st) es) in *.
  pose proof (get_field_Some w i j fm f Hfm Hf) as Hget.
  destruct Hls as [Hls | [Ha Hls]].
  - assert (localStorage (user_input i j v w) = localStorage w) as Hsame.
    { rewrite (user_input_plain i j v w f Hget Hls).
      apply localStorage_before_persist. }
    split; [|done]. intros key _. by rewrite Hsame.
  - split; [|by rewrite Ha]. intros key Hkey.
    destruct (decide (Storage.used
                        (<[autosave_key f := v]> (Storage.items (localStorage w)))
                      ≤ Storage.quota (localStorage w))%nat) as [Hacc|Hrej].
    + destruct (user_input_accepted i j v w f Hget Hls Hacc) as [-> _].
      unfold Storage.getItem. simpl. by rewrite lookup_insert_ne.
    + by destruct (user_input_rejected i j v w f Hget Hls Hrej) as (_ & -> & _).
Qed.

(** X5 on a page whose store holds another entry. *)
Lemma persist_touches_own_key_only_witness :
  Storage.getItem
    (localStorage
       (user_input 0 0 "a@b"
          (page_run
             (load [mkFormMarkup true []
                      [mkFieldMarkup "email" "" (text_input (λ _, true))] None]
                   (Storage.mk {["autosave_plate" := "AB-123"]} 100)) [])))
    "autosave_plate" = Some "AB-123".
Proof.
  edestruct (persist_touches_own_key_only
               [mkFormMarkup true []
                  [mkFieldMarkup "email" "" (text_input (λ _, true))] None]
               (Storage.mk {["autosave_plate" := "AB-123"]} 100) [] 0 0)
    as [Hother _]; [vm_compute; reflexivity | reflexivity |].
  rewrite (Hother "autosave_plate"); [reflexivity | discriminate].
Defined.

(** X6. On a page whose initialisation ran to its end, a submit event
    on a form removes from the store exactly the entries of that form's
    fields when the form is marked for autosave, and nothing otherwise:
    every other entry is as it was. *)
Theorem submit_removes_own_entries_only (document : list FormMarkup)
    (st : Storage.t) (es : list PageEvent) (i : nat) (fm : Form) (key : string) :
  initialized document st →
  forms (page_run (load document st) es) !! i = Some fm →
  (data_autosave fm = true → key ∈ autosave_key <$> inputs fm →
     Storage.getItem
       (localStorage (fire_submit i (page_run (load document st) es)).2) key
     = None)
  ∧ (data_autosave fm = false ∨ key ∉ autosave_key <$> inputs fm →
     Storage.getItem
       (localStorage (fire_submit i (page_run (load document st) es)).2) key
     = Storage.getItem (localStorage (page_run (load document st) es)) key).
Proof.
  intros Hinit Hfm.
  destruct (loaded_listeners document st es i fm Hinit Hfm) as [Hls _].
  rewrite (getItem_fire_submit i _ fm key Hfm
             (wired_page_run document st es i fm Hfm)), Hls.
  split.
  - intros -> Hin.
    rewrite bool_decide_eq_true_2
      by apply list_elem_of_further, list_elem_of_here.
    by rewrite bool_decide_eq_true_2.
  - intros [-> | Hnin].
    + rewrite bool_decide_eq_false_2; [done|].
      intros [?|?%elem_of_nil]%elem_of_cons; done.
    + rewrite (bool_decide_eq_false_2 (key ∈ _)) by done.
      by rewrite andb_false_r.
Qed.

(** X6 on a page with one autosave form and an entry of another page. *)
Lemma submit_removes_own_entries_only_witness :
  Storage.getItem
    (localStorage
       (fire_submit 0
          (page_run
             (load [mkFormMarkup true []
                      [mkFieldMarkup "email" "" (text_input (λ _, true))] None]
                   (Storage.mk
                      (<["autosave_plate" := "AB-123"]>
                         {["autosave_email" := "a@b"]}) 100)) [])).2)
    "autosave_plate" = Some "AB-123".
Proof.
  edestruct (λ fm,
               submit_removes_own_entries_only
                 [mkFormMarkup true []
                    [mkFieldMarkup "email" "" (text_input (λ _, true))] None]
                 (Storage.mk
                    (<["autosave_plate" := "AB-123"]>
                       {["autosave_email" := "a@b"]}) 100) [] 0 fm
                 "autosave_plate")
    as [_ Hkeep]; [vm_compute; reflexivity | vm_compute; reflexivity |].
  rewrite Hkeep; [reflexivity|].
  right. intros [Heq | Hin]%elem_of_cons; [discriminate Heq|].
  by apply elem_of_nil in Hin.
Defined.

(** X7. On a page whose initialisation ran to its end, after a submit
    event on an autosave form, the next load restores nothing into a
    field that has the name of one of the form's fields: the field
    shows the value of its markup. *)
Theorem submit_then_load_restores_nothing (document : list FormMarkup)
    (st : Storage.t) (es : list PageEvent) (i : nat) (fm : Form) (f : Field)
    (document' : list FormMarkup) (i' j' : nat) (m' : FormMarkup)
    (fk' : FieldMarkup) :
  initialized document st →
  forms (page_run (load document st) es) !! i = Some fm →
  data_autosave fm = true →
  f ∈ inputs fm →
  document' !! i' = Some m' → m_autosave m' = true →
  m_inputs m' !! j' = Some fk' →
  m_name fk' = name f →
  ∃ f',
    get_field
      (load document'
         (localStorage (fire_submit i (page_run (load document st) es)).2))
      i' j' = Some f'
    ∧ value f' = m_value fk'.
Proof.
  intros Hinit Hfm Ha Hf Hm' Ha' Hfk' Hname.
  destruct (load_field_any document'
              (localStorage (fire_submit i (page_run (load document st) es)).2)
              i' j' m' fk' Hm' Hfk') as (f' & Hget & _ & _ & Hv).
  exists f'. split; [done|].
  destruct Hv as [Hv | (saved & Hsaved & _)]; [done|]. exfalso.
  destruct (loaded_listeners document st es i fm Hinit Hfm) as [Hls _].
  rewrite Ha in Hls.
  rewrite (getItem_fire_submit i _ fm _ Hfm
             (wired_page_run document st es i fm Hfm)), Hls in Hsaved.
  rewrite bool_decide_eq_true_2 in Hsaved
    by apply list_elem_of_further, list_elem_of_here.
  rewrite bool_decide_eq_true_2 in Hsaved; [done|].
  rewrite Hname. fold (autosave_key f). by apply list_elem_of_fmap_2.
Qed.

(** X7 on a form that is submitted after a change. *)
Lemma submit_then_load_restores_nothing_witness :
  ∃ f',
    get_field
      (load [mkFormMarkup true []
               [mkFieldMarkup "email" "" (text_input (λ _, true))] None]
         (localStorage
            (fire_submit 0
               (page_run
                  (load [mkFormMarkup true []
                           [mkFieldMarkup "email" "" (text_input (λ _, true))]
                           None]
                        (Storage.mk ∅ 100))
                  [UserInput 0 0 "a@b"])).2))
      0 0 = Some f'
    ∧ value f' = "".
Proof.
  edestruct (λ fm f,
               submit_then_load_restores_nothing
                 [mkFormMarkup true []
                    [mkFieldMarkup "email" "" (text_input (λ _, true))] None]
                 (Storage.mk ∅ 100) [UserInput 0 0 "a@b"] 0 fm f
                 [mkFormMarkup true []
                    [mkFieldMarkup "email" "" (text_input (λ _, true))] None]
                 0 0)
    as (f' & Hget & Hv);
    [vm_compute; reflexivity | vm_compute; reflexivity | reflexivity
    | apply list_elem_of_here | reflexivity .. |].
  exists f'. split; [exact Hget | exact Hv].
Defined.

End StoreEffects.

(** ** Notifications and listeners over the life of a page *)

Section PageLife.
Import Page.

Lemma scheduled_ext (w w' : Window) :
  timeouts w' = timeouts w → notifications w' = notifications w →
  all_dismissals_scheduled w → all_dismissals_scheduled w'.
Proof. unfold all_dismissals_scheduled. by intros -> ->. Qed.

Lemma scheduled_showNotification (msg ty : string) (w : Window) :
  all_dismissals_scheduled w → all_dismissals_scheduled (showNotification msg ty w).
Proof.
  unfold all_dismissals_scheduled, dismissals. simpl. intros H.
  rewrite omap_app, H, length_app. simpl.
  rewrite Nat.add_1_r, seq_S, map_app. done.
Qed.

Lemma timeouts_validate_on_input (i j : nat) (w : Window) :
  timeouts (validate_on_input i j w) = timeouts w.
Proof.
  unfold validate_on_input. destruct (forms w !! i) as [fm|]; [|done].
  by destruct (was_validated fm).
Qed.

Lemma scheduled_validate_on_submit (i : nat) (ev : Event) (w : Window) :
  all_dismissals_scheduled w →
  all_dismissals_scheduled (validate_on_submit i ev w).2.
Proof.
  unfold all_dismissals_scheduled, validate_on_submit. intros H.
  destruct (forms w !! i) as [fm|]; [|done].
  destruct (negb (checkValidity fm)); simpl.
  - destruct (querySelector_invalid i fm) as [n|]; [|done].
    by destruct (focus_frame n w) as (_ & -> & ->).
  - destruct (submit_button fm); simpl; [|done].
    unfold dismissals in *. rewrite omap_app. simpl. by rewrite app_nil_r.
Qed.

(** What every event keeps: a property of the notifications and the
    timers that the error listener keeps and that does not depend on
    the restore timers of buttons. *)
Lemma scheduled_page_step (w : Window) (e : PageEvent) :
  all_dismissals_scheduled w → all_dismissals_scheduled (page_step w e).
Proof.
  intros HJ. destruct e as [i j v|i|n|]; cbn [page_step].
  - unfold user_input. destruct (get_field w i j) as [f|]; [|done].
    assert (all_dismissals_scheduled (update_field i j (set_value v) w)) as HJ'
      by done.
    revert HJ'. generalize (update_field i j (set_value v) w).
    induction (input_listeners f) as [|l ls IH]; intros w' HJ'; simpl; [done|].
    apply IH. destruct l; simpl.
    + apply (scheduled_ext w'); [| |done].
      * apply timeouts_validate_on_input.
      * apply notifications_validate_on_input.
    + unfold autosave_persist. destruct (get_field w' i j) as [f'|]; [|done].
      destruct (Storage.setItem (localStorage w') (autosave_key f') (value f'));
        simpl; [done|].
      by apply scheduled_showNotification.
  - unfold fire_submit. destruct (forms w !! i) as [fm|]; [|done].
    generalize (mkEvent false false false). revert w HJ.
    induction (submit_listeners fm) as [|l ls IH]; intros w HJ ev; simpl; [done|].
    destruct (run_submit_listener l i ev w) as [ev' w'] eqn:Hrun.
    assert (all_dismissals_scheduled w') as HJ'.
    { destruct l; simpl in Hrun.
      - assert (w' = (validate_on_submit i ev w).2) as -> by by rewrite Hrun.
        by apply scheduled_validate_on_submit.
      - injection Hrun as _ <-.
        destruct (autosave_clear_frame i w) as (_ & _ & Hn & Ht).
        by apply (scheduled_ext w). }
    destruct (immediatePropagationStopped ev'); simpl; [done|].
    by apply IH.
  - destruct (focus_frame n w) as (_ & Hn & Ht). by apply (scheduled_ext w).
  - destruct (blur_frame w) as (_ & Hn & Ht). by apply (scheduled_ext w).
Qed.

Lemma notifications_page_step (w : Window) (e : PageEvent) :
  Forall
    (λ n, n = mkNotification
                "An unexpected error occurred. Please refresh the page and try again."
                "danger")
    (notifications w) →
  Forall
    (λ n, n = mkNotification
                "An unexpected error occurred. Please refresh the page and try again."
                "danger")
    (notifications (page_step w e)).
Proof.
  intros HF. destruct e as [i j v|i|n|]; cbn [page_step].
  - unfold user_input. destruct (get_field w i j) as [f|]; [|done].
    assert (notifications (update_field i j (set_value v) w) = notifications w)
      as Hn by done.
    rewrite <- Hn in HF. revert HF. clear Hn.
    generalize (update_field i j (set_value v) w).
    induction (input_listeners f) as [|l ls IH]; intros w' HF; simpl; [done|].
    apply IH. destruct l; simpl.
    + by rewrite notifications_validate_on_input.
    + unfold autosave_persist. destruct (get_field w' i j) as [f'|]; [|done].
      destruct (Storage.setItem (localStorage w') (autosave_key f') (value f'));
        simpl; [done|].
      apply Forall_app. split; [done|]. by constructor.
  - unfold fire_submit. destruct (forms w !! i) as [fm|]; [|done].
    generalize (mkEvent false false false). revert w HF.
    induction (submit_listeners fm) as [|l ls IH]; intros w HF ev; simpl;
      [done|].
    destruct (run_submit_listener l i ev w) as [ev' w'] eqn:Hrun.
    assert (notifications w' = notifications w) as Hn.
    { destruct l; simpl in Hrun.
      - assert (w' = (validate_on_submit i ev w).2) as -> by by rewrite Hrun.
        by destruct (validate_on_submit_frame i ev w) as [_ ->].
      - injection Hrun as _ <-.
        by destruct (autosave_clear_frame i w) as (_ & _ & -> & _). }
    rewrite <- Hn in HF.
    destruct (immediatePropagationStopped ev'); simpl; [done|].
    by apply IH.
  - by destruct (focus_frame n w) as (_ & -> & _).
  - by destruct (blur_frame w) as (_ & -> & _).
Qed.

Lemma load_cases (document : list FormMarkup) (st : Storage.t) :
  load document st = (initializeApp (render document st)).1
  ∨ ∃ e, load document st = on_error e (initializeApp (render document st)).1.
Proof.
  unfold load. cbv zeta.
  destruct (initializeApp (render document st)).2 as [u|e]; [by left|].
  right. by exists e.
Qed.

(** [initializeApp] shows no notification and sets no timer itself. *)
Lemma initializeApp_frame (document : list FormMarkup) (st : Storage.t) :
  notifications (initializeApp (render document st)).1 = []
  ∧ timeouts (initializeApp (render document st)).1 = [].
Proof. done. Qed.

(** X19. On a loaded page, whatever changes, moves of the focus and
    submit events follow, every notification that has been shown has
    its removal scheduled after 5000, one each and in the order shown;
    and every notification is the generic error message (only the error
    listener shows one). *)
Theorem notifications_are_dismissed (document : list FormMarkup)
    (st : Storage.t) (es : list PageEvent) :
  all_dismissals_scheduled (page_run (load document st) es)
  ∧ Forall
      (λ n, n = mkNotification
                  "An unexpected error occurred. Please refresh the page and try again."
                  "danger")
      (notifications (page_run (load document st) es)).
Proof.
  destruct (initializeApp_frame document st) as [Hn0 Ht0].
  split.
  - assert (all_dismissals_scheduled (load document st)) as H0.
    { destruct (load_cases document st) as [-> | [e ->]].
      - unfold all_dismissals_scheduled. by rewrite Hn0, Ht0.
      - apply scheduled_showNotification.
        unfold all_dismissals_scheduled. by rewrite Hn0, Ht0. }
    revert H0. generalize (load document st).
    induction es as [|e es IH]; intros w HJ; [done|]. simpl.
    by apply IH, scheduled_page_step.
  - assert (Forall
              (λ n, n = mkNotification
                          "An unexpected error occurred. Please refresh the page and try again."
                          "danger")
              (notifications (load document st))) as H0.
    { destruct (load_cases document st) as [-> | [e ->]].
      - rewrite Hn0. constructor.
      - unfold on_error, showNotification. cbn [notifications].
        rewrite Hn0. by repeat constructor. }
    revert H0. generalize (load document st).
    induction es as [|e es IH]; intros w HF; [done|]. simpl.
    by apply IH, notifications_page_step.
Qed.

(** X20. Listeners are registered at load and never after: on a page
    whose initialisation ran to its end, whatever events have happened,
    a form carries the validation listener and, exactly when it is
    marked for autosave, the clearing listener after it; each of its
    fields carries the blur listener of the validation, its input
    listener and, exactly when the form is marked for autosave, the
    persisting listener after it. *)
Theorem listeners_are_fixed_at_load (document : list FormMarkup)
    (st : Storage.t) (es : list PageEvent) (i : nat) (fm : Form) :
  initialized document st →
  forms (page_run (load document st) es) !! i = Some fm →
  submit_listeners fm
  = (if data_autosave fm then [ValidateOnSubmit; AutosaveClear]
     else [ValidateOnSubmit])
  ∧ ∀ j f, inputs fm !! j = Some f →
      blur_listeners f = [ValidateOnBlur]
      ∧ input_listeners f
        = if data_autosave fm then [ValidateOnInput; AutosavePersist]
          else [ValidateOnInput].
Proof.
  intros Hinit Hfm.
  destruct (loaded_listeners document st es i fm Hinit Hfm) as [Hsub Hin].
  destruct (wired_page_run document st es i fm Hfm) as [_ Hfields].
  split; [done|]. intros j f Hf. split; [|by apply (Hin j)].
  by destruct (Hfields j f Hf) as [Hb _].
Qed.

(** X20 on a page with a plain form, after a submit and a change. *)
Lemma listeners_are_fixed_at_load_witness :
  submit_listeners
    (mkForm false []
       [mkField "plate" "x" (text_input JsString.truthy) (Some true)
          [ValidateOnBlur] [ValidateOnInput]]
       None true [ValidateOnSubmit])
  = [ValidateOnSubmit].
Proof.
  destruct (listeners_are_fixed_at_load
              [mkFormMarkup false []
                 [mkFieldMarkup "plate" "AB-123" (text_input JsString.truthy)]
                 None]
              (Storage.mk ∅ 100) [Submit 0; UserInput 0 0 "x"] 0
              (mkForm false []
                 [mkField "plate" "x" (text_input JsString.truthy) (Some true)
                    [ValidateOnBlur] [ValidateOnInput]]
                 None true [ValidateOnSubmit]))
    as [Hsub _];
    [vm_compute; reflexivity | vm_compute; reflexivity | exact Hsub].
Defined.

End PageLife.

(** ** When the initialisation runs to its end *)

Section InitialisationOutcome.
Import Page.




End InitialisationOutcome.

(** ** More on the filter pass *)

Section FilterPassMore.
Import JsString Search.

Lemma performSearch_unfold (inp : SearchInput) (elements : list Element) :
  container inp = Some elements →
  searchable_of elements ≠ [] →
  performSearch inp
  = Normal
      (updateSearchResultCount
         (mkSearchInput (value inp)
            (Some (filter_elements (term_of inp) elements)) (search_count inp))
         (length (List.filter shown
                    (searchable_of (filter_elements (term_of inp) elements))))
         (length (searchable_of elements))).
Proof.
  intros Hc Hne. unfold performSearch. rewrite Hc.
  fold (searchable_of elements).
  destruct (length (searchable_of elements) =? 0)%nat eqn:Hlen; [|done].
  apply Nat.eqb_eq, length_zero_iff_nil in Hlen. done.
Qed.

Lemma performSearch_none (inp : SearchInput) (elements : list Element) :
  container inp = Some elements →
  searchable_of elements = [] →
  performSearch inp = Normal inp.
Proof.
  intros Hc Hnone. unfold performSearch. rewrite Hc.
  fold (searchable_of elements). by rewrite Hnone.
Qed.

Lemma searchable_of_filter_elements (term : string) (elements : list Element) :
  searchable_of (filter_elements term elements)
  = filter_elements term (searchable_of elements).
Proof.
  unfold searchable_of, filter_elements.
  induction elements as [|e es IH]; [done|]. simpl.
  destruct (data_searchable e) eqn:He; simpl; rewrite ?He; simpl; by rewrite IH.
Qed.

Lemma filter_elements_idemp (term : string) (elements : list Element) :
  filter_elements term (filter_elements term elements)
  = filter_elements term elements.
Proof.
  unfold filter_elements.
  induction elements as [|e es IH]; [done|]. simpl. rewrite IH. f_equal.
  destruct (data_searchable e) eqn:He; simpl; by rewrite He.
Qed.

Lemma filter_elements_nil (term : string) (elements : list Element) :
  filter_elements term elements = [] ↔ elements = [].
Proof. unfold filter_elements. by destruct elements. Qed.

Lemma truthy_trim_term (inp : SearchInput) :
  truthy (trim (value inp)) = truthy (term_of inp).
Proof.
  unfold term_of. destruct (truthy (trim (toLowerCase (value inp)))) eqn:Ht.
  - apply truthy_true. apply truthy_true in Ht. intros H. apply Ht.
    by apply trim_toLowerCase_empty.
  - apply truthy_false. apply truthy_false in Ht.
    by apply trim_toLowerCase_empty.
Qed.

(** X9. A filter pass is idempotent: running it again on its own result,
    with the text unchanged, changes neither an element nor the status
    line. *)
Theorem performSearch_idempotent (inp inp' : SearchInput) :
  performSearch inp = Normal inp' → performSearch inp' = Normal inp'.
Proof.
  destruct (container inp) as [elements|] eqn:Hc.
  2:{ unfold performSearch. by rewrite Hc. }
  destruct (searchable_of elements) as [|e0 es0] eqn:Hs.
  - rewrite (performSearch_none inp elements Hc Hs). intros [= <-].
    by apply (performSearch_none inp elements).
  - assert (searchable_of elements ≠ []) as Hne by by rewrite Hs.
    rewrite (performSearch_unfold inp elements Hc Hne). intros [= <-].
    set (els' := filter_elements (term_of inp) elements).
    assert (searchable_of els' ≠ []) as Hne'.
    { unfold els'. rewrite searchable_of_filter_elements.
      by rewrite filter_elements_nil. }
    match goal with |- performSearch ?x = _ => set (inp1 := x) end.
    assert (container inp1 = Some els') as Hc1 by reflexivity.
    rewrite (performSearch_unfold inp1 els' Hc1 Hne'). unfold inp1.
    f_equal. unfold updateSearchResultCount, term_of. simpl.
    fold (term_of inp). unfold els' at 1 2.
    rewrite !filter_elements_idemp. fold els'.
    assert (length (searchable_of els') = length (searchable_of elements)) as ->.
    { unfold els'. rewrite searchable_of_filter_elements.
      unfold filter_elements. by rewrite length_map. }
    f_equal. f_equal. by destruct (truthy (trim (value inp))).
Qed.

(** X10. The outcome of a filter pass depends on the text only through
    its trimmed, lower-cased form: two inputs with the same container and
    status line whose texts differ only in case and in surrounding white
    space end with the same elements and the same status line. *)
Theorem performSearch_normalises (inp1 inp2 r1 : SearchInput) :
  container inp1 = container inp2 →
  search_count inp1 = search_count inp2 →
  term_of inp1 = term_of inp2 →
  performSearch inp1 = Normal r1 →
  ∃ r2, performSearch inp2 = Normal r2
    ∧ container r2 = container r1
    ∧ search_count r2 = search_count r1.
Proof.
  intros Hc Hcount Hterm.
  destruct (container inp1) as [elements|] eqn:Hc1.
  2:{ unfold performSearch. by rewrite Hc1. }
  symmetry in Hc.
  destruct (searchable_of elements) as [|e0 es0] eqn:Hs.
  - rewrite (performSearch_none inp1 elements Hc1 Hs). intros [= <-].
    exists inp2. rewrite (performSearch_none inp2 elements Hc Hs).
    by rewrite Hc, Hc1.
  - assert (searchable_of elements ≠ []) as Hne by by rewrite Hs.
    rewrite (performSearch_unfold inp1 elements Hc1 Hne). intros [= <-].
    eexists. rewrite (performSearch_unfold inp2 elements Hc Hne).
    split; [reflexivity|]. unfold updateSearchResultCount. simpl.
    by rewrite !truthy_trim_term, Hterm, Hcount.
Qed.

(** X10 on the texts ABC with a space after it and abc. *)
Lemma performSearch_normalises_witness :
  ∃ r2,
    performSearch
      (mkSearchInput "abc" (Some [mkElement true "xxABCxx" ""]) None)
    = Normal r2
    ∧ search_count r2 = Some (mkCountElement "Showing 1 of 1 results" "block").
Proof.
  destruct (performSearch_normalises
              (mkSearchInput "ABC " (Some [mkElement true "xxABCxx" ""]) None)
              (mkSearchInput "abc" (Some [mkElement true "xxABCxx" ""]) None)
              (mkSearchInput "ABC " (Some [mkElement true "xxABCxx" ""])
                 (Some (mkCountElement "Showing 1 of 1 results" "block"))))
    as (r2 & Hrun & _ & Hcount); [reflexivity .. |].
  exists r2. split; [exact Hrun | exact Hcount].
Defined.

Lemma is_substring_trans (a b c : string) :
  is_substring a b → is_substring b c → is_substring a c.
Proof.
  intros (p1 & q1 & ->) (p2 & q2 & ->).
  exists (p2 +:+ p1), (q1 +:+ q2). by rewrite !string_app_assoc.
Qed.

Lemma is_substring_empty (a : string) : is_substring a "" → a = "".
Proof.
  intros ([|c p] & q & H); [|discriminate].
  rewrite string_app_nil_l in H. by destruct a.
Qed.

(** X11. Narrowing the search only hides: when the term of one input
    occurs in the term of another over the same container, every
    searchable element the pass of the longer term leaves visible is
    visible after the pass of the shorter one. *)
Theorem narrowing_only_hides (inp1 inp2 r1 r2 : SearchInput)
    (elements elements2 : list Element) (k : nat) (e2 : Element) :
  container inp1 = Some elements →
  container inp2 = Some elements →
  is_substring (term_of inp1) (term_of inp2) →
  performSearch inp1 = Normal r1 →
  performSearch inp2 = Normal r2 →
  container r2 = Some elements2 →
  elements2 !! k = Some e2 → data_searchable e2 = true → shown e2 = true →
  ∃ elements1 e1,
    container r1 = Some elements1 ∧ elements1 !! k = Some e1
    ∧ data_searchable e1 = true ∧ shown e1 = true.
Proof.
  intros Hc1 Hc2 Hsub.
  destruct (searchable_of elements) as [|e0 es0] eqn:Hs.
  - rewrite (performSearch_none inp1 elements Hc1 Hs).
    rewrite (performSearch_none inp2 elements Hc2 Hs).
    intros [= <-] [= <-] Hr2 Hk He Hshown.
    rewrite Hc2 in Hr2. injection Hr2 as <-. by exists elements, e2.
  - assert (searchable_of elements ≠ []) as Hne by by rewrite Hs.
    rewrite (performSearch_unfold inp1 elements Hc1 Hne).
    rewrite (performSearch_unfold inp2 elements Hc2 Hne).
    intros [= <-] [= <-]. simpl. intros [= <-].
    unfold filter_elements. rewrite list_lookup_fmap.
    destruct (elements !! k) as [e|] eqn:Hk; [|done]. simpl.
    intros [= <-]. destruct (data_searchable e) eqn:He; simpl;
      [|intros; congruence].
    intros _ Hshown.
    eexists _, _. split; [reflexivity|].
    rewrite list_lookup_fmap, Hk. simpl. rewrite He.
    split; [reflexivity|]. split; [done|].
    assert (negb (truthy (term_of inp2))
            || includes (toLowerCase (textContent e)) (term_of inp2) = true)
      as Hv2.
    { destruct (negb (truthy (term_of inp2))
                || includes (toLowerCase (textContent e)) (term_of inp2));
        [done | discriminate Hshown]. }
    assert (negb (truthy (term_of inp1))
            || includes (toLowerCase (textContent e)) (term_of inp1) = true)
      as ->; [|done].
    apply visible_iff. apply visible_iff in Hv2 as [Hempty | Hin].
    + left. rewrite Hempty in Hsub. by apply is_substring_empty.
    + right. by apply (is_substring_trans _ (term_of inp2)).
Qed.

(** X11 on the terms ab and abc. *)
Lemma narrowing_only_hides_witness :
  ∃ elements1 e1,
    container
      (mkSearchInput "ab"
         (Some [mkElement true "xxABCxx" ""; mkElement true "abx" ""])
         (Some (mkCountElement "Showing 2 of 2 results" "block")))
    = Some elements1
    ∧ elements1 !! 0 = Some e1 ∧ data_searchable e1 = true ∧ shown e1 = true.
Proof.
  apply (narrowing_only_hides
           (mkSearchInput "ab"
              (Some [mkElement true "xxABCxx" ""; mkElement true "abx" ""]) None)
           (mkSearchInput "abc"
              (Some [mkElement true "xxABCxx" ""; mkElement true "abx" ""]) None)
           _
           (mkSearchInput "abc"
              (Some [mkElement true "xxABCxx" ""; mkElement true "abx" "none"])
              (Some (mkCountElement "Showing 1 of 2 results" "block")))
           [mkElement true "xxABCxx" ""; mkElement true "abx" ""]
           [mkElement true "xxABCxx" ""; mkElement true "abx" "none"]
           0 (mkElement true "xxABCxx" ""));
    try reflexivity.
  exists "", "c". reflexivity.
Defined.

End FilterPassMore.

Section FilterPassIdempotentWitness.
Import Search.

(** X9 on a container of two elements. *)
Lemma performSearch_idempotent_witness :
  performSearch
    (mkSearchInput "ab"
       (Some [mkElement true "xxABCxx" ""; mkElement true "nope" "none"])
       (Some (mkCountElement "Showing 1 of 2 results" "block")))
  = Normal
      (mkSearchInput "ab"
         (Some [mkElement true "xxABCxx" ""; mkElement true "nope" "none"])
         (Some (mkCountElement "Showing 1 of 2 results" "block"))).
Proof.
  apply (performSearch_idempotent
           (mkSearchInput "ab"
              (Some [mkElement true "xxABCxx" ""; mkElement true "nope" ""])
              None)).
  reflexivity.
Defined.

End FilterPassIdempotentWitness.

(** ** More on the debounce timer *)

Section DebounceMore.
Import Search.

Lemma clearTimeout_other (h : option nat) (q : list Timer) :
  (∀ t, t ∈ q → h ≠ Some (timer_id t)) → clearTimeout h q = q.
Proof.
  destruct h as [id|]; [|done]. simpl. intros Hq.
  induction q as [|t q IH]; [done|]. simpl.
  destruct (timer_id t =? id)%nat eqn:Heq.
  - apply Nat.eqb_eq in Heq. exfalso.
    apply (Hq t); [apply list_elem_of_here | by rewrite Heq].
  - simpl. f_equal. apply IH. intros t' Ht'.
    by apply Hq, list_elem_of_further.
Qed.

(** X12. The closures of different search inputs do not interfere: a
    change of input [i] neither cancels nor starts a timer of another
    input [k], runs no pass, and leaves the text of [k] alone. *)
Theorem debounce_inputs_are_independent (inputs : list SearchInput)
    (before : list SearchEvent) (i k : nat) (v : string) :
  k ≠ i →
  pending_of k (step (run (initializeSearch inputs) before) (Input i v))
  = pending_of k (run (initializeSearch inputs) before)
  ∧ passes (step (run (initializeSearch inputs) before) (Input i v))
    = passes (run (initializeSearch inputs) before)
  ∧ values (step (run (initializeSearch inputs) before) (Input i v)) !! k
    = values (run (initializeSearch inputs) before) !! k.
Proof.
  intros Hki.
  set (s := run (initializeSearch inputs) before).
  assert (Inv s) as (P1 & P2 & P3 & P4) by apply Inv_run, Inv_initializeSearch.
  simpl. destruct (boxes s !! i) as [b|] eqn:Hb; [|done].
  assert (i < length (boxes s)) as Hlen by by eapply lookup_lt_Some.
  unfold on_input. simpl. rewrite list_lookup_insert_eq by done. simpl.
  split; [|split; [done|]].
  - unfold pending_of. simpl. rewrite List.filter_app. simpl.
    rewrite (proj2 (Nat.eqb_neq i k)) by done.
    rewrite app_nil_r, pending_of_clearTimeout.
    apply clearTimeout_other.
    intros t [Ht Ho%Nat.eqb_eq]%elem_of_filter_bool Hh.
    assert (i = owner t) as Hi.
    { apply (P2 t i Ht). unfold held. rewrite list_lookup_fmap, Hb. simpl.
      by rewrite Hh. }
    congruence.
  - unfold values. simpl. rewrite !list_lookup_fmap.
    by rewrite !list_lookup_insert_ne by done.
Qed.

(** X12 on two inputs: typing in the second keeps the timer of the
    first. *)
Lemma debounce_inputs_are_independent_witness :
  pending_of 0
    (step
       (run (initializeSearch
               [mkSearchInput "" None None; mkSearchInput "" None None])
          [Input 0 "a"; Elapse 100])
       (Input 1 "b"))
  = [mkTimer 1 300 0].
Proof.
  destruct (debounce_inputs_are_independent
              [mkSearchInput "" None None; mkSearchInput "" None None]
              [Input 0 "a"; Elapse 100] 1 0 "b") as [Hp _]; [lia|].
  rewrite Hp. reflexivity.
Defined.

(** *** The pass that runs is the filter pass of the text *)

Lemma boxes_fire_other (i : nat) (t : Timer) (s : Loop) :
  owner t ≠ i → boxes (fire t s) !! i = boxes s !! i.
Proof.
  intros Ho. unfold fire. destruct (boxes s !! owner t) as [b|]; [|done].
  destruct (performSearch (input b)); simpl; [|done].
  by rewrite list_lookup_insert_ne.
Qed.

Lemma boxes_fire_own (t : Timer) (s : Loop) (b : Box) :
  boxes s !! owner t = Some b →
  boxes (fire t s) !! owner t
  = Some (mkBox (after_pass (input b)) (searchTimeout b)).
Proof.
  intros Hb. unfold fire, after_pass. rewrite Hb.
  destruct (performSearch (input b)); simpl.
  - by rewrite list_lookup_insert_eq by by eapply lookup_lt_Some.
  - rewrite Hb. by destruct b.
Qed.

Lemma boxes_fold_fire_none (i : nat) (l : list Timer) (s : Loop) :
  List.filter (λ t, (owner t =? i)%nat) l = [] →
  boxes (foldl (λ s' t, fire t s') s l) !! i = boxes s !! i.
Proof.
  revert s. induction l as [|t l IH]; intros s; simpl; [done|].
  destruct (owner t =? i)%nat eqn:Ho; [done|].
  intros Hl. rewrite IH by done.
  apply boxes_fire_other. by apply Nat.eqb_neq.
Qed.

Lemma boxes_fold_fire_one (i : nat) (l : list Timer) (s : Loop) (t : Timer)
    (b : Box) :
  List.filter (λ t, (owner t =? i)%nat) l = [t] →
  boxes s !! i = Some b →
  boxes (foldl (λ s' t, fire t s') s l) !! i
  = Some (mkBox (after_pass (input b)) (searchTimeout b)).
Proof.
  revert s. induction l as [|t0 l IH]; intros s; simpl; [done|].
  destruct (owner t0 =? i)%nat eqn:Ho.
  - apply Nat.eqb_eq in Ho. intros [= -> Hl] Hb.
    rewrite boxes_fold_fire_none by done.
    rewrite <- Ho in *. by apply boxes_fire_own.
  - intros Hl Hb. apply IH; [done|].
    rewrite boxes_fire_other; [done|]. by apply Nat.eqb_neq.
Qed.

(** X13. When a search input changes to [v] and is then left alone for
    the delay, its container and status line are those the filter pass
    of [v] gives, or are unchanged if that pass throws; the closure
    holds the handle of the timer that ran. *)
Theorem change_then_quiet_runs_filter (inputs : list SearchInput)
    (before : list SearchEvent) (i : nat) (b : Box) (v : string) (d : nat) :
  boxes (run (initializeSearch inputs) before) !! i = Some b →
  (delay ≤ d)%nat →
  boxes (run (initializeSearch inputs) (before ++ [Input i v; Elapse d])) !! i
  = Some
      (mkBox
         (after_pass
            (mkSearchInput v (container (input b)) (search_count (input b))))
         (Some (next_id (run (initializeSearch inputs) before)))).
Proof.
  intros Hb Hd. rewrite run_app.
  set (s := run (initializeSearch inputs) before) in *.
  assert (Inv s) as HI by apply Inv_run, Inv_initializeSearch.
  destruct (step_Input_arms s i b v HI Hb)
    as [(HI1 & Hv1 & (t & Ht & Hdue) & _) _].
  rewrite run_cons. change (run ?x [Elapse d]) with (step x (Elapse d)).
  assert (boxes (step s (Input i v)) !! i
          = Some (mkBox (mkSearchInput v (container (input b))
                           (search_count (input b)))
                        (Some (next_id s)))) as Hb1.
  { assert (i < length (boxes s)) as Hlen by by eapply lookup_lt_Some.
    simpl. rewrite Hb. unfold on_input. simpl.
    rewrite list_lookup_insert_eq by done. simpl.
    by rewrite list_lookup_insert_eq by by rewrite length_insert. }
  set (s1 := step s (Input i v)) in *.
  cbn [step].
  apply (boxes_fold_fire_one i _ _ t
           (mkBox (mkSearchInput v (container (input b)) (search_count (input b)))
                  (Some (next_id s)))); [|exact Hb1].
  rewrite filter_bool_comm. fold (pending_of i s1). rewrite Ht. simpl.
  assert (is_due (now s1 + d) t = true) as ->; [|done].
  unfold is_due. apply Nat.leb_le. lia.
Qed.

(** X13 on an input whose container has one matching element. *)
Lemma change_then_quiet_runs_filter_witness :
  boxes
    (run (initializeSearch
            [mkSearchInput ""
               (Some [mkElement true "Ford" ""; mkElement true "Opel" ""]) None])
       ([] ++ [Input 0 "fo"; Elapse 300])) !! 0
  = Some
      (mkBox
         (mkSearchInput "fo"
            (Some [mkElement true "Ford" ""; mkElement true "Opel" "none"])
            (Some (mkCountElement "Showing 1 of 2 results" "block")))
         (Some 1)).
Proof.
  rewrite (change_then_quiet_runs_filter
             [mkSearchInput ""
                (Some [mkElement true "Ford" ""; mkElement true "Opel" ""]) None]
             [] 0
             (mkBox
                (mkSearchInput ""
                   (Some [mkElement true "Ford" ""; mkElement true "Opel" ""])
                   None) None)
             "fo" 300);
    [reflexivity | reflexivity | unfold delay; lia].
Defined.

End DebounceMore.

(** ** More on the table sort *)

Section SortThrows.
Import Table.

Variable parseFloat : string → float.
Variable localeCompare : string → string → float.
Variable columnIndex : nat.
Variable isNumeric : bool.

Abbreviation cmp := (compare parseFloat localeCompare columnIndex isNumeric).

Lemma compare_Normal (a b : Row) :
  is_Some (cells a !! columnIndex) → is_Some (cells b !! columnIndex) →
  ∃ v, cmp a b = Normal v.
Proof. intros [ca Ha] [cb Hb]. unfold compare. rewrite Ha, Hb. by eexists. Qed.

Lemma compare_Throw (a b : Row) :
  cells a !! columnIndex = None ∨ cells b !! columnIndex = None →
  cmp a b = Throw TypeError.
Proof.
  unfold compare. intros [Ha | Hb].
  - by rewrite Ha.
  - rewrite Hb. by destruct (cells a !! columnIndex).
Qed.

Lemma insert_returns (x : Row) (s : list Row) :
  is_Some (cells x !! columnIndex) →
  Forall (λ r, is_Some (cells r !! columnIndex)) s →
  ∃ r, insert cmp x s = Normal r.
Proof.
  intros Hx. induction s as [|y s IH]; intros Hs; simpl; [by eexists|].
  apply Forall_cons in Hs as [Hy Hs].
  destruct (compare_Normal x y Hx Hy) as [v ->]. simpl.
  destruct (PrimFloat.ltb 0 v); [|by eexists].
  destruct (IH Hs) as [r ->]. by eexists.
Qed.

Lemma array_sort_returns (l : list Row) :
  Forall (λ r, is_Some (cells r !! columnIndex)) l →
  ∃ r, array_sort cmp l = Normal r.
Proof.
  induction l as [|x l IH]; intros Hl; simpl; [by eexists|].
  apply Forall_cons in Hl as [Hx Hl].
  destruct (IH Hl) as [s Hs]. rewrite Hs. simpl.
  apply insert_returns; [done|].
  apply array_sort_Permutation in Hs. by rewrite Hs.
Qed.

Lemma insert_throws (x y : Row) (s : list Row) :
  cells x !! columnIndex = None ∨ cells y !! columnIndex = None →
  insert cmp x (y :: s) = Throw TypeError.
Proof. intros H. simpl. by rewrite (compare_Throw x y H). Qed.

Lemma array_sort_throws (l : list Row) :
  (2 ≤ length l)%nat →
  Exists (λ r, cells r !! columnIndex = None) l →
  array_sort cmp l = Throw TypeError.
Proof.
  induction l as [|x l IH]; intros Hlen Hex; simpl in *; [lia|].
  destruct (decide (Forall (λ r, is_Some (cells r !! columnIndex)) l))
    as [Hall|Hnot].
  - destruct (array_sort_returns l Hall) as [s Hs]. rewrite Hs. simpl.
    assert (cells x !! columnIndex = None) as Hx.
    { apply Exists_cons in Hex as [Hx|Hex]; [done|].
      apply Exists_exists in Hex as (r & Hr & Hnone).
      rewrite Forall_forall in Hall. destruct (Hall r Hr) as [c Hc]. congruence. }
    apply array_sort_Permutation in Hs.
    destruct s as [|y s].
    { apply Permutation_nil_l in Hs. subst l. simpl in Hlen. lia. }
    apply insert_throws. by left.
  - apply not_Forall_Exists in Hnot; [|apply _].
    assert (Exists (λ r, cells r !! columnIndex = None) l) as Hex'.
    { apply Exists_exists in Hnot as (r & Hr & Hn). apply Exists_exists.
      exists r. split; [done|].
      destruct (cells r !! columnIndex) eqn:Hc; [|done].
      exfalso. apply Hn. by eexists. }
    destruct l as [|y [|z l]].
    + by apply Exists_nil in Hex'.
    + simpl. rewrite (compare_Throw x y); [done|]. right.
      apply Exists_cons in Hex' as [Hy|Hn]; [done | by apply Exists_nil in Hn].
    + rewrite IH; [done | simpl; lia | done].
Qed.

(** X14. When [sortTable] throws and when it returns.  It throws
    TypeError, leaving the table as it was, when the table has no body,
    and when the body has two rows or more of which one lacks the sort
    column.  It returns when the body has at most one row (the
    comparator is not called) and when every row has the column. *)
Theorem sortTable_throws_exactly (table : t) :
  (tbody table = None →
   sortTable parseFloat localeCompare table columnIndex isNumeric
   = (table, Throw TypeError))
  ∧ (∀ body, tbody table = Some body →
       ((2 ≤ length body)%nat
        ∧ Exists (λ r, cells r !! columnIndex = None) body →
        sortTable parseFloat localeCompare table columnIndex isNumeric
        = (table, Throw TypeError))
       ∧ ((length body ≤ 1)%nat
          ∨ Forall (λ r, is_Some (cells r !! columnIndex)) body →
          (sortTable parseFloat localeCompare table columnIndex isNumeric).2
          = Normal ())).
Proof.
  split.
  - intros Hnone. unfold sortTable. by rewrite Hnone.
  - intros body Hbody. unfold sortTable. rewrite Hbody. split.
    + intros [Hlen Hex]. by rewrite (array_sort_throws body Hlen Hex).
    + intros [Hlen | Hall].
      * by destruct body as [|x [|y body]]; simpl in *; [| |lia].
      * by destruct (array_sort_returns body Hall) as [r ->].
Qed.

End SortThrows.

(** X14 on a body of two rows, the second without the second column. *)
Lemma sortTable_throws_exactly_witness :
  Table.sortTable (λ _, 0%float) (λ _ _, 0%float)
    (Table.mk [] (Some [Table.mkRow 0 ["x"; "1"]; Table.mkRow 1 ["y"]]))
    1 false
  = (Table.mk [] (Some [Table.mkRow 0 ["x"; "1"]; Table.mkRow 1 ["y"]]),
     Throw TypeError).
Proof.
  destruct (sortTable_throws_exactly (λ _, 0%float) (λ _ _, 0%float) 1 false
              (Table.mk [] (Some [Table.mkRow 0 ["x"; "1"]; Table.mkRow 1 ["y"]])))
    as [_ Hbody].
  destruct (Hbody _ eq_refl) as [Hthrow _].
  apply Hthrow. split; [simpl; lia|].
  apply Exists_cons_tl, Exists_cons_hd. reflexivity.
Defined.

Section SortOrder.
Import Table.

Variable comparefn : Row → Row → Completion float.

Lemma insert_sorted (l : list Row) (x : Row) (s : list Row) :
  consistent comparefn l →
  x ∈ l → (∀ y, y ∈ s → y ∈ l) →
  StronglySorted (in_order comparefn) s →
  ∃ r, insert comparefn x s = Normal r
    ∧ r ≡ₚ x :: s
    ∧ StronglySorted (in_order comparefn) r.
Proof.
  intros (Hret & Hasym & Htrans) Hx.
  induction s as [|y s IH]; intros Hs Hsorted; simpl.
  { eexists. split; [reflexivity|]. split; [done|]. by repeat constructor. }
  assert (y ∈ l) as Hy by apply Hs, list_elem_of_here.
  apply StronglySorted_inv in Hsorted as [Hsorted Hfirst].
  destruct (Hret x y Hx Hy) as [v Hv]. rewrite Hv. simpl.
  assert (goes_after comparefn x y = PrimFloat.ltb 0 v) as Hgo
    by (unfold goes_after; by rewrite Hv).
  destruct (PrimFloat.ltb 0 v).
  - destruct IH as (r & -> & Hperm & Hr); [|done|].
    { intros z Hz. by apply Hs, list_elem_of_further. }
    simpl. eexists. split; [reflexivity|]. split.
    + rewrite Hperm. apply perm_swap.
    + constructor; [done|]. rewrite Hperm. constructor; [|done].
      by apply Hasym.
  - eexists. split; [reflexivity|]. split; [done|].
    constructor; [by constructor|]. constructor; [done|].
    rewrite Forall_forall in Hfirst |- *. intros z Hz.
    apply (Htrans x y z); try done.
    + by apply Hs, list_elem_of_further.
    + by apply Hfirst.
Qed.

Lemma array_sort_sorted (l : list Row) (body : list Row) :
  consistent comparefn l → (∀ y, y ∈ body → y ∈ l) →
  ∃ rows, array_sort comparefn body = Normal rows
    ∧ rows ≡ₚ body
    ∧ StronglySorted (in_order comparefn) rows.
Proof.
  intros Hcons. induction body as [|x body IH]; intros Hbody; simpl.
  { eexists. split; [reflexivity|]. split; [done | constructor]. }
  destruct IH as (s & -> & Hperm & Hs).
  { intros y Hy. by apply Hbody, list_elem_of_further. }
  simpl.
  destruct (insert_sorted l x s Hcons) as (r & Hr & Hpr & Hsr); [| |done|].
  { apply Hbody, list_elem_of_here. }
  { intros y Hy. rewrite Hperm in Hy. by apply Hbody, list_elem_of_further. }
  exists r. split; [done|]. split; [by rewrite Hpr, Hperm | done].
Qed.

(** A sorted array is returned as it is. *)
Lemma array_sort_of_sorted (body : list Row) :
  (∀ x y, x ∈ body → y ∈ body → ∃ v, comparefn x y = Normal v) →
  StronglySorted (in_order comparefn) body →
  array_sort comparefn body = Normal body.
Proof.
  induction body as [|x body IH]; intros Hret Hsorted; simpl; [done|].
  apply StronglySorted_inv in Hsorted as [Hsorted Hfirst].
  rewrite IH; [|intros; apply Hret; by apply list_elem_of_further | done].
  simpl. destruct body as [|y body]; [done|]. simpl.
  destruct (Hret x y) as [v Hv];
    [apply list_elem_of_here | apply list_elem_of_further, list_elem_of_here|].
  rewrite Hv. simpl.
  apply Forall_cons in Hfirst as [Hxy _]. unfold in_order, goes_after in Hxy.
  rewrite Hv in Hxy. by rewrite Hxy.
Qed.

(** Inserting a row keeps every class of tied rows in its order. *)
Lemma insert_ties (l : list Row) (r x : Row) (s s' : list Row) :
  consistent comparefn l →
  r ∈ l → x ∈ l → (∀ y, y ∈ s → y ∈ l) →
  insert comparefn x s = Normal s' →
  List.filter (ties comparefn r) s' = List.filter (ties comparefn r) (x :: s).
Proof.
  intros (Hret & Hasym & Htrans) Hr Hx. revert s'.
  induction s as [|y s IH]; intros s' Hs; simpl.
  { by intros [= <-]. }
  assert (y ∈ l) as Hy by apply Hs, list_elem_of_here.
  destruct (comparefn x y) as [v|e] eqn:Hv; simpl; [|done].
  assert (goes_after comparefn x y = PrimFloat.ltb 0 v) as Hgo
    by (unfold goes_after; by rewrite Hv).
  destruct (PrimFloat.ltb 0 v).
  - destruct (insert comparefn x s) as [s0|e] eqn:Hins; simpl; [|done].
    intros [= <-]. simpl.
    rewrite (IH s0); [|intros z Hz; by apply Hs, list_elem_of_further | done].
    simpl.
    destruct (ties comparefn r y) eqn:Hty, (ties comparefn r x) eqn:Htx;
      try done.
    exfalso. unfold ties in Hty, Htx.
    apply andb_true_iff in Hty as [Hry _]. apply andb_true_iff in Htx as [_ Hxr].
    apply negb_true_iff in Hry, Hxr.
    assert (goes_after comparefn x y = false) as Hno
      by by apply (Htrans x r y).
    congruence.
  - by intros [= <-].
Qed.

Lemma array_sort_ties (l : list Row) (r : Row) (body rows : list Row) :
  consistent comparefn l → r ∈ l → (∀ y, y ∈ body → y ∈ l) →
  array_sort comparefn body = Normal rows →
  List.filter (ties comparefn r) rows = List.filter (ties comparefn r) body.
Proof.
  intros Hcons Hr. revert rows.
  induction body as [|x body IH]; intros rows Hbody; simpl.
  { by intros [= <-]. }
  destruct (array_sort comparefn body) as [s|e] eqn:Hs; simpl; [|done].
  intros Hins.
  rewrite (insert_ties l r x s rows Hcons Hr); [| |  |done].
  - simpl. rewrite (IH s); [done | | done].
    intros y Hy. by apply Hbody, list_elem_of_further.
  - apply Hbody, list_elem_of_here.
  - intros y Hy. apply array_sort_Permutation in Hs. rewrite Hs in Hy.
    by apply Hbody, list_elem_of_further.
Qed.

End SortOrder.

Section SortTableOrder.
Import Table.

Variable parseFloat : string → float.
Variable localeCompare : string → string → float.
Variable columnIndex : nat.
Variable isNumeric : bool.

Abbreviation cmp' := (compare parseFloat localeCompare columnIndex isNumeric).

Lemma sortTable_result (table : t) (body rows : list Row) :
  tbody table = Some body → NoDup (map row_id body) →
  array_sort cmp' body = Normal rows →
  sortTable parseFloat localeCompare table columnIndex isNumeric
  = (mk (thead table) (Some rows), Normal ()).
Proof.
  intros Hbody Hnd Hsort. unfold sortTable. rewrite Hbody, Hsort.
  apply array_sort_Permutation in Hsort.
  by rewrite (appendChild_sorted rows body Hnd Hsort).
Qed.

(** X15. With a comparator that is consistent on the rows of the body,
    [sortTable] returns and leaves the body sorted: the rows are those of
    before, and no row stands before one that the comparator puts before
    it. *)
Theorem sortTable_sorts (table : t) (body : list Row) :
  tbody table = Some body →
  NoDup (map row_id body) →
  consistent cmp' body →
  ∃ rows,
    sortTable parseFloat localeCompare table columnIndex isNumeric
    = (mk (thead table) (Some rows), Normal ())
    ∧ rows ≡ₚ body
    ∧ StronglySorted (in_order cmp') rows.
Proof.
  intros Hbody Hnd Hcons.
  destruct (array_sort_sorted cmp' body body Hcons) as (rows & Hsort & Hperm & Hs);
    [done|].
  exists rows. split; [|done]. by apply (sortTable_result table body).
Qed.

(** X16. With a consistent comparator, sorting a table that has just
    been sorted by the same column and mode changes nothing. *)
Theorem sortTable_idempotent (table : t) (body : list Row) :
  tbody table = Some body →
  NoDup (map row_id body) →
  consistent cmp' body →
  sortTable parseFloat localeCompare
    (sortTable parseFloat localeCompare table columnIndex isNumeric).1
    columnIndex isNumeric
  = ((sortTable parseFloat localeCompare table columnIndex isNumeric).1,
     Normal ()).
Proof.
  intros Hbody Hnd Hcons.
  destruct (array_sort_sorted cmp' body body Hcons) as (rows & Hsort & Hperm & Hs);
    [done|].
  rewrite (sortTable_result table body rows Hbody Hnd Hsort). simpl.
  apply (sortTable_result (mk (thead table) (Some rows)) rows rows);
    [done | by rewrite Hperm |].
  apply array_sort_of_sorted; [|done].
  destruct Hcons as (Hret & _). intros x y Hx Hy.
  rewrite Hperm in Hx, Hy. by apply Hret.
Qed.

(** X17. The sort is stable: with a consistent comparator, the rows
    that the comparator treats as equal to a given row of the body stand
    after the sort in the order they had before. *)
Theorem sortTable_stable (table : t) (body : list Row) (r : Row) :
  tbody table = Some body →
  NoDup (map row_id body) →
  consistent cmp' body →
  r ∈ body →
  ∃ rows,
    tbody (sortTable parseFloat localeCompare table columnIndex isNumeric).1
    = Some rows
    ∧ List.filter (ties cmp' r) rows = List.filter (ties cmp' r) body.
Proof.
  intros Hbody Hnd Hcons Hr.
  destruct (array_sort_sorted cmp' body body Hcons) as (rows & Hsort & Hperm & Hs);
    [done|].
  rewrite (sortTable_result table body rows Hbody Hnd Hsort). simpl.
  exists rows. split; [done|].
  by apply (array_sort_ties cmp' body r body rows).
Qed.

End SortTableOrder.

Section SortTableWitnesses.
Import Table.

Lemma by_length_consistent :
  consistent (compare (λ _, 0%float) by_length 0 false) example_body.
Proof.
  unfold example_body. split; [|split].
  - intros x y Hx Hy.
    repeat match goal with
           | H : _ ∈ _ :: _ |- _ => apply elem_of_cons in H as [->|H]
           | H : _ ∈ [] |- _ => by apply elem_of_nil in H
           end; eexists; reflexivity.
  - intros x y Hx Hy.
    repeat match goal with
           | H : _ ∈ _ :: _ |- _ => apply elem_of_cons in H as [->|H]
           | H : _ ∈ [] |- _ => by apply elem_of_nil in H
           end; vm_compute; congruence.
  - intros x y z Hx Hy Hz. unfold in_order.
    repeat match goal with
           | H : _ ∈ _ :: _ |- _ => apply elem_of_cons in H as [->|H]
           | H : _ ∈ [] |- _ => by apply elem_of_nil in H
           end; vm_compute; congruence.
Qed.

(** X15 on three rows: the short text comes first. *)
Lemma sortTable_sorts_witness :
  ∃ rows,
    sortTable (λ _, 0%float) by_length (mk [] (Some example_body)) 0 false
    = (mk [] (Some rows), Normal ())
    ∧ rows ≡ₚ example_body.
Proof.
  destruct (sortTable_sorts (λ _, 0%float) by_length 0 false
              (mk [] (Some example_body)) example_body eq_refl)
    as (rows & Hrun & Hperm & _);
    [compute_done | apply by_length_consistent |].
  exists rows. split; [exact Hrun | exact Hperm].
Defined.

(** X16 on the same rows. *)
Lemma sortTable_idempotent_witness :
  sortTable (λ _, 0%float) by_length
    (sortTable (λ _, 0%float) by_length (mk [] (Some example_body)) 0 false).1
    0 false
  = ((sortTable (λ _, 0%float) by_length (mk [] (Some example_body)) 0 false).1,
     Normal ()).
Proof.
  apply (sortTable_idempotent (λ _, 0%float) by_length 0 false
           (mk [] (Some example_body)) example_body eq_refl);
    [compute_done | apply by_length_consistent].
Defined.

(** X17 on the same rows: the two texts of length two keep their order. *)
Lemma sortTable_stable_witness :
  ∃ rows,
    tbody (sortTable (λ _, 0%float) by_length (mk [] (Some example_body))
             0 false).1 = Some rows
    ∧ List.filter (ties (compare (λ _, 0%float) by_length 0 false) (mkRow 0 ["bb"]))
        rows
      = [mkRow 0 ["bb"]; mkRow 2 ["cc"]].
Proof.
  destruct (sortTable_stable (λ _, 0%float) by_length 0 false
              (mk [] (Some example_body)) example_body (mkRow 0 ["bb"]) eq_refl)
    as (rows & Hrun & Hties);
    [compute_done | apply by_length_consistent | apply list_elem_of_here |].
  exists rows. split; [exact Hrun|]. rewrite Hties. reflexivity.
Defined.

End SortTableWitnesses.

(** ** The whole export *)

Section ExportRoundTrip.
Import JsString Table Rfc4180.

Lemma string_length_app (a b : string) :
  String.length (a +:+ b) = String.length a + String.length b.
Proof.
  induction a as [|c a IH]; [done|].
  rewrite string_app_cons. simpl. by rewrite IH.
Qed.

Lemma string_app_nonempty (a b : string) : a ≠ "" → a +:+ b ≠ "".
Proof. destruct a; [done|]. by rewrite string_app_cons. Qed.

Lemma join_nonempty (sep x : string) (l : list string) :
  x ≠ "" → join sep (x :: l) ≠ "".
Proof.
  intros Hx. destruct l as [|y l]; [done|].
  rewrite join_cons_cons. by apply string_app_nonempty.
Qed.

Lemma length_le_join (sep : string) (lines : list string) :
  Forall (λ l, l ≠ "") lines →
  (length lines ≤ String.length (join sep lines))%nat.
Proof.
  induction lines as [|x lines IH]; intros Hl; [done|].
  apply Forall_cons in Hl as [Hx Hl]. specialize (IH Hl).
  assert (1 ≤ String.length x)%nat as Hx1 by (destruct x; [done | simpl; lia]).
  destruct lines as [|y lines]; [simpl; lia|].
  rewrite join_cons_cons, !string_length_app. simpl length in *. lia.
Qed.

(** The lines of an export are read back row by row. *)
Lemma read_records_join (rows : list (list string)) (fuel : nat) :
  rows ≠ [] → Forall row_ok rows → (length rows ≤ fuel)%nat →
  read_records fuel (join newline (map csv_line rows))
  = Some (map (map trim) rows).
Proof.
  revert fuel. induction rows as [|r rows IH]; intros fuel Hne Hok Hfuel; [done|].
  apply Forall_cons in Hok as [[Hline Hsafe] Hok].
  assert (r ≠ []) as Hr by (intros ->; by apply Hline).
  destruct fuel as [|fuel]; [simpl in Hfuel; lia|].
  destruct rows as [|r2 rows].
  - simpl. unfold read_record.
    rewrite <- (string_app_nil_r (csv_line r)).
    by rewrite (scan_csv_line r [] "") by (done || by left).
  - change (map csv_line (r :: r2 :: rows))
      with (csv_line r :: csv_line r2 :: map csv_line rows).
    rewrite join_cons_cons. cbn [read_records]. unfold read_record, newline.
    rewrite string_app_cons, string_app_nil_l.
    rewrite (scan_csv_line r [] _) by (done || right; by eexists).
    change (csv_line r2 :: map csv_line rows) with (map csv_line (r2 :: rows)).
    rewrite IH; [|done|done|simpl in *; lia].
    destruct (join (String "010" "") (map csv_line (r2 :: rows))) eqn:Hj; [|done].
    exfalso. apply Forall_cons in Hok as [[Hline2 _] _].
    by apply (join_nonempty (String "010" "") (csv_line r2) (map csv_line rows)).
Qed.

(** A cell is exported as the empty field exactly when its trimmed
    text is empty, and a row as the empty line exactly when it has no
    cell or one such cell. *)
Lemma csv_field_empty (cell : string) : csv_field cell = "" ↔ trim cell = "".
Proof.
  unfold csv_field.
  destruct (includes (trim cell) "," || includes (trim cell) dquote) eqn:Hq;
    [|done].
  split; [done|]. intros Ht. rewrite Ht in Hq. discriminate Hq.
Qed.

Lemma csv_line_empty (row_cells : list string) :
  csv_line row_cells = ""
  ↔ row_cells = [] ∨ ∃ c, row_cells = [c] ∧ trim c = "".
Proof.
  unfold csv_line. destruct row_cells as [|c [|c' l]].
  - split; [by left | done].
  - simpl. rewrite csv_field_empty. split.
    + intros Ht. right. by exists c.
    + by intros [? | (c0 & [= <-] & Ht)].
  - change (map csv_field (c :: c' :: l))
      with (csv_field c :: csv_field c' :: map csv_field l).
    rewrite join_cons_cons. split.
    + intros He. exfalso. destruct (csv_field c); discriminate He.
    + by intros [? | (c0 & ? & _)].
Qed.

(** X18. The text that [exportTableToCSV] hands to the download, for
    the table with the given id or else the first table of the page, is
    read back by the reader of RFC 4180 to the rows of the table, each
    cell trimmed, provided the table has a row, every row has a cell,
    no row is one cell whose trimmed text is empty (such rows are
    exported as an empty line), and no cell has a line break outside
    quotes. *)
Theorem export_round_trip (by_id first : option t) (table : t) :
  by_id = Some table ∨ (by_id = None ∧ first = Some table) →
  all_rows table ≠ [] →
  Forall (λ row, cells row ≠ []
                 ∧ (∀ c, cells row = [c] → trim c ≠ "")
                 ∧ Forall (λ c, csv_safe (trim c) = true) (cells row))
         (all_rows table) →
  ∃ content,
    exportTableToCSV by_id first = Some content
    ∧ read_all content = Some (map (λ row, map trim (cells row)) (all_rows table)).
Proof.
  intros Htable Hne Hok. exists (csvContent table). split.
  { unfold exportTableToCSV. by destruct Htable as [-> | [-> ->]]. }
  unfold read_all, csvContent.
  assert (map (λ row, csv_line (cells row)) (all_rows table)
          = map csv_line (map cells (all_rows table))) as ->
    by by rewrite <- list_fmap_compose.
  assert (map (λ row, map trim (cells row)) (all_rows table)
          = map (map trim) (map cells (all_rows table))) as ->
    by by rewrite <- list_fmap_compose.
  assert (Forall row_ok (map cells (all_rows table))) as Hok'.
  { apply Forall_fmap. eapply Forall_impl; [exact Hok|].
    intros row (Hcell & Hone & Hsafe). split; [|done]. simpl.
    rewrite csv_line_empty. intros [Hnil | (c & Hc & Ht)]; [done|].
    by apply (Hone c). }
  apply read_records_join; [by destruct (all_rows table) | done |].
  pose proof (length_le_join newline (map csv_line (map cells (all_rows table))))
    as Hlen.
  rewrite length_map in Hlen.
  assert (Forall (λ l, l ≠ "") (map csv_line (map cells (all_rows table)))) as Hl.
  { apply Forall_fmap. eapply Forall_impl; [exact Hok'|]. by intros r [Hr _]. }
  specialize (Hlen Hl). lia.
Qed.

(** X18 on a table with a head row and one body row. *)
Lemma export_round_trip_witness :
  ∃ content,
    exportTableToCSV None
      (Some (mk [mkRow 0 ["Plate"; "Owner"]]
                (Some [mkRow 1 [" AB-123 "; "Doe, John"]])))
    = Some content
    ∧ read_all content = Some [["Plate"; "Owner"]; ["AB-123"; "Doe, John"]].
Proof.
  destruct (export_round_trip None
              (Some (mk [mkRow 0 ["Plate"; "Owner"]]
                        (Some [mkRow 1 [" AB-123 "; "Doe, John"]])))
              (mk [mkRow 0 ["Plate"; "Owner"]]
                  (Some [mkRow 1 [" AB-123 "; "Doe, John"]])))
    as (content & Hexp & Hread).
  - right. split; reflexivity.
  - discriminate.
  - constructor; [|constructor; [|constructor]];
      (split; [discriminate|]); (split; [intros c Hc; discriminate Hc|]);
      repeat constructor.
  - exists content. split; [exact Hexp | exact Hread].
Defined.

End ExportRoundTrip.

(** ** The debounce never runs more passes than there were changes *)

Section DebounceBound.
Import Search.

Lemma length_filter_partition {A : Type} (p : A → bool) (l : list A) :
  length (List.filter p l) + length (List.filter (λ x, negb (p x)) l) = length l.
Proof.
  induction l as [|x l IH]; [done|]. simpl.
  destruct (p x); simpl; lia.
Qed.

Lemma passes_of_fold_fire_none (i : nat) (l : list Timer) (s : Loop) :
  List.filter (λ t, (owner t =? i)%nat) l = [] →
  passes_of i (foldl (λ s' t, fire t s') s l) = passes_of i s.
Proof.
  revert s. induction l as [|t l IH]; intros s; simpl; [done|].
  destruct (owner t =? i)%nat eqn:Ho; [done|]. intros Hl.
  rewrite IH by done. unfold passes_of at 1.
  rewrite passes_fire, passes_of_app.
  destruct (values s !! owner t); simpl; [|by rewrite app_nil_r].
  by rewrite Ho, app_nil_r.
Qed.

Lemma pending_of_Input_other (s : Loop) (i k : nat) (v : string) :
  Inv s → k ≠ i →
  pending_of k (step s (Input i v)) = pending_of k s.
Proof.
  intros (P1 & P2 & P3 & P4) Hki. simpl.
  destruct (boxes s !! i) as [b|] eqn:Hb; [|done].
  assert (i < length (boxes s)) as Hlen by by eapply lookup_lt_Some.
  unfold on_input. simpl. rewrite list_lookup_insert_eq by done. simpl.
  unfold pending_of. simpl. rewrite List.filter_app. simpl.
  rewrite (proj2 (Nat.eqb_neq i k)) by done.
  rewrite app_nil_r, pending_of_clearTimeout.
  apply clearTimeout_other.
  intros t [Ht Ho%Nat.eqb_eq]%elem_of_filter_bool Hh.
  assert (i = owner t) as Hi.
  { apply (P2 t i Ht). unfold held. rewrite list_lookup_fmap, Hb. simpl.
    by rewrite Hh. }
  congruence.
Qed.

Lemma pending_of_nil_without_box (s : Loop) (i : nat) :
  Inv s → values s !! i = None → pending_of i s = [].
Proof.
  intros (P1 & P2 & P3 & P4) Hv. apply filter_bool_nil. intros t Ht.
  apply Nat.eqb_neq. intros Ho.
  assert (held s !! i = Some (Some (timer_id t))) as Hh by by apply P2.
  unfold held, values in *.
  rewrite list_lookup_fmap in Hh. rewrite list_lookup_fmap in Hv.
  by destruct (boxes s !! i).
Qed.

Lemma step_bound (s : Loop) (i : nat) (e : SearchEvent) :
  Inv s →
  (length (passes_of i (step s e)) + length (pending_of i (step s e))
   ≤ length (passes_of i s) + length (pending_of i s) + count_changes i [e])%nat.
Proof.
  intros HI. destruct e as [k v|d].
  - assert (passes_of i (step s (Input k v)) = passes_of i s) as Hp.
    { unfold passes_of. f_equal. f_equal. simpl.
      destruct (boxes s !! k); [|done]. by unfold on_input; simpl;
        destruct (_ !! k). }
    rewrite Hp.
    assert (count_changes i [Input k v] = if (k =? i)%nat then 1 else 0) as ->.
    { unfold count_changes. simpl. by destruct (k =? i)%nat. }
    destruct (k =? i)%nat eqn:Hk.
    + apply Nat.eqb_eq in Hk. subst k.
      pose proof (Inv_at_most_one i (step s (Input i v)) (Inv_step s _ HI)).
      lia.
    + apply Nat.eqb_neq in Hk.
      rewrite (pending_of_Input_other s k i v HI) by done. lia.
  - assert (count_changes i [Elapse d] = 0) as -> by done.
    rewrite Nat.add_0_r, pending_of_Elapse.
    pose proof (length_filter_partition (is_due (now s + d)) (pending_of i s)).
    destruct (values s !! i) as [v|] eqn:Hv.
    + rewrite (passes_of_Elapse s i d v Hv), length_app, length_replicate. lia.
    + rewrite (pending_of_nil_without_box s i HI Hv). simpl.
      rewrite passes_of_fold_fire_none; [unfold passes_of; simpl; lia|].
      rewrite filter_bool_comm. fold (pending_of i s).
      by rewrite (pending_of_nil_without_box s i HI Hv).
Qed.

(** X21. The debounce never runs a pass without a change: at any
    moment, the passes that have run for a search input, plus its
    pending timer if there is one, are at most as many as the changes of
    that input so far. *)
Theorem debounce_passes_bounded (inputs : list SearchInput)
    (es : list SearchEvent) (i : nat) :
  (length (passes_of i (run (initializeSearch inputs) es))
   + length (pending_of i (run (initializeSearch inputs) es))
   ≤ count_changes i es)%nat.
Proof.
  induction es as [|e es IH] using rev_ind; [done|].
  rewrite run_app. change (run ?x [e]) with (step x e).
  pose proof (step_bound (run (initializeSearch inputs) es) i e
                (Inv_run _ _ (Inv_initializeSearch inputs))) as Hstep.
  unfold count_changes in *. rewrite List.filter_app, length_app. lia.
Qed.

End DebounceBound.

